(** * Shadowsocks local client: AEAD framing, key schedule and SOCKS5 front end

    A shallow embedding of [src/crypto/methods.js], [src/crypto/aead.js] and
    [src/local.js].  JavaScript numbers are modelled as [Z] with the 32-bit
    coercions of the bitwise operators written out, Buffers as lists of
    bytes, the fields of [this] as records that are passed explicitly, and
    the calls a handler makes on sockets and streams as lists of events.

    The primitives of Node's [crypto] module (hashes, HKDF, the AEAD ciphers)
    are not code of this repository: they are the fields of [NodeCrypto] and
    every result is stated for an arbitrary implementation of them, under the
    hypotheses it needs. *)

From Stdlib Require Import ZArith Lia Bool.
From Stdlib.Strings Require Import String Byte.
From stdpp Require Import base list.

Local Open Scope Z_scope.

Abbreviation bytes := (list byte).

#[global] Instance byte_eq_dec : EqDecision byte := Byte.byte_eq_dec.

(* ===================================================================== *)
(** ** JavaScript numbers *)
(* ===================================================================== *)

Module JS.

(** [ToInt32]: the coercion applied to both operands of [&] and to the
    left operand of [>>]. *)
Definition ToInt32 (z : Z) : Z := (z + 2 ^ 31) mod 2 ^ 32 - 2 ^ 31.

(** [a & b] *)
Definition band (a b : Z) : Z := Z.land (ToInt32 a) (ToInt32 b).

(** [a >> b] (sign-propagating; the shift count is taken modulo 32) *)
Definition sar (a b : Z) : Z := Z.shiftr (ToInt32 a) (b mod 32).

(** [n++] on a non-negative integer-valued double: exact below 2^53, and
    2^53 + 1 rounds back to 2^53.  Counters that start at 0 and are only
    incremented never leave this range. *)
Definition incr (n : Z) : Z := if n <? 2 ^ 53 then n + 1 else n.

(** [Math.ceil(a / b)] for integers [a >= 0], [b > 0]. *)
Definition ceil_div (a b : Z) : Z := (a + b - 1) / b.

End JS.

(* ===================================================================== *)
(** ** Buffers *)
(* ===================================================================== *)

Module Buffer.

Definition byte_of_Z (z : Z) : byte :=
  default x00 (Byte.of_N (Z.to_N (z mod 256))).

Definition Z_of_byte (b : byte) : Z := Z.of_N (Byte.to_N b).

(** [buf.length] *)
Definition len (b : bytes) : Z := Z.of_nat (length b).

(** [Buffer.alloc(n, fill)] *)
Definition alloc (n : Z) (fill : byte) : bytes := replicate (Z.to_nat n) fill.

(** [Buffer.from(string)]: the bytes of the string. *)
Definition from (s : string) : bytes := list_byte_of_string s.

(** Index normalisation of [slice]: negative offsets count from the end,
    everything is clamped to [0, length]. *)
Definition clamp (i l : Z) : Z :=
  if i <? 0 then Z.max 0 (l + i) else Z.min i l.

(** [buf.slice(start, end)] *)
Definition slice (b : bytes) (start stop : Z) : bytes :=
  let s := clamp start (len b) in
  let e := clamp stop (len b) in
  take (Z.to_nat (e - s)) (drop (Z.to_nat s) b).

(** [buf.slice(start)] *)
Definition slice_from (b : bytes) (start : Z) : bytes :=
  slice b start (len b).

(** [buf[i]] for an index inside the buffer ([undefined] otherwise). *)
Definition get (b : bytes) (i : Z) : option Z :=
  if i <? 0 then None else Z_of_byte <$> b !! Z.to_nat i.

(** [buf[i] = v]: the value is reduced modulo 256; a write outside the
    buffer is ignored. *)
Definition set (b : bytes) (i : nat) (v : Z) : bytes :=
  <[i := byte_of_Z v]> b.

(** [buf.writeUInt16BE(value, offset)]: throws a RangeError when the value
    is not in [0, 65535] or the two bytes do not fit. *)
Definition writeUInt16BE (b : bytes) (value : Z) (offset : nat) : option bytes :=
  if (0 <=? value) && (value <=? 65535) && (Z.of_nat offset + 2 <=? len b)
  then Some (<[S offset := byte_of_Z value]>
             (<[offset := byte_of_Z (value / 256)]> b))
  else None.

(** [buf.readUInt16BE(offset)]: throws a RangeError when the two bytes are
    not inside the buffer. *)
Definition readUInt16BE (b : bytes) (offset : nat) : option Z :=
  match b !! offset, b !! S offset with
  | Some hi, Some lo => Some (Z_of_byte hi * 256 + Z_of_byte lo)
  | _, _ => None
  end.

(** [src.copy(target, targetStart)]: overwrites the target from
    [targetStart] with as many bytes of [src] as fit; returns the target. *)
Definition copy (src target : bytes) (targetStart : nat) : bytes :=
  let room := (length target - targetStart)%nat in
  take targetStart target ++ take room src
    ++ drop (targetStart + length (take room src)) target.

End Buffer.

(* ===================================================================== *)
(** ** Node's [crypto] module *)
(* ===================================================================== *)

(** The operations of [crypto] that the program calls.  A cipher object made
  by [createCipheriv(algorithm, key, iv, {authTagLength})] is used in one
  way only: one [update], then [final], then [getAuthTag]; a decipher
  object by [setAuthTag], one [update], then [final], which throws when the
  tag does not verify.  [final] returns no bytes for these stream modes. *)
Record NodeCrypto := {
(** [createHash(alg)], a sequence of [update]s whose concatenation is the
    second argument, then [digest()] *)
hash_digest : string -> bytes -> bytes;
(** [hkdfSync(digest, ikm, salt, info, keylen)] *)
hkdfSync : string -> bytes -> bytes -> bytes -> Z -> bytes;
(** [createCipheriv(alg, key, iv).update(data)] *)
cipher_update : string -> bytes -> bytes -> bytes -> bytes;
(** [getAuthTag()] of that cipher after [final()] *)
cipher_getAuthTag : string -> bytes -> bytes -> bytes -> bytes;
(** [createDecipheriv(alg, key, iv).update(data)] *)
decipher_update : string -> bytes -> bytes -> bytes -> bytes;
(** whether [final()] of the decipher returns ([true]) or throws, for the
    ciphertext given to [update] and the tag given to [setAuthTag] *)
decipher_final : string -> bytes -> bytes -> bytes -> bytes -> bool
}.

(* ===================================================================== *)
(** ** [src/crypto/methods.js] *)
(* ===================================================================== *)

Module Methods.

Record MethodInfo := {
  keySize : Z;
  saltSize : Z;
  nonceSize : Z;
  tagSize : Z
}.

(** [AEAD_METHODS[method]] for the keys of the table ([None] stands for
    [undefined]). *)
Definition AEAD_METHODS (method : string) : option MethodInfo :=
  if String.eqb method "aes-128-gcm" then
    Some {| keySize := 16; saltSize := 16; nonceSize := 12; tagSize := 16 |}
  else if String.eqb method "aes-256-gcm" then
    Some {| keySize := 32; saltSize := 32; nonceSize := 12; tagSize := 16 |}
  else if String.eqb method "chacha20-ietf-poly1305" then
    Some {| keySize := 32; saltSize := 32; nonceSize := 12; tagSize := 16 |}
  else None.

(** The algorithm name [createAEADCipher] hands to Node. *)
Definition algorithm (method : string) : string :=
  if String.eqb method "chacha20-ietf-poly1305" then "chacha20-poly1305"
  else method.

Section WithCrypto.
Context (crypto : NodeCrypto).

(** The body of the [for] loop of [EVP_BytesToKey], for rounds
    [i, i+1, ..., i+n-1]; the state is [(lastRound, result)]. *)
Fixpoint EVP_rounds (passwordBuffer : bytes) (n i : nat)
    (lastRound result : bytes) : bytes :=
  match n with
  | O => result
  | S n' =>
      let data :=
        (if (0 <? i)%nat then lastRound else []) ++ passwordBuffer in
      let lastRound := hash_digest crypto "md5" data in
      let result := Buffer.copy lastRound result (i * 16) in
      EVP_rounds passwordBuffer n' (S i) lastRound result
  end.

Definition EVP_BytesToKey (password : string) (keyLen : Z) : bytes :=
  let md5Rounds := JS.ceil_div keyLen 16 in
  let result := Buffer.alloc (md5Rounds * 16) x00 in
  let passwordBuffer := Buffer.from password in
  let result :=
    EVP_rounds passwordBuffer (Z.to_nat md5Rounds) 0 [] result in
  Buffer.slice result 0 keyLen.

Definition deriveKey (password : string) (salt : bytes) (keySize : Z)
    : bytes :=
  let passwordKey := EVP_BytesToKey password keySize in
  hkdfSync crypto "sha1" passwordKey salt (Buffer.from "ss-subkey") keySize.

(** The same stretch in the words of the specification (section 4.1),
    to compare [EVP_BytesToKey] with: the digests [d_0 = MD5(password)],
    [d_i = MD5(d_(i-1) ++ password)]. *)
Fixpoint spec_d (password : bytes) (i : nat) : bytes :=
  match i with
  | O => hash_digest crypto "md5" password
  | S j => hash_digest crypto "md5" (spec_d password j ++ password)
  end.

(** [d_0 ++ d_1 ++ ... ++ d_(rounds-1)], truncated to [key_size] bytes. *)
Definition spec_EVP_BytesToKey (password : bytes) (rounds : nat)
    (key_size : Z) : bytes :=
  take (Z.to_nat key_size)
       (concat (map (spec_d password) (seq 0 rounds))).

End WithCrypto.

End Methods.


(* ===================================================================== *)
(** ** [src/crypto/aead.js] *)
(* ===================================================================== *)

Module Aead.

(** What a [_transform] can hand to its callback, or throw on the way. *)
Inductive Error :=
| RangeError     (** thrown by [writeUInt16BE] *)
| InvalidKey     (** thrown by [createCipheriv] when [this.key] is [null] *)
| AuthLength     (** ['AEAD authentication failed for length'] *)
| AuthPayload.   (** ['AEAD authentication failed for payload'] *)

(** The [for (let i = 0; i < 12; i++)] loop of [updateNonce], from index [i]
    for [count] more rounds, with the local [n] and the nonce buffer. *)
Fixpoint nonce_for (count i : nat) (n : Z) (nonce : bytes) : bytes :=
  match count with
  | O => nonce
  | S count' =>
      if (i <? 8)%nat then
        let nonce := Buffer.set nonce i (JS.band n 255) in
        let n := JS.sar n 8 in
        nonce_for count' (S i) n nonce
      else
        let nonce := Buffer.set nonce i 0 in
        nonce_for count' (S i) n nonce
  end.

(** [buf.fill(0)] *)
Definition fill0 (b : bytes) : bytes := replicate (length b) x00.

End Aead.

(** *** [class AEADEncryptor] *)

Module AEADEncryptor.
Import Methods Aead.

Record t := {
  method : string;
  password : string;
  methodInfo : MethodInfo;
  salt : option bytes;
  key : option bytes;
  nonce : bytes;
  isFirstChunk : bool;
  chunkId : Z
}.

(** What [_transform] does to the outside, in order: the AEAD operations it
    runs (algorithm, key, nonce and plaintext of each cipher it creates and
    feeds) and the buffers it pushes to the readable side. *)
Inductive Event :=
| Seal (alg : string) (key nonce plaintext : bytes)
| Push (data : bytes).

Definition pushes (evs : list Event) : list bytes :=
  omap (fun e => match e with Push d => Some d | Seal _ _ _ _ => None end) evs.

Definition seals (evs : list Event) : list (bytes * bytes) :=
  omap (fun e => match e with
                 | Seal _ _ n p => Some (n, p)
                 | Push _ => None
                 end) evs.

(** [new AEADEncryptor(method, password)]; [None] when the constructor
    throws: ['Unsupported method'] for a name [AEAD_METHODS[method]] is
    [undefined] for, and, for a name the table object only inherits from
    [Object.prototype] (["constructor"], ["toString"], ...), the TypeError
    of [Buffer.alloc] given a [nonceSize] that is [undefined]. *)
Definition new (method password : string) : option t :=
  match AEAD_METHODS method with
  | None => None
  | Some info =>
      Some {| method := method; password := password; methodInfo := info;
              salt := None; key := None;
              nonce := Buffer.alloc (nonceSize info) x00;
              isFirstChunk := true; chunkId := 0 |}
  end.

Definition set_nonce (this : t) (c : Z) (n : bytes) : t :=
  {| method := method this; password := password this;
     methodInfo := methodInfo this; salt := salt this; key := key this;
     nonce := n; isFirstChunk := isFirstChunk this; chunkId := c |}.

Definition set_isFirstChunk (this : t) (b : bool) : t :=
  {| method := method this; password := password this;
     methodInfo := methodInfo this; salt := salt this; key := key this;
     nonce := nonce this; isFirstChunk := b; chunkId := chunkId this |}.

Definition updateNonce (this : t) : t :=
  let chunkId := JS.incr (chunkId this) in
  set_nonce this chunkId (nonce_for 12 0 chunkId (nonce this)).

Section WithCrypto.
Context (crypto : NodeCrypto).

(** [random] is what [crypto.randomBytes(this.saltSize)] returns. *)
Definition initializeEncryption (this : t) (random : bytes) : t :=
  {| method := method this; password := password this;
     methodInfo := methodInfo this;
     salt := Some random;
     key := Some (deriveKey crypto (password this) random
                            (keySize (methodInfo this)));
     nonce := fill0 (nonce this);
     isFirstChunk := isFirstChunk this;
     chunkId := 0 |}.

(** [_transform(chunk, encoding, callback)]: the new [this], the events in
    order, and the error given to [callback], if any. *)
Definition _transform (this : t) (random chunk : bytes)
    : t * list Event * option Error :=
  let '(this, ev0) :=
    if isFirstChunk this then
      let this := initializeEncryption this random in
      (set_isFirstChunk this false, [Push random])
    else (this, []) in
  if Buffer.len chunk =? 0 then (this, ev0, None)
  else
    match Buffer.writeUInt16BE (Buffer.alloc 2 x00) (Buffer.len chunk) 0 with
    | None => (this, ev0, Some RangeError)
    | Some lengthBuf =>
        match key this with
        | None => (this, ev0, Some InvalidKey)
        | Some k =>
            let alg := algorithm (method this) in
            let n0 := nonce this in
            let encryptedLength := cipher_update crypto alg k n0 lengthBuf in
            let lengthTag := cipher_getAuthTag crypto alg k n0 lengthBuf in
            let this := updateNonce this in
            let n1 := nonce this in
            let encryptedPayload := cipher_update crypto alg k n1 chunk in
            let payloadTag := cipher_getAuthTag crypto alg k n1 chunk in
            let this := updateNonce this in
            (this,
             ev0 ++ [Seal alg k n0 lengthBuf; Seal alg k n1 chunk;
                     Push (encryptedLength ++ lengthTag
                             ++ encryptedPayload ++ payloadTag)],
             None)
        end
    end.

(** Node's stream contract: the chunks written to the transform reach
    [_transform] one at a time, in order; once a callback has received an
    error the stream is destroyed and later chunks are dropped. *)
Fixpoint write_all (this : t) (random : bytes) (chunks : list bytes)
    : t * list Event * option Error :=
  match chunks with
  | [] => (this, [], None)
  | chunk :: rest =>
      match _transform this random chunk with
      | (this, evs, Some e) => (this, evs, Some e)
      | (this, evs, None) =>
          let '(this, evs', e) := write_all this random rest in
          (this, evs ++ evs', e)
      end
  end.

End WithCrypto.
End AEADEncryptor.

(** *** [class AEADDecryptor] *)

Module AEADDecryptor.
Import Methods Aead.

Record t := {
  method : string;
  password : string;
  methodInfo : MethodInfo;
  salt : option bytes;
  key : option bytes;
  nonce : bytes;
  isFirstChunk : bool;
  chunkId : Z;
  buffer : bytes;
  expectingLength : bool;
  payloadLength : Z
}.

Definition new (method password : string) : option t :=
  match AEAD_METHODS method with
  | None => None
  | Some info =>
      Some {| method := method; password := password; methodInfo := info;
              salt := None; key := None;
              nonce := Buffer.alloc (nonceSize info) x00;
              isFirstChunk := true; chunkId := 0;
              buffer := Buffer.alloc 0 x00;
              expectingLength := true; payloadLength := 0 |}
  end.

Definition set_nonce (this : t) (c : Z) (n : bytes) : t :=
  {| method := method this; password := password this;
     methodInfo := methodInfo this; salt := salt this; key := key this;
     nonce := n; isFirstChunk := isFirstChunk this; chunkId := c;
     buffer := buffer this; expectingLength := expectingLength this;
     payloadLength := payloadLength this |}.

Definition set_isFirstChunk (this : t) (b : bool) : t :=
  {| method := method this; password := password this;
     methodInfo := methodInfo this; salt := salt this; key := key this;
     nonce := nonce this; isFirstChunk := b; chunkId := chunkId this;
     buffer := buffer this; expectingLength := expectingLength this;
     payloadLength := payloadLength this |}.

Definition set_buffer (this : t) (b : bytes) : t :=
  {| method := method this; password := password this;
     methodInfo := methodInfo this; salt := salt this; key := key this;
     nonce := nonce this; isFirstChunk := isFirstChunk this;
     chunkId := chunkId this;
     buffer := b; expectingLength := expectingLength this;
     payloadLength := payloadLength this |}.

Definition set_expectingLength (this : t) (b : bool) : t :=
  {| method := method this; password := password this;
     methodInfo := methodInfo this; salt := salt this; key := key this;
     nonce := nonce this; isFirstChunk := isFirstChunk this;
     chunkId := chunkId this;
     buffer := buffer this; expectingLength := b;
     payloadLength := payloadLength this |}.

Definition set_payloadLength (this : t) (l : Z) : t :=
  {| method := method this; password := password this;
     methodInfo := methodInfo this; salt := salt this; key := key this;
     nonce := nonce this; isFirstChunk := isFirstChunk this;
     chunkId := chunkId this;
     buffer := buffer this; expectingLength := expectingLength this;
     payloadLength := l |}.

Definition updateNonce (this : t) : t :=
  let chunkId := JS.incr (chunkId this) in
  set_nonce this chunkId (nonce_for 12 0 chunkId (nonce this)).

(** How one round of the [while] loop ends. *)
Inductive Step :=
| Break                        (** [break]: wait for more data *)
| Next (pushed : list bytes)   (** fall through to the loop test *)
| Throw (e : Error).           (** [return callback(new Error(...))] *)

Section WithCrypto.
Context (crypto : NodeCrypto).

Definition initializeDecryption (this : t) (salt : bytes) : t :=
  {| method := method this; password := password this;
     methodInfo := methodInfo this;
     salt := Some salt;
     key := Some (deriveKey crypto (password this) salt
                            (keySize (methodInfo this)));
     nonce := fill0 (nonce this);
     isFirstChunk := isFirstChunk this;
     chunkId := 0;
     buffer := buffer this; expectingLength := expectingLength this;
     payloadLength := payloadLength this |}.

(** The [if (this.expectingLength)] branch of the loop body. *)
Definition length_round (this : t) : t * Step :=
  let tagSize := tagSize (methodInfo this) in
  let lengthSize := 2 + tagSize in
  if Buffer.len (buffer this) <? lengthSize then (this, Break)
  else
    let encryptedLength := Buffer.slice (buffer this) 0 2 in
    let lengthTag := Buffer.slice (buffer this) 2 lengthSize in
    match key this with
    | None => (this, Throw InvalidKey)
    | Some k =>
        let alg := algorithm (method this) in
        let lengthBuf :=
          decipher_update crypto alg k (nonce this) encryptedLength in
        if decipher_final crypto alg k (nonce this) encryptedLength lengthTag
        then
          match Buffer.readUInt16BE lengthBuf 0 with
          | None => (this, Throw AuthLength)
          | Some l =>
              let this := set_payloadLength this l in
              let this := updateNonce this in
              let this := set_expectingLength this false in
              let this :=
                set_buffer this (Buffer.slice_from (buffer this) lengthSize) in
              (this, Next [])
          end
        else (this, Throw AuthLength)
    end.

(** The [else] branch of the loop body. *)
Definition payload_round (this : t) : t * Step :=
  let tagSize := tagSize (methodInfo this) in
  let payloadSize := payloadLength this + tagSize in
  if Buffer.len (buffer this) <? payloadSize then (this, Break)
  else
    let encryptedPayload := Buffer.slice (buffer this) 0 (payloadLength this) in
    let payloadTag :=
      Buffer.slice (buffer this) (payloadLength this) payloadSize in
    match key this with
    | None => (this, Throw InvalidKey)
    | Some k =>
        let alg := algorithm (method this) in
        let payload :=
          decipher_update crypto alg k (nonce this) encryptedPayload in
        if decipher_final crypto alg k (nonce this) encryptedPayload payloadTag
        then
          let this := updateNonce this in
          let this := set_expectingLength this true in
          let this :=
            set_buffer this (Buffer.slice_from (buffer this) payloadSize) in
          (this, Next [payload])
        else (this, Throw AuthPayload)
    end.

Definition round (this : t) : t * Step :=
  if expectingLength this then length_round this else payload_round this.

(** [while (this.buffer.length > 0) { ... }], at most [fuel] rounds; [None]
    when the rounds are used up before the loop has ended. *)
Fixpoint while (fuel : nat) (this : t)
    : option (t * list bytes * option Error) :=
  match fuel with
  | O => None
  | S fuel' =>
      if 0 <? Buffer.len (buffer this) then
        match round this with
        | (this, Break) => Some (this, [], None)
        | (this, Throw e) => Some (this, [], Some e)
        | (this, Next out) =>
            match while fuel' this with
            | Some (this, out', e) => Some (this, out ++ out', e)
            | None => None
            end
        end
      else Some (this, [], None)
  end.

(** Rounds that always suffice: a length round removes at least two bytes,
    a payload round is followed by a length round. *)
Definition rounds (this : t) : nat := (2 * length (buffer this) + 2)%nat.

Definition run_while (this : t) : t * list bytes * option Error :=
  default (this, [], None) (while (rounds this) this).

(** [_transform(chunk, encoding, callback)]: the new [this], the buffers
    pushed, in order, and the error given to [callback], if any. *)
Definition _transform (this : t) (chunk : bytes)
    : t * list bytes * option Error :=
  let this := set_buffer this (buffer this ++ chunk) in
  if isFirstChunk this then
    if Buffer.len (buffer this) <? saltSize (methodInfo this) then
      (this, [], None)
    else
      let salt := Buffer.slice (buffer this) 0 (saltSize (methodInfo this)) in
      let this :=
        set_buffer this
          (Buffer.slice_from (buffer this) (saltSize (methodInfo this))) in
      let this := initializeDecryption this salt in
      let this := set_isFirstChunk this false in
      run_while this
  else run_while this.

(** Node's stream contract, as for the encryptor. *)
Fixpoint write_all (this : t) (chunks : list bytes)
    : t * list bytes * option Error :=
  match chunks with
  | [] => (this, [], None)
  | chunk :: rest =>
      match _transform this chunk with
      | (this, out, Some e) => (this, out, Some e)
      | (this, out, None) =>
          let '(this, out', e) := write_all this rest in
          (this, out ++ out', e)
      end
  end.

End WithCrypto.
End AEADDecryptor.


(* ===================================================================== *)
(** ** [src/local.js] *)
(* ===================================================================== *)

Module ShadowsocksLocal.
Import Methods Aead.

(** The calls a handler makes on the two sockets, on the logger and on the
    next stage, in the order it makes them. *)
Inductive Action :=
| LogError
| LogDebug
| ClientWrite (data : bytes)
| ClientDestroy
| ServerWrite (data : bytes)
| ServerDestroy
| RemoveListener                     (** [clientConn.removeListener('data', ...)] *)
| HandleSocksRequest                 (** [this.handleSocksRequest(clientConn)] *)
| ConnectToServer (targetAddr : bytes).  (** [this.connectToServer(clientConn, ...)] *)

(** [handshakeHandler(data)] of [handleSocksHandshake]: the new
    [handshakeBuffer] and the calls made. *)
Definition handshakeHandler (handshakeBuffer data : bytes)
    : bytes * list Action :=
  let handshakeBuffer := handshakeBuffer ++ data in
  if Buffer.len handshakeBuffer <? 2 then (handshakeBuffer, [])
  else if negb (bool_decide (Buffer.get handshakeBuffer 0 = Some 5)) then
    (handshakeBuffer, [LogError; ClientDestroy])
  else
    let numMethods := default 0 (Buffer.get handshakeBuffer 1) in
    if Buffer.len handshakeBuffer <? 2 + numMethods then (handshakeBuffer, [])
    else
      (handshakeBuffer,
       [RemoveListener; ClientWrite [x05; x00]; HandleSocksRequest]).

(** The reply buffer [[0x05, rep, 0x00, 0x01, 0, 0, 0, 0, 0, 0]]. *)
Definition reply (rep : byte) : bytes :=
  [x05; rep; x00; x01; x00; x00; x00; x00; x00; x00].

(** How the first [switch (addrType)] of [requestHandler] ends. *)
Inductive AddrLength :=
| NeedMore                (** [return]: need more data *)
| NotSupported            (** the [default] case *)
| Known (addrLength : Z).

Definition addrLength_of (requestBuffer : bytes) (addrType : option Z)
    : AddrLength :=
  match addrType with
  | Some 1 => Known 4
  | Some 3 =>
      if Buffer.len requestBuffer <? 5 then NeedMore
      else Known (default 0 (Buffer.get requestBuffer 4) + 1)
  | Some 4 => Known 16
  | _ => NotSupported
  end.

(** [requestHandler(data)] of [handleSocksRequest].  The second [switch]
    only formats [dstAddr] for the debug line and is part of [LogDebug]. *)
Definition requestHandler (requestBuffer data : bytes)
    : bytes * list Action :=
  let requestBuffer := requestBuffer ++ data in
  if Buffer.len requestBuffer <? 4 then (requestBuffer, [])
  else if negb (bool_decide (Buffer.get requestBuffer 0 = Some 5))
          || negb (bool_decide (Buffer.get requestBuffer 2 = Some 0)) then
    (requestBuffer, [LogError; ClientDestroy])
  else
    let cmd := Buffer.get requestBuffer 1 in
    if negb (bool_decide (cmd = Some 1)) then
      (requestBuffer, [LogError; ClientWrite (reply x07); ClientDestroy])
    else
      let addrType := Buffer.get requestBuffer 3 in
      match addrLength_of requestBuffer addrType with
      | NeedMore => (requestBuffer, [])
      | NotSupported =>
          (requestBuffer, [LogError; ClientWrite (reply x08); ClientDestroy])
      | Known addrLength =>
          if Buffer.len requestBuffer <? 4 + addrLength + 2 then
            (requestBuffer, [])
          else
            let portOffset := 4 + addrLength in
            (requestBuffer,
             [RemoveListener; LogDebug;
              ConnectToServer (Buffer.slice requestBuffer 3 (portOffset + 2))])
      end.

(** The two transforms of one tunnel, and whether each has been destroyed
    by an error. *)
Record Tunnel := {
  encryptor : AEADEncryptor.t;
  decryptor : AEADDecryptor.t;
  encryptorFailed : bool;
  decryptorFailed : bool
}.

(** What [pipe] hands to the destination of the buffers a transform has
    pushed: [push] of a buffer of length 0 adds nothing to the readable side
    and emits no ['data'], so no [write] is made for it. *)
Definition piped (out : list bytes) : list bytes :=
  List.filter (fun b => negb (Buffer.len b =? 0)) out.

(** [encryptor.on('error', ...)] and [decryptor.on('error', ...)] *)
Definition encryptor_on_error : list Action :=
  [LogError; ClientDestroy; ServerDestroy].

Definition decryptor_on_error : list Action :=
  [LogError; ClientDestroy; ServerDestroy].

Section WithCrypto.
Context (crypto : NodeCrypto).

(** The ['connect'] handler of [connectToServer], for the method and
    password of the configuration (the constructor of [ShadowsocksLocal]
    has checked the method).  Returns the tunnel, the AEAD operations of
    the first write and the calls made; what the encryptor pushed reaches
    [serverConn] once it is piped. *)
Definition on_connect (method password : string) (random targetAddr : bytes)
    : option (Tunnel * list AEADEncryptor.Event * list Action) :=
  match AEADEncryptor.new method password,
        AEADDecryptor.new method password with
  | Some enc, Some dec =>
      let '(enc, evs, e) :=
        AEADEncryptor._transform crypto enc random targetAddr in
      let tunnel :=
        {| encryptor := enc; decryptor := dec;
           encryptorFailed := bool_decide (e <> None);
           decryptorFailed := false |} in
      Some (tunnel, evs,
            [LogDebug; ClientWrite (reply x00)]
              ++ map ServerWrite (AEADEncryptor.pushes evs)
              ++ (if bool_decide (e <> None) then encryptor_on_error else []))
  | _, _ => None
  end.

(** A ['data'] event of [serverConn], through
    [serverConn.pipe(decryptor).pipe(clientConn)]: the buffers the
    decryptor pushed reach [clientConn.write] as [piped] passes them. *)
Definition server_data (tunnel : Tunnel) (chunk : bytes)
    : Tunnel * list Action :=
  if decryptorFailed tunnel then (tunnel, [])
  else
    match AEADDecryptor._transform crypto (decryptor tunnel) chunk with
    | (dec, out, None) =>
        ({| encryptor := encryptor tunnel; decryptor := dec;
            encryptorFailed := encryptorFailed tunnel;
            decryptorFailed := false |},
         map ClientWrite (piped out))
    | (dec, out, Some _) =>
        ({| encryptor := encryptor tunnel; decryptor := dec;
            encryptorFailed := encryptorFailed tunnel;
            decryptorFailed := true |},
         map ClientWrite (piped out) ++ decryptor_on_error)
    end.

Fixpoint server_stream (tunnel : Tunnel) (chunks : list bytes)
    : Tunnel * list Action :=
  match chunks with
  | [] => (tunnel, [])
  | chunk :: rest =>
      let '(tunnel, acts) := server_data tunnel chunk in
      let '(tunnel, acts') := server_stream tunnel rest in
      (tunnel, acts ++ acts')
  end.

End WithCrypto.
End ShadowsocksLocal.

(* ===================================================================== *)
(** ** A small instance of [NodeCrypto]

    Not a cipher anyone should use: it only shows that the hypotheses made
    on [NodeCrypto] below can be met, and lets the model run on examples. *)
(* ===================================================================== *)

Module Toy.

(** The one's complement of a byte. *)
Definition bnot (b : byte) : byte :=
  Buffer.byte_of_Z (255 - Buffer.Z_of_byte b).

(** The first [n] bytes of [data], padded with zeros. *)
Definition pad (n : nat) (data : bytes) : bytes :=
  take n (data ++ replicate n x00).

Definition tag (key nonce ciphertext : bytes) : bytes :=
  pad 16 (nonce ++ rev ciphertext ++ key).

Definition crypto : NodeCrypto := {|
  hash_digest := fun _ data => pad 16 (rev data);
  hkdfSync := fun _ ikm salt info keylen =>
    pad (Z.to_nat keylen) (ikm ++ salt ++ info);
  cipher_update := fun _ _ _ data => map bnot data;
  cipher_getAuthTag := fun _ key nonce data => tag key nonce (map bnot data);
  decipher_update := fun _ _ _ data => map bnot data;
  decipher_final := fun _ key nonce data t =>
    bool_decide (t = tag key nonce data)
|}.

End Toy.


(* ===================================================================== *)
(** ** [src/crypto/methods.js]: the cipher helpers *)
(* ===================================================================== *)

Module Cipher.
Import Methods.

(** A cipher or decipher object as [createCipheriv] or [createDecipheriv]
    returns it, not yet fed: what it was made with. *)
Record t := {
  alg : string;
  key : bytes;
  iv : bytes;
  authTagLength : Z
}.

(** [createAEADCipher(method, key, nonce, isEncrypt)]; [None] when reading
    [AEAD_METHODS[method].tagSize] throws, the method not being in the
    table.  The two directions are made from the same arguments. *)
Definition createAEADCipher (method : string) (key nonce : bytes)
    (isEncrypt : bool) : option t :=
  let algorithm := algorithm method in
  match AEAD_METHODS method with
  | None => None
  | Some info =>
      Some {| alg := algorithm; key := key; iv := nonce;
              authTagLength := tagSize info |}
  end.

Section WithCrypto.
Context (crypto : NodeCrypto).

(** [encryptAEAD(data, cipher)]; [final()] returns no bytes. *)
Definition encryptAEAD (data : bytes) (cipher : t) : bytes :=
  let ciphertext := cipher_update crypto (alg cipher) (key cipher) (iv cipher)
                                  data in
  let final : bytes := [] in
  let tag := cipher_getAuthTag crypto (alg cipher) (key cipher) (iv cipher)
                               data in
  Buffer.alloc 2 x00 ++ ciphertext ++ final ++ tag.

(** [decryptAEAD(data, decipher, tagSize)]; [None] is [null]. *)
Definition decryptAEAD (data : bytes) (decipher : t) (tagSize : Z)
    : option bytes :=
  let tag := Buffer.slice_from data (Buffer.len data - tagSize) in
  let ciphertext := Buffer.slice data 0 (Buffer.len data - tagSize) in
  let plaintext :=
    decipher_update crypto (alg decipher) (key decipher) (iv decipher)
                    ciphertext in
  if decipher_final crypto (alg decipher) (key decipher) (iv decipher)
                    ciphertext tag
  then
    let final : bytes := [] in
    Some (plaintext ++ final)
  else None.

End WithCrypto.
End Cipher.

(* ===================================================================== *)
(** ** [src/local.js]: the constructor, the listeners, the relay *)
(* ===================================================================== *)

Module Local.
Import Methods Aead ShadowsocksLocal.

(** The [config] object; [None] is a property left [undefined]. *)
Record Config := {
  c_serverAddr : string;
  c_serverPort : Z;
  c_password : string;
  c_method : string;
  c_localPort : option Z;
  c_timeout : option Z
}.

Record t := {
  serverAddr : string;
  serverPort : Z;
  password : string;
  method : string;
  localPort : Z;
  timeout : Z
}.

(** [v || d] for a number that may be [undefined]: [undefined] and [0] are
    the falsy ones. *)
Definition or_default (v : option Z) (d : Z) : Z :=
  match v with
  | Some x => if x =? 0 then d else x
  | None => d
  end.

(** The properties every plain object inherits from [Object.prototype].
    [AEAD_METHODS] is an object literal, so [AEAD_METHODS[name]] finds them
    too; each is a function or an object. *)
Definition Object_prototype : list string :=
  ["constructor"; "__defineGetter__"; "__defineSetter__"; "hasOwnProperty";
   "__lookupGetter__"; "__lookupSetter__"; "isPrototypeOf";
   "propertyIsEnumerable"; "toString"; "valueOf"; "__proto__";
   "toLocaleString"]%string.

(** Whether [AEAD_METHODS[name]] is truthy: an entry of the table is an
    object, an inherited property is a function or an object, anything
    else is [undefined]. *)
Definition truthy_method (name : string) : bool :=
  match AEAD_METHODS name with
  | Some _ => true
  | None => existsb (String.eqb name) Object_prototype
  end.

(** [new ShadowsocksLocal(config)]; [None] when the constructor throws
    ['Unsupported encryption method'], which it does when
    [AEAD_METHODS[this.method]] is not truthy. *)
Definition new (config : Config) : option t :=
  let this :=
    {| serverAddr := c_serverAddr config;
       serverPort := c_serverPort config;
       password := c_password config;
       method := c_method config;
       localPort := or_default (c_localPort config) 1080;
       timeout := or_default (c_timeout config) 60 * 1000 |} in
  if negb (truthy_method (method this)) then None else Some this.

(** The ['data'] listener of [clientConn], with the buffer its closure
    holds. *)
Inductive Listener :=
| OnHandshake (handshakeBuffer : bytes)
| OnRequest (requestBuffer : bytes)
| NoListener.

(** The client socket of one connection: its ['data'] listener, whether it
    has been destroyed, and the target records handed to
    [connectToServer] so far. *)
Record Client := {
  listener : Listener;
  destroyed : bool;
  dialed : list bytes
}.

(** [handleSocksClient(clientConn)]: the socket just accepted, with the
    handshake listener and its empty buffer. *)
Definition handleSocksClient : Client :=
  {| listener := OnHandshake (Buffer.alloc 0 x00);
     destroyed := false; dialed := [] |}.

(** The ['error'] listener [handleSocksClient] registers. *)
Definition on_client_error : list Action := [LogDebug; ClientDestroy].

(** What a call made by a handler does to the socket:
    [removeListener('data', ...)], [handleSocksRequest], which registers
    the request listener with a new empty buffer, [destroy()], and
    [connectToServer]. *)
Definition perform (c : Client) (a : Action) : Client :=
  match a with
  | RemoveListener =>
      {| listener := NoListener; destroyed := destroyed c;
         dialed := dialed c |}
  | HandleSocksRequest =>
      {| listener := OnRequest (Buffer.alloc 0 x00);
         destroyed := destroyed c; dialed := dialed c |}
  | ClientDestroy =>
      {| listener := listener c; destroyed := true; dialed := dialed c |}
  | ConnectToServer targetAddr =>
      {| listener := listener c; destroyed := destroyed c;
         dialed := dialed c ++ [targetAddr] |}
  | _ => c
  end.

(** A ['data'] event of [clientConn] before the relay is set up: the
    listener registered at that moment runs; a listener registered while
    it runs does not see the event; a destroyed socket emits nothing. *)
Definition on_data (c : Client) (data : bytes) : Client * list Action :=
  if destroyed c then (c, [])
  else
    match listener c with
    | OnHandshake handshakeBuffer =>
        let '(handshakeBuffer, acts) :=
          handshakeHandler handshakeBuffer data in
        (fold_left perform acts
           {| listener := OnHandshake handshakeBuffer;
              destroyed := destroyed c; dialed := dialed c |},
         acts)
    | OnRequest requestBuffer =>
        let '(requestBuffer, acts) := requestHandler requestBuffer data in
        (fold_left perform acts
           {| listener := OnRequest requestBuffer;
              destroyed := destroyed c; dialed := dialed c |},
         acts)
    | NoListener => (c, [])
    end.

Fixpoint on_data_all (c : Client) (events : list bytes)
    : Client * list Action :=
  match events with
  | [] => (c, [])
  | data :: rest =>
      let '(c, acts) := on_data c data in
      let '(c, acts') := on_data_all c rest in
      (c, acts ++ acts')
  end.

(** The ways [connectToServer] gives a tunnel up. *)
Inductive Failure :=
| ServerError        (** [serverConn.once('error', ...)] *)
| ServerTimeout      (** [serverConn.once('timeout', ...)] *)
| EncryptorError     (** [encryptor.on('error', ...)] *)
| DecryptorError.    (** [decryptor.on('error', ...)] *)

(** What the handler of each does, given [clientConn.writable]. *)
Definition on_failure (f : Failure) (clientWritable : bool) : list Action :=
  match f with
  | ServerError =>
      [LogError]
        ++ (if clientWritable
            then [ClientWrite (reply x01); ClientDestroy] else [])
        ++ [ServerDestroy]
  | ServerTimeout =>
      [LogError; ServerDestroy]
        ++ (if clientWritable then [ClientDestroy] else [])
  | EncryptorError => encryptor_on_error
  | DecryptorError => decryptor_on_error
  end.

(** [clientConn.on('close', ...)], given [serverConn.writable], and
    [serverConn.on('close', ...)], given [clientConn.writable]. *)
Definition on_client_close (serverWritable : bool) : list Action :=
  [LogDebug] ++ (if serverWritable then [ServerDestroy] else []).

Definition on_server_close (clientWritable : bool) : list Action :=
  [LogDebug] ++ (if clientWritable then [ClientDestroy] else []).

Section WithCrypto.
Context (crypto : NodeCrypto).

(** A ['data'] event of [clientConn] once the relay is set up, through
    [clientConn.pipe(encryptor).pipe(serverConn)]; [random] is what
    [randomBytes] returns if the encryptor still has to make its salt. *)
Definition client_data (tunnel : Tunnel) (random chunk : bytes)
    : Tunnel * list Action :=
  if encryptorFailed tunnel then (tunnel, [])
  else
    match AEADEncryptor._transform crypto (encryptor tunnel) random chunk with
    | (enc, evs, None) =>
        ({| encryptor := enc; decryptor := decryptor tunnel;
            encryptorFailed := false;
            decryptorFailed := decryptorFailed tunnel |},
         map ServerWrite (AEADEncryptor.pushes evs))
    | (enc, evs, Some _) =>
        ({| encryptor := enc; decryptor := decryptor tunnel;
            encryptorFailed := true;
            decryptorFailed := decryptorFailed tunnel |},
         map ServerWrite (AEADEncryptor.pushes evs) ++ encryptor_on_error)
    end.

Fixpoint client_stream (tunnel : Tunnel) (random : bytes)
    (chunks : list bytes) : Tunnel * list Action :=
  match chunks with
  | [] => (tunnel, [])
  | chunk :: rest =>
      let '(tunnel, acts) := client_data tunnel random chunk in
      let '(tunnel, acts') := client_stream tunnel random rest in
      (tunnel, acts ++ acts')
  end.

End WithCrypto.
End Local.

(* ===================================================================== *)
(** ** Vocabulary of the statements *)
(* ===================================================================== *)

(** The little-endian encoding of [v] on [width] bytes. *)
Fixpoint le_bytes (width : nat) (v : Z) : bytes :=
  match width with
  | O => []
  | S w => Buffer.byte_of_Z v :: le_bytes w (v / 256)
  end.

(** The number a little-endian byte string stands for. *)
Fixpoint le_value (b : bytes) : Z :=
  match b with
  | [] => 0
  | x :: rest => Buffer.Z_of_byte x + 256 * le_value rest
  end.

(** The nonce [updateNonce] leaves in a 12-byte buffer when it has raised
    the counter to [c]. *)
Definition nonce_of (c : Z) : bytes := Aead.nonce_for 12 0 c (replicate 12 x00).

(** The decryptor after more bytes have been appended to its carry buffer. *)
Definition more (this : AEADDecryptor.t) (x : bytes) : AEADDecryptor.t :=
  AEADDecryptor.set_buffer this (AEADDecryptor.buffer this ++ x).

(** What the sizes of a decryptor made by [new] satisfy, and what
    [readUInt16BE] guarantees of [payloadLength]. *)
Definition well_formed (this : AEADDecryptor.t) : Prop :=
  Methods.tagSize (AEADDecryptor.methodInfo this) = 16
  /\ 0 <= Methods.saltSize (AEADDecryptor.methodInfo this)
  /\ 0 <= AEADDecryptor.payloadLength this.

(** The number of rounds the loop still needs at most. *)
Definition measure (this : AEADDecryptor.t) : nat :=
  (2 * length (AEADDecryptor.buffer this)
   + (if AEADDecryptor.expectingLength this then 0 else 1))%nat.

(** What an observer of a transform sees: the buffers pushed and the error. *)
Definition observe {S A E : Type} (r : S * list A * option E)
    : list A * option E :=
  (snd (fst r), snd r).

(** The decryptor once the salt at the head of its buffer has been taken:
    the first-chunk block of [_transform]. *)
Definition after_salt (crypto : NodeCrypto) (this : AEADDecryptor.t)
    : AEADDecryptor.t :=
  let saltSize := Methods.saltSize (AEADDecryptor.methodInfo this) in
  AEADDecryptor.set_isFirstChunk
    (AEADDecryptor.initializeDecryption crypto
       (AEADDecryptor.set_buffer this
          (Buffer.slice_from (AEADDecryptor.buffer this) saltSize))
       (Buffer.slice (AEADDecryptor.buffer this) 0 saltSize))
    false.

(** The fields the loop never assigns. *)
Definition same_session (a b : AEADDecryptor.t) : Prop :=
  AEADDecryptor.method a = AEADDecryptor.method b
  /\ AEADDecryptor.methodInfo a = AEADDecryptor.methodInfo b
  /\ AEADDecryptor.key a = AEADDecryptor.key b
  /\ AEADDecryptor.isFirstChunk a = AEADDecryptor.isFirstChunk b.

Module Enc := AEADEncryptor.
Module Dec := AEADDecryptor.

(** The two bytes [writeUInt16BE] writes for [v]. *)
Definition be16 (v : Z) : bytes :=
  [Buffer.byte_of_Z (v / 256); Buffer.byte_of_Z v].

(** The layout of one frame on the wire: sealed length field, its tag,
    sealed payload, its tag (step 5 of [AEADEncryptor._transform]). *)
Definition frame_of (crypto : NodeCrypto) (alg : string)
    (k n0 n1 lengthBuf payload : bytes) : bytes :=
  cipher_update crypto alg k n0 lengthBuf
    ++ cipher_getAuthTag crypto alg k n0 lengthBuf
    ++ cipher_update crypto alg k n1 payload
    ++ cipher_getAuthTag crypto alg k n1 payload.

(** What is assumed of the AEAD ciphers of Node where a statement needs it:
    they are stream modes with a 16-byte tag, and a decipher with the same
    algorithm, key and nonce opens what a cipher has sealed. *)
Record aead_correct (crypto : NodeCrypto) : Prop := {
  sealed_length : forall alg k n p,
    length (cipher_update crypto alg k n p) = length p;
  tag_length : forall alg k n p,
    length (cipher_getAuthTag crypto alg k n p) = 16%nat;
  open_sealed : forall alg k n p,
    decipher_update crypto alg k n (cipher_update crypto alg k n p) = p;
  verify_sealed : forall alg k n p,
    decipher_final crypto alg k n (cipher_update crypto alg k n p)
                   (cipher_getAuthTag crypto alg k n p) = true
}.

(** A decryptor between two frames: salt taken, carry buffer empty, a
    length field expected next. *)
Definition at_frame_boundary (d : Dec.t) (k : bytes) : Prop :=
  Dec.isFirstChunk d = false /\ Dec.expectingLength d = true
  /\ Dec.buffer d = [] /\ Dec.key d = Some k.

(** An encryptor and a decryptor of one session that have gone through the
    same number of AEAD operations. *)
Definition in_step (e : Enc.t) (d : Dec.t) (k : bytes) : Prop :=
  Enc.isFirstChunk e = false /\ Enc.key e = Some k
  /\ at_frame_boundary d k /\ well_formed d
  /\ Enc.method e = Dec.method d
  /\ Enc.nonce e = Dec.nonce d /\ Enc.chunkId e = Dec.chunkId d.

(** The bytes that follow a frame boundary start with something the
    decipher refuses: a length field whose tag does not verify, or a length
    field that verifies followed by a payload whose tag does not. *)
Inductive open_fails (crypto : NodeCrypto) (d : Dec.t) (k : bytes)
    : bytes -> Prop :=
| fails_on_length (el tl rest : bytes) :
    length el = 2%nat -> length tl = 16%nat ->
    decipher_final crypto (Methods.algorithm (Dec.method d)) k
                   (Dec.nonce d) el tl = false ->
    open_fails crypto d k (el ++ tl ++ rest)
| fails_on_payload (el tl ep tp rest : bytes) (l : Z) :
    length el = 2%nat -> length tl = 16%nat ->
    decipher_final crypto (Methods.algorithm (Dec.method d)) k
                   (Dec.nonce d) el tl = true ->
    Buffer.readUInt16BE
      (decipher_update crypto (Methods.algorithm (Dec.method d)) k
                       (Dec.nonce d) el) 0 = Some l ->
    Buffer.len ep = l -> length tp = 16%nat ->
    decipher_final crypto (Methods.algorithm (Dec.method d)) k
                   (Dec.nonce (Dec.updateNonce d)) ep tp = false ->
    open_fails crypto d k (el ++ tl ++ ep ++ tp ++ rest).

(** Two concrete transforms, for the examples: what [new] returns for
    ['aes-128-gcm'] and the password ['pw']. *)
Definition aes128 : Methods.MethodInfo :=
  {| Methods.keySize := 16; Methods.saltSize := 16;
     Methods.nonceSize := 12; Methods.tagSize := 16 |}.

Definition encryptor0 : Enc.t :=
  {| Enc.method := "aes-128-gcm"; Enc.password := "pw";
     Enc.methodInfo := aes128; Enc.salt := None; Enc.key := None;
     Enc.nonce := replicate 12 x00; Enc.isFirstChunk := true;
     Enc.chunkId := 0 |}.

Definition decryptor0 : Dec.t :=
  {| Dec.method := "aes-128-gcm"; Dec.password := "pw";
     Dec.methodInfo := aes128; Dec.salt := None; Dec.key := None;
     Dec.nonce := replicate 12 x00; Dec.isFirstChunk := true;
     Dec.chunkId := 0; Dec.buffer := [];
     Dec.expectingLength := true; Dec.payloadLength := 0 |}.

(** A salt for the examples. *)
Definition salt0 : bytes := replicate 16 x07.

(** An encryptor of the session of [e] that has gone through [ops] AEAD
    operations: the counter is [ops], the nonce what [updateNonce] wrote
    for it. *)
Definition running (e : Enc.t) (ops : Z) : Enc.t :=
  Enc.set_nonce e ops (nonce_of ops).

(** The encryptor after [n] writes of the same chunk. *)
Definition writes (crypto : NodeCrypto) (random chunk : bytes) (n : N)
    (e : Enc.t) : Enc.t :=
  N.iter n (fun e => fst (fst (Enc._transform crypto e random chunk))) e.

(** The nonces of the AEAD operations among some events, in order. *)
Definition nonces (evs : list Enc.Event) : list bytes :=
  map fst (Enc.seals evs).

(** The example transforms once the salt [salt0] has been made, or read. *)
Definition key0 : bytes := Methods.deriveKey Toy.crypto "pw" salt0 16.

Definition encryptor1 : Enc.t :=
  Enc.set_isFirstChunk (Enc.initializeEncryption Toy.crypto encryptor0 salt0)
                       false.

Definition decryptor1 : Dec.t :=
  Dec.set_isFirstChunk (Dec.initializeDecryption Toy.crypto decryptor0 salt0)
                       false.

(** [rounds_to crypto s out s']: the loop of the decryptor, entered in
    state [s], comes to the start of a round in state [s'], having pushed
    [out] in the rounds before. *)
Inductive rounds_to (crypto : NodeCrypto) : Dec.t -> list bytes -> Dec.t -> Prop :=
| rounds_here (s : Dec.t) : rounds_to crypto s [] s
| rounds_next (s s1 s2 : Dec.t) (out out' : list bytes) :
    0 < Buffer.len (Dec.buffer s) ->
    Dec.round crypto s = (s1, Dec.Next out) ->
    rounds_to crypto s1 out' s2 ->
    rounds_to crypto s (out ++ out') s2.

(** The state in which [_transform] enters its loop, when it does. *)
Definition loop_entry (crypto : NodeCrypto) (this : Dec.t) (chunk : bytes)
    : Dec.t :=
  if Dec.isFirstChunk this then after_salt crypto (more this chunk)
  else more this chunk.

(** For the examples: what the example encryptor puts on the wire for the
    one buffer ["hi"], and a tunnel whose transforms are new. *)
Definition good_wire : bytes :=
  concat (Enc.pushes
            (snd (fst (Enc._transform Toy.crypto encryptor0 salt0
                                     [x68; x69])))).

Definition tunnel0 : ShadowsocksLocal.Tunnel :=
  {| ShadowsocksLocal.encryptor := encryptor0;
     ShadowsocksLocal.decryptor := decryptor0;
     ShadowsocksLocal.encryptorFailed := false;
     ShadowsocksLocal.decryptorFailed := false |}.

(* ===================================================================== *)
(** ** Vocabulary of the further properties *)
(* ===================================================================== *)

(** A decryptor that cannot go on with what it holds: the salt, the length
    field or the payload it waits for is not yet whole in its buffer. *)
Definition starved (s : Dec.t) : Prop :=
  if Dec.isFirstChunk s then
    Buffer.len (Dec.buffer s) < Methods.saltSize (Dec.methodInfo s)
  else if Dec.expectingLength s then
    Buffer.len (Dec.buffer s) < 2 + Methods.tagSize (Dec.methodInfo s)
  else
    Buffer.len (Dec.buffer s)
    < Dec.payloadLength s + Methods.tagSize (Dec.methodInfo s).

(** Two decryptors that differ at most in the bytes at the end of the
    carry buffer. *)
Definition up_to_buffer (t t' : Dec.t) : Prop :=
  t' = t \/ exists x, t' = more t x.

(** The invariant of the decryptor between writes. *)
Definition between_writes (info : Methods.MethodInfo) (s : Dec.t) : Prop :=
  Dec.methodInfo s = info /\ well_formed s /\ Dec.payloadLength s <= 65535.

(** What [updateNonce] makes of the counter and the nonce. *)
Definition next_nonce (cn : Z * bytes) : Z * bytes :=
  let chunkId := JS.incr (fst cn) in
  (chunkId, Aead.nonce_for 12 0 chunkId (snd cn)).

(** [opened crypto alg k expecting l cn stream out]: the buffers [out] are,
    in order, what the decipher of [alg] under the key [k] gave for the
    payloads of the first frames of [stream], read as the loop of the
    decryptor reads them from the counter and nonce [cn] on: two bytes of
    length and the 16 bytes behind them as their tag, then as many bytes as
    the length opened to, and the 16 bytes behind them as their tag; and
    [final()] accepted every one of these tags, each under the nonce of its
    place.  [expecting] and [l] say where in a frame [stream] starts. *)
Inductive opened (crypto : NodeCrypto) (alg : string) (k : bytes)
    : bool -> Z -> Z * bytes -> bytes -> list bytes -> Prop :=
| opened_stop (expecting : bool) (l : Z) (cn : Z * bytes) (stream : bytes) :
    opened crypto alg k expecting l cn stream []
| opened_length (l0 : Z) (cn : Z * bytes) (stream el lt rest : bytes)
    (l : Z) (out : list bytes) :
    stream = el ++ lt ++ rest ->
    Buffer.len el = 2 -> Buffer.len lt = 16 ->
    decipher_final crypto alg k (snd cn) el lt = true ->
    Buffer.readUInt16BE (decipher_update crypto alg k (snd cn) el) 0
    = Some l ->
    opened crypto alg k false l (next_nonce cn) rest out ->
    opened crypto alg k true l0 cn stream out
| opened_payload (l : Z) (cn : Z * bytes) (stream ct tg rest : bytes)
    (out : list bytes) :
    stream = ct ++ tg ++ rest ->
    Buffer.len ct = l -> Buffer.len tg = 16 ->
    decipher_final crypto alg k (snd cn) ct tg = true ->
    opened crypto alg k true l (next_nonce cn) rest out ->
    opened crypto alg k false l cn stream
           (decipher_update crypto alg k (snd cn) ct :: out).

(** The bytes the encryptor sends after the salt for the buffers [P] it is
    given: nothing for an empty buffer; for any other, the buffer, two
    bytes of length and two tags of 16 bytes. *)
Fixpoint wire_size (P : list bytes) : Z :=
  match P with
  | [] => 0
  | p :: P =>
      (if Buffer.len p =? 0 then 0 else Buffer.len p + 34) + wire_size P
  end.

(** A SOCKS5 greeting: version 5, the number of methods, the methods. *)
Definition greeting (n : byte) (methods : bytes) : bytes :=
  x05 :: n :: methods.

(** A SOCKS5 CONNECT request: version 5, command 1, reserved 0, the address
    type, the address, the port. *)
Definition connect_request (atyp : byte) (addr port : bytes) : bytes :=
  [x05; x01; x00; atyp] ++ addr ++ port.

(** The address has the form its type announces: four bytes of IPv4,
    sixteen of IPv6, or a name behind the byte that counts it. *)
Definition address_ok (atyp : byte) (addr : bytes) : Prop :=
  (atyp = x01 /\ Buffer.len addr = 4)
  \/ (atyp = x04 /\ Buffer.len addr = 16)
  \/ (atyp = x03
      /\ exists n name, addr = n :: name
                        /\ Buffer.len name = Buffer.Z_of_byte n).

(** The client socket once the negotiation is over and [target] has been
    handed to [connectToServer]. *)
Definition negotiated (target : bytes) : Local.Client :=
  {| Local.listener := Local.NoListener; Local.destroyed := false;
     Local.dialed := [target] |}.


(** A configuration and a target for the examples. *)
Definition config0 : Local.Config :=
  {| Local.c_serverAddr := "example.org"; Local.c_serverPort := 8388;
     Local.c_password := "pw"; Local.c_method := "aes-128-gcm";
     Local.c_localPort := None; Local.c_timeout := None |}.

Definition target0 : bytes := [x01; x7f; x00; x00; x01; x00; x50].


(* ===================================================================== *)
(** * Properties *)
(* ===================================================================== *)

(** ** Bytes and Buffers *)

Lemma Z_of_byte_range (b : byte) : 0 <= Buffer.Z_of_byte b < 256.
Proof.
  unfold Buffer.Z_of_byte. pose proof (Byte.to_N_bounded b). lia.
Qed.

Lemma Z_of_byte_of_Z (z : Z) :
  Buffer.Z_of_byte (Buffer.byte_of_Z z) = z mod 256.
Proof.
  unfold Buffer.Z_of_byte, Buffer.byte_of_Z.
  pose proof (Z.mod_pos_bound z 256 ltac:(lia)) as Hz.
  destruct (Byte.of_N (Z.to_N (z mod 256))) as [b|] eqn:E; simpl.
  - apply Byte.to_of_N in E. rewrite E. lia.
  - apply Byte.of_N_None_iff in E. lia.
Qed.

Lemma byte_of_Z_of_byte (b : byte) :
  Buffer.byte_of_Z (Buffer.Z_of_byte b) = b.
Proof.
  unfold Buffer.byte_of_Z.
  rewrite Z.mod_small by apply Z_of_byte_range.
  unfold Buffer.Z_of_byte. rewrite N2Z.id, Byte.of_to_N. reflexivity.
Qed.

Lemma len_app (a b : bytes) : Buffer.len (a ++ b) = Buffer.len a + Buffer.len b.
Proof. unfold Buffer.len. rewrite length_app. lia. Qed.

Lemma len_nonneg (a : bytes) : 0 <= Buffer.len a.
Proof. unfold Buffer.len. lia. Qed.

(** [slice] with offsets in order is [take] after [drop]. *)
Lemma slice_take_drop (b : bytes) (i j : Z) :
  0 <= i <= j ->
  Buffer.slice b i j = take (Z.to_nat (j - i)) (drop (Z.to_nat i) b).
Proof.
  intros Hij. unfold Buffer.slice, Buffer.clamp, Buffer.len.
  destruct (Z.ltb_spec i 0); [lia|]. destruct (Z.ltb_spec j 0); [lia|].
  destruct (Z.le_gt_cases (Z.of_nat (length b)) i) as [Hi|Hi].
  - rewrite (drop_ge b (Z.to_nat i)) by lia.
    rewrite drop_ge by lia. rewrite !take_nil. reflexivity.
  - rewrite (Z.min_l i) by lia.
    destruct (Z.le_gt_cases j (Z.of_nat (length b))) as [Hj|Hj].
    + rewrite Z.min_l by lia. reflexivity.
    + rewrite Z.min_r by lia.
      rewrite !take_ge; [reflexivity| |]; rewrite length_drop; lia.
Qed.

Lemma slice_prefix (b : bytes) (j : Z) :
  0 <= j -> Buffer.slice b 0 j = take (Z.to_nat j) b.
Proof.
  intros Hj. rewrite slice_take_drop by lia. rewrite Z.sub_0_r. reflexivity.
Qed.

Lemma slice_from_drop (b : bytes) (i : Z) :
  0 <= i -> Buffer.slice_from b i = drop (Z.to_nat i) b.
Proof.
  intros Hi. unfold Buffer.slice_from, Buffer.slice, Buffer.clamp, Buffer.len.
  destruct (Z.ltb_spec i 0); [lia|].
  destruct (Z.ltb_spec (Z.of_nat (length b)) 0); [lia|].
  rewrite (Z.min_l (Z.of_nat (length b))) by lia.
  destruct (Z.le_gt_cases (Z.of_nat (length b)) i) as [Hl|Hl].
  - rewrite Z.min_r by lia. rewrite Nat2Z.id, drop_all, take_nil.
    rewrite drop_ge by lia. reflexivity.
  - rewrite Z.min_l by lia. rewrite take_ge; [reflexivity|].
    rewrite length_drop. lia.
Qed.

(** A slice never has more bytes than the buffer it is taken from. *)
Lemma slice_from_length (b : bytes) (i : Z) :
  (length (Buffer.slice_from b i) <= length b)%nat.
Proof.
  unfold Buffer.slice_from, Buffer.slice.
  rewrite length_take, length_drop. lia.
Qed.

Lemma writeUInt16BE_alloc (v : Z) :
  0 <= v <= 65535 ->
  Buffer.writeUInt16BE (Buffer.alloc 2 x00) v 0
  = Some [Buffer.byte_of_Z (v / 256); Buffer.byte_of_Z v].
Proof.
  intros Hv. unfold Buffer.writeUInt16BE.
  destruct (Z.leb_spec 0 v); [|lia].
  destruct (Z.leb_spec v 65535); [|lia]. reflexivity.
Qed.

Lemma writeUInt16BE_out_of_range (b : bytes) (v : Z) (offset : nat) :
  65535 < v -> Buffer.writeUInt16BE b v offset = None.
Proof.
  intros Hv. unfold Buffer.writeUInt16BE.
  destruct (Z.leb_spec v 65535); [lia|].
  rewrite andb_false_r. reflexivity.
Qed.

Lemma readUInt16BE_written (v : Z) :
  0 <= v <= 65535 ->
  Buffer.readUInt16BE [Buffer.byte_of_Z (v / 256); Buffer.byte_of_Z v] 0
  = Some v.
Proof.
  intros Hv. unfold Buffer.readUInt16BE. simpl.
  rewrite !Z_of_byte_of_Z. f_equal.
  rewrite (Z.mod_small (v / 256)).
  - pose proof (Z.div_mod v 256 ltac:(lia)). lia.
  - split; [apply Z.div_pos; lia | apply Z.div_lt_upper_bound; lia].
Qed.

(** ** The key schedule *)

Section KeySchedule.
Import Methods.
Context (crypto : NodeCrypto).
Hypothesis md5_length :
  forall data, length (hash_digest crypto "md5" data) = 16%nat.

Lemma spec_d_length (pw : bytes) (i : nat) :
  length (spec_d crypto pw i) = 16%nat.
Proof. destruct i; simpl; apply md5_length. Qed.

Lemma spec_digests_length (pw : bytes) (n : nat) :
  length (concat (map (spec_d crypto pw) (seq 0 n))) = (n * 16)%nat.
Proof.
  induction n as [|n IH]; [reflexivity|].
  rewrite seq_S, map_app, concat_app, length_app, IH. simpl.
  rewrite length_app, spec_d_length. simpl. lia.
Qed.

(** The loop fills [result] with the digests, sixteen bytes per round. *)
Lemma EVP_rounds_digests (pw : bytes) (n i : nat) (last result : bytes) :
  length result = ((i + n) * 16)%nat ->
  (forall j, i = S j -> last = spec_d crypto pw j) ->
  take (i * 16) result = concat (map (spec_d crypto pw) (seq 0 i)) ->
  EVP_rounds crypto pw n i last result
  = concat (map (spec_d crypto pw) (seq 0 (i + n))).
Proof.
  revert i last result.
  induction n as [|n IH]; intros i last result Hlen Hlast Hpre.
  - simpl. rewrite Nat.add_0_r in *. rewrite <- Hpre.
    rewrite take_ge by lia. reflexivity.
  - simpl.
    assert (Hd : hash_digest crypto "md5"
                   ((if (0 <? i)%nat then last else []) ++ pw)
                 = spec_d crypto pw i).
    { destruct i as [|j]; simpl; [reflexivity|].
      rewrite (Hlast j eq_refl). reflexivity. }
    rewrite Hd.
    replace (i + S n)%nat with (S i + n)%nat by lia.
    assert (Hroom : take (length result - i * 16) (spec_d crypto pw i)
                    = spec_d crypto pw i).
    { apply take_ge. rewrite spec_d_length. lia. }
    apply IH.
    + unfold Buffer.copy. rewrite Hroom.
      rewrite !length_app, length_take, length_drop, spec_d_length. lia.
    + intros j Hj. injection Hj as <-. reflexivity.
    + unfold Buffer.copy. rewrite Hroom, Hpre.
      rewrite seq_S, map_app, concat_app. simpl. rewrite app_nil_r.
      rewrite app_assoc. apply take_app_length'.
      rewrite length_app, spec_digests_length, spec_d_length. lia.
Qed.

Lemma ceil_div_16 (k : Z) :
  0 <= k -> 0 <= JS.ceil_div k 16 /\ k <= 16 * JS.ceil_div k 16.
Proof.
  intros Hk. unfold JS.ceil_div.
  pose proof (Z.div_mod (k + 16 - 1) 16 ltac:(lia)).
  pose proof (Z.mod_pos_bound (k + 16 - 1) 16 ltac:(lia)). lia.
Qed.

Lemma EVP_BytesToKey_digests (password : string) (keyLen : Z) :
  0 <= keyLen ->
  EVP_BytesToKey crypto password keyLen
  = spec_EVP_BytesToKey crypto (Buffer.from password)
      (Z.to_nat (JS.ceil_div keyLen 16)) keyLen.
Proof.
  intros Hk. unfold EVP_BytesToKey, spec_EVP_BytesToKey.
  destruct (ceil_div_16 keyLen Hk) as [Hr0 Hr].
  rewrite slice_prefix by lia. f_equal.
  rewrite (EVP_rounds_digests _ _ 0); [reflexivity| | |reflexivity].
  - unfold Buffer.alloc. rewrite length_replicate. lia.
  - intros j Hj. discriminate.
Qed.

(** More rounds than needed do not change the truncated concatenation. *)
Lemma spec_EVP_more_rounds (pw : bytes) (r r' : nat) (key_size : Z) :
  key_size <= 16 * Z.of_nat r -> (r <= r')%nat ->
  spec_EVP_BytesToKey crypto pw r' key_size
  = spec_EVP_BytesToKey crypto pw r key_size.
Proof.
  intros Hk Hr. unfold spec_EVP_BytesToKey.
  replace r' with (r + (r' - r))%nat by lia.
  rewrite seq_app, map_app, concat_app.
  apply take_app_le. rewrite spec_digests_length. lia.
Qed.

End KeySchedule.

(** ** The nonce counter *)

Lemma ToInt32_small (z : Z) : - 2 ^ 31 <= z < 2 ^ 31 -> JS.ToInt32 z = z.
Proof. intros Hz. unfold JS.ToInt32. rewrite Z.mod_small; lia. Qed.

Lemma band_255 (z : Z) : 0 <= z < 2 ^ 31 -> JS.band z 255 = z mod 256.
Proof.
  intros Hz. unfold JS.band. rewrite !ToInt32_small by lia.
  change 255 with (Z.ones 8). rewrite Z.land_ones by lia. reflexivity.
Qed.

Lemma sar_8 (z : Z) : 0 <= z < 2 ^ 31 -> JS.sar z 8 = z / 256.
Proof.
  intros Hz. unfold JS.sar. rewrite ToInt32_small by lia.
  change (8 mod 32) with 8. rewrite Z.shiftr_div_pow2 by lia. reflexivity.
Qed.

Lemma byte_of_Z_mod (z : Z) : Buffer.byte_of_Z (z mod 256) = Buffer.byte_of_Z z.
Proof. unfold Buffer.byte_of_Z. rewrite Z.mod_mod by lia. reflexivity. Qed.

Lemma div_256_range (z : Z) : 0 <= z < 2 ^ 31 -> 0 <= z / 256 < 2 ^ 31.
Proof.
  intros Hz. split; [apply Z.div_pos; lia|].
  apply Z.div_lt_upper_bound; lia.
Qed.

(** The loop writes every one of the twelve bytes: what the buffer held
    before does not matter. *)
Lemma nonce_for_overwrites (c : Z) (nonce : bytes) :
  length nonce = 12%nat -> Aead.nonce_for 12 0 c nonce = nonce_of c.
Proof.
  intros Hlen.
  do 13 (destruct nonce as [|? nonce]; try discriminate Hlen).
  reflexivity.
Qed.

Lemma nonce_of_length (c : Z) : length (nonce_of c) = 12%nat.
Proof. reflexivity. Qed.

Lemma nonce_of_0 : nonce_of 0 = replicate 12 x00.
Proof. reflexivity. Qed.

(** Below 2^31 the nonce is the little-endian encoding of the counter. *)
Lemma nonce_of_le_bytes (c : Z) :
  0 <= c < 2 ^ 31 -> nonce_of c = le_bytes 12 c.
Proof.
  intros Hc. unfold nonce_of. cbn [Aead.nonce_for Nat.ltb Nat.leb].
  pose proof (div_256_range c Hc) as H1.
  pose proof (div_256_range _ H1) as H2.
  pose proof (div_256_range _ H2) as H3.
  pose proof (div_256_range _ H3) as H4.
  pose proof (div_256_range _ H4) as H5.
  pose proof (div_256_range _ H5) as H6.
  pose proof (div_256_range _ H6) as H7.
  rewrite (sar_8 c) by assumption.
  rewrite (sar_8 (c / 256)) by assumption.
  rewrite (sar_8 (c / 256 / 256)) by assumption.
  rewrite (sar_8 (c / 256 / 256 / 256)) by assumption.
  rewrite (sar_8 (c / 256 / 256 / 256 / 256)) by assumption.
  rewrite (sar_8 (c / 256 / 256 / 256 / 256 / 256)) by assumption.
  rewrite (sar_8 (c / 256 / 256 / 256 / 256 / 256 / 256)) by assumption.
  rewrite !band_255 by assumption.
  unfold Buffer.set. cbn [list_insert replicate le_bytes].
  rewrite !byte_of_Z_mod.
  assert (Hz : c / 256 / 256 / 256 / 256 = 0).
  { rewrite !Z.div_div by lia. apply Z.div_small. lia. }
  rewrite Hz. reflexivity.
Qed.

(** Unfolds a round in [H] and splits on every test it makes. *)
Ltac split_round H :=
  repeat match type of H with
         | context [if ?c then _ else _] => destruct c eqn:?
         | context [match ?o with Some _ => _ | None => _ end] =>
             destruct o eqn:?
         end;
  inversion H; subst; clear H.

Section DecryptorLoop.
Import Methods Aead AEADDecryptor.
Context (crypto : NodeCrypto).

Lemma table_sizes (m : string) (info : MethodInfo) :
  AEAD_METHODS m = Some info ->
  tagSize info = 16 /\ nonceSize info = 12
  /\ (saltSize info = 16 \/ saltSize info = 32).
Proof.
  unfold AEAD_METHODS. intros H.
  repeat match type of H with
         | context [if ?c then _ else _] => destruct c
         end; inversion H; subst; simpl; auto.
Qed.

Lemma new_well_formed (m pw : string) (d : t) :
  new m pw = Some d -> well_formed d.
Proof.
  unfold new. destruct (AEAD_METHODS m) as [info|] eqn:E; [|discriminate].
  intros [= <-]. destruct (table_sizes _ _ E) as (Ht & _ & Hs).
  unfold well_formed; simpl. lia.
Qed.

Lemma slice_app_l (b x : bytes) (i j : Z) :
  0 <= i <= j -> j <= Buffer.len b ->
  Buffer.slice (b ++ x) i j = Buffer.slice b i j.
Proof.
  intros Hij Hj. unfold Buffer.len in Hj.
  rewrite !slice_take_drop by lia.
  rewrite drop_app_le by lia.
  apply take_app_le. rewrite length_drop. lia.
Qed.

Lemma slice_from_app (b x : bytes) (i : Z) :
  0 <= i <= Buffer.len b ->
  Buffer.slice_from (b ++ x) i = Buffer.slice_from b i ++ x.
Proof.
  intros Hi. unfold Buffer.len in Hi.
  rewrite !slice_from_drop by lia. apply drop_app_le. lia.
Qed.

Lemma readUInt16BE_nonneg (b : bytes) (o : nat) (l : Z) :
  Buffer.readUInt16BE b o = Some l -> 0 <= l <= 65535.
Proof.
  unfold Buffer.readUInt16BE.
  destruct (b !! o) as [hi|]; [|discriminate].
  destruct (b !! S o) as [lo|]; [|discriminate].
  intros [= <-].
  pose proof (Z_of_byte_range hi). pose proof (Z_of_byte_range lo). lia.
Qed.

(** A round that breaks or throws leaves [this] as it was. *)
Lemma round_stops_unchanged (this this' : t) :
  (round crypto this = (this', Break) -> this' = this)
  /\ (forall e, round crypto this = (this', Throw e) -> this' = this).
Proof.
  unfold round, length_round, payload_round.
  split; [intros H | intros e H]; split_round H; reflexivity.
Qed.

Lemma round_next_well_formed (this this' : t) (out : list bytes) :
  well_formed this -> round crypto this = (this', Next out) ->
  well_formed this'.
Proof.
  unfold round, length_round, payload_round, well_formed.
  intros (Ht & Hs & Hp) H; split_round H; simpl; repeat split; try assumption.
  eapply readUInt16BE_nonneg; eassumption.
Qed.

Lemma round_next_measure (this this' : t) (out : list bytes) :
  well_formed this -> round crypto this = (this', Next out) ->
  (measure this' < measure this)%nat.
Proof.
  unfold round, length_round, payload_round, well_formed, measure.
  intros (Ht & Hs & Hp) H; split_round H; simpl.
  - rewrite Ht in *.
    match goal with
    | H : (_ <? _) = false |- _ =>
        apply Z.ltb_ge in H; unfold Buffer.len in H
    end.
    rewrite slice_from_drop, length_drop by lia. lia.
  - pose proof (slice_from_length (buffer this)
                  (payloadLength this + tagSize (methodInfo this))).
    lia.
Qed.

Lemma more_well_formed (this : t) (x : bytes) :
  well_formed this -> well_formed (more this x).
Proof. intros H. exact H. Qed.

(** With more bytes behind the ones it reads, a round does the same. *)
Lemma round_next_more (this this' : t) (out : list bytes) (x : bytes) :
  well_formed this -> round crypto this = (this', Next out) ->
  round crypto (more this x) = (more this' x, Next out).
Proof.
  intros (Ht & Hs & Hp) H. unfold round in *.
  change (expectingLength (more this x)) with (expectingLength this).
  pose proof (len_nonneg x) as Hx.
  destruct (expectingLength this) eqn:He.
  - unfold length_round in *. unfold more at 1 2 3 4 5 6 7 8. simpl.
    rewrite Ht in *. rewrite len_app.
    destruct (Z.ltb_spec (Buffer.len (buffer this)) (2 + 16));
      [discriminate|].
    destruct (Z.ltb_spec (Buffer.len (buffer this) + Buffer.len x) (2 + 16));
      [lia|].
    rewrite !slice_app_l by lia.
    destruct (key this) as [k|]; [|discriminate].
    destruct (decipher_final crypto _ _ _ _ _); [|discriminate].
    destruct (Buffer.readUInt16BE _ 0) as [l|]; [|discriminate].
    injection H as <- <-. simpl. rewrite slice_from_app by lia. reflexivity.
  - unfold payload_round in *. unfold more at 1 2 3 4 5 6 7 8 9 10. simpl.
    rewrite Ht in *. rewrite len_app.
    destruct (Z.ltb_spec (Buffer.len (buffer this)) (payloadLength this + 16));
      [discriminate|].
    destruct (Z.ltb_spec (Buffer.len (buffer this) + Buffer.len x)
                (payloadLength this + 16)); [lia|].
    rewrite !slice_app_l by lia.
    destruct (key this) as [k|]; [|discriminate].
    destruct (decipher_final crypto _ _ _ _ _); [|discriminate].
    injection H as <- <-. simpl. rewrite slice_from_app by lia. reflexivity.
Qed.

Lemma round_throw_more (this this' : t) (e : Error) (x : bytes) :
  well_formed this -> round crypto this = (this', Throw e) ->
  round crypto (more this x) = (more this x, Throw e).
Proof.
  intros (Ht & Hs & Hp) H. unfold round in *.
  change (expectingLength (more this x)) with (expectingLength this).
  pose proof (len_nonneg x) as Hx.
  destruct (expectingLength this) eqn:He.
  - unfold length_round in *. unfold more at 1 2 3 4 5 6 7 8. simpl.
    rewrite Ht in *. rewrite len_app.
    destruct (Z.ltb_spec (Buffer.len (buffer this)) (2 + 16));
      [discriminate|].
    destruct (Z.ltb_spec (Buffer.len (buffer this) + Buffer.len x) (2 + 16));
      [lia|].
    rewrite !slice_app_l by lia.
    destruct (key this) as [k|]; [|injection H as <- <-; reflexivity].
    destruct (decipher_final crypto _ _ _ _ _);
      [|injection H as <- <-; reflexivity].
    destruct (Buffer.readUInt16BE _ 0) as [l|]; [discriminate|].
    injection H as <- <-. reflexivity.
  - unfold payload_round in *. unfold more at 1 2 3 4 5 6 7 8 9 10. simpl.
    rewrite Ht in *. rewrite len_app.
    destruct (Z.ltb_spec (Buffer.len (buffer this)) (payloadLength this + 16));
      [discriminate|].
    destruct (Z.ltb_spec (Buffer.len (buffer this) + Buffer.len x)
                (payloadLength this + 16)); [lia|].
    rewrite !slice_app_l by lia.
    destruct (key this) as [k|]; [|injection H as <- <-; reflexivity].
    destruct (decipher_final crypto _ _ _ _ _); [discriminate|].
    injection H as <- <-. reflexivity.
Qed.

(** *** The loop ends *)

Lemma while_enough (fuel : nat) (this : t) :
  well_formed this -> (measure this < fuel)%nat ->
  is_Some (while crypto fuel this).
Proof.
  revert this. induction fuel as [|fuel IH]; intros this Hwf Hm; [lia|].
  simpl. destruct (0 <? Buffer.len (buffer this)); [|eauto].
  destruct (round crypto this) as [this' [ |out|e]] eqn:Hr; eauto.
  destruct (IH this') as [[[t o] e] Ht].
  - eapply round_next_well_formed; eauto.
  - pose proof (round_next_measure _ _ _ Hwf Hr). lia.
  - rewrite Ht. eauto.
Qed.

Lemma while_more_fuel (fuel fuel' : nat) (this : t)
    (r : t * list bytes * option Error) :
  while crypto fuel this = Some r -> (fuel <= fuel')%nat ->
  while crypto fuel' this = Some r.
Proof.
  revert fuel' this r.
  induction fuel as [|fuel IH]; intros fuel' this r H Hle; [discriminate|].
  destruct fuel' as [|fuel']; [lia|]. simpl in *.
  destruct (0 <? Buffer.len (buffer this)); [|assumption].
  destruct (round crypto this) as [this' [ |out|e]]; try assumption.
  destruct (while crypto fuel this') as [r'|] eqn:E; [|discriminate].
  rewrite (IH fuel' _ _ E) by lia. assumption.
Qed.

Lemma run_while_fuel (fuel : nat) (this : t)
    (r : t * list bytes * option Error) :
  well_formed this -> while crypto fuel this = Some r ->
  run_while crypto this = r.
Proof.
  intros Hwf H. unfold run_while.
  destruct (while_enough (rounds this) this Hwf) as [r' Hr'].
  { unfold rounds, measure. destruct (expectingLength this); lia. }
  rewrite Hr'. simpl.
  pose proof (while_more_fuel _ (Nat.max fuel (rounds this)) _ _ H
                ltac:(lia)) as H1.
  pose proof (while_more_fuel _ (Nat.max fuel (rounds this)) _ _ Hr'
                ltac:(lia)) as H2.
  congruence.
Qed.

(** For a well-formed decryptor the rounds allowed are enough: the loop
    ends within them, with the result [run_while] returns. *)
Lemma loop_ends (this : t) :
  well_formed this ->
  while crypto (rounds this) this = Some (run_while crypto this).
Proof.
  intros Hwf.
  destruct (while_enough (rounds this) this Hwf) as [r Hr].
  { unfold rounds, measure. destruct (expectingLength this); lia. }
  rewrite Hr. f_equal. symmetry. eapply run_while_fuel; eassumption.
Qed.

(** The loop, one round at a time. *)
Lemma run_while_eq (this : t) :
  well_formed this ->
  run_while crypto this
  = if 0 <? Buffer.len (buffer this) then
      match round crypto this with
      | (this', Break) => (this', [], None)
      | (this', Throw e) => (this', [], Some e)
      | (this', Next out) =>
          let '(t, o, e) := run_while crypto this' in (t, out ++ o, e)
      end
    else (this, [], None).
Proof.
  intros Hwf.
  destruct (while_enough (S (measure this)) this Hwf ltac:(lia)) as [r Hr].
  rewrite (run_while_fuel _ _ _ Hwf Hr). simpl in Hr.
  destruct (0 <? Buffer.len (buffer this)); [|congruence].
  destruct (round crypto this) as [this' [ |out|e]] eqn:Hround;
    try congruence.
  destruct (while crypto (measure this) this') as [[[t o] e]|] eqn:Hw;
    [|discriminate].
  rewrite (run_while_fuel _ _ _ (round_next_well_formed _ _ _ Hwf Hround) Hw).
  congruence.
Qed.

(** *** More bytes behind the buffer

    Running the loop and then running it again once [x] has been appended
    is running it once with [x] appended from the start. *)
Lemma run_while_more (x : bytes) (n : nat) :
  forall (this this1 : t) (o1 : list bytes) (r : option Error),
    (measure this < n)%nat -> well_formed this ->
    run_while crypto this = (this1, o1, r) ->
    run_while crypto (more this x)
    = match r with
      | None =>
          let '(t, o, e) := run_while crypto (more this1 x) in (t, o1 ++ o, e)
      | Some e => (more this1 x, o1, Some e)
      end.
Proof.
  induction n as [|n IH]; intros this this1 o1 r Hm Hwf H; [lia|].
  rewrite run_while_eq in H by assumption.
  destruct (Z.ltb_spec 0 (Buffer.len (buffer this))) as [Hlen|Hlen].
  - destruct (round crypto this) as [this' [ |out|e]] eqn:Hround.
    + injection H as <- <- <-.
      apply (proj1 (round_stops_unchanged this this')) in Hround. subst this'.
      destruct (run_while crypto (more this x)) as [[t o] e]. reflexivity.
    + destruct (run_while crypto this') as [[t' o'] r'] eqn:Hrun.
      injection H as <- <- <-.
      rewrite (run_while_eq (more this x)) by assumption.
      rewrite (round_next_more _ _ _ x Hwf Hround).
      assert (Hlen' : (0 <? Buffer.len (buffer (more this x))) = true).
      { apply Z.ltb_lt. unfold more. simpl. rewrite len_app.
        pose proof (len_nonneg x). lia. }
      rewrite Hlen'.
      rewrite (IH this' t' o' r'); [| |eapply round_next_well_formed; eauto
                                    |assumption].
      * destruct r' as [e'|]; [reflexivity|].
        destruct (run_while crypto (more t' x)) as [[t o] e].
        rewrite app_assoc. reflexivity.
      * pose proof (round_next_measure _ _ _ Hwf Hround). lia.
    + injection H as <- <- <-.
      pose proof (proj2 (round_stops_unchanged this this') e Hround). subst.
      rewrite (run_while_eq (more this x)) by assumption.
      rewrite (round_throw_more _ _ _ x Hwf Hround).
      assert (Hlen' : (0 <? Buffer.len (buffer (more this x))) = true).
      { apply Z.ltb_lt. unfold more. simpl. rewrite len_app.
        pose proof (len_nonneg x). lia. }
      rewrite Hlen'. reflexivity.
  - injection H as <- <- <-.
    destruct (run_while crypto (more this x)) as [[t o] e]. reflexivity.
Qed.

(** *** What the loop keeps *)

Lemma round_same_session (this this' : t) (st : Step) :
  round crypto this = (this', st) -> same_session this this'.
Proof.
  unfold round, length_round, payload_round, same_session.
  intros H; split_round H; simpl; auto.
Qed.

Lemma run_while_keeps (n : nat) :
  forall (this this1 : t) (o1 : list bytes) (r : option Error),
    (measure this < n)%nat -> well_formed this ->
    run_while crypto this = (this1, o1, r) ->
    well_formed this1 /\ same_session this this1.
Proof.
  induction n as [|n IH]; intros this this1 o1 r Hm Hwf H; [lia|].
  rewrite run_while_eq in H by assumption.
  assert (Hrefl : same_session this this) by (unfold same_session; auto).
  destruct (0 <? Buffer.len (buffer this)); [|injection H as <- <- <-; auto].
  destruct (round crypto this) as [this' [ |out|e]] eqn:Hround.
  - injection H as <- <- <-.
    apply (proj1 (round_stops_unchanged this this')) in Hround. subst. auto.
  - destruct (run_while crypto this') as [[t' o'] r'] eqn:Hrun.
    injection H as <- <- <-.
    pose proof (round_next_measure _ _ _ Hwf Hround).
    pose proof (round_next_well_formed _ _ _ Hwf Hround) as Hwf'.
    destruct (IH this' t' o' r' ltac:(lia) Hwf' Hrun) as [Hw Hs].
    split; [assumption|].
    pose proof (round_same_session _ _ _ Hround) as Hs'.
    unfold same_session in *. intuition congruence.
  - injection H as <- <- <-.
    pose proof (proj2 (round_stops_unchanged this this') e Hround). subst.
    auto.
Qed.

(** *** [_transform], and chunks written one after the other *)

Lemma transform_eq (this : t) (chunk : bytes) :
  _transform crypto this chunk
  = let this := more this chunk in
    if isFirstChunk this then
      if Buffer.len (buffer this) <? saltSize (methodInfo this)
      then (this, [], None)
      else run_while crypto (after_salt crypto this)
    else run_while crypto this.
Proof. reflexivity. Qed.

Lemma more_more (this : t) (a b : bytes) :
  more (more this a) b = more this (a ++ b).
Proof. unfold more. simpl. rewrite app_assoc. reflexivity. Qed.

Lemma after_salt_more (this : t) (x : bytes) :
  0 <= saltSize (methodInfo this) <= Buffer.len (buffer this) ->
  after_salt crypto (more this x) = more (after_salt crypto this) x.
Proof.
  intros Hs. unfold after_salt, more. simpl.
  rewrite slice_app_l, slice_from_app by lia. reflexivity.
Qed.

Lemma after_salt_well_formed (this : t) :
  well_formed this -> well_formed (after_salt crypto this).
Proof. intros H. exact H. Qed.

Lemma transform_keeps (this this1 : t) (chunk : bytes) (o1 : list bytes)
    (r : option Error) :
  well_formed this -> _transform crypto this chunk = (this1, o1, r) ->
  well_formed this1 /\ (isFirstChunk this = false -> same_session this this1).
Proof.
  intros Hwf H. rewrite transform_eq in H. cbv zeta in H.
  change (isFirstChunk (more this chunk)) with (isFirstChunk this) in H.
  destruct (isFirstChunk this) eqn:Hfirst.
  - destruct (Buffer.len (buffer (more this chunk))
                <? saltSize (methodInfo (more this chunk))).
    + injection H as <- <- <-. split; [exact Hwf|discriminate].
    + eapply run_while_keeps in H;
        [|apply Nat.lt_succ_diag_r|apply after_salt_well_formed; exact Hwf].
      split; [tauto|discriminate].
  - eapply run_while_keeps in H; [|apply Nat.lt_succ_diag_r|exact Hwf].
    destruct H as [Hw Hs]. split; [assumption|]. intros _.
    unfold same_session in *. simpl in Hs. exact Hs.
Qed.

(** Writing [c1] and then [c2] is writing [c1 ++ c2]. *)
Lemma transform_more (this this1 : t) (c1 c2 : bytes) (o1 : list bytes)
    (r : option Error) :
  well_formed this -> _transform crypto this c1 = (this1, o1, r) ->
  _transform crypto this (c1 ++ c2)
  = match r with
    | None =>
        let '(t, o, e) := _transform crypto this1 c2 in (t, o1 ++ o, e)
    | Some e => (more this1 c2, o1, Some e)
    end.
Proof.
  intros Hwf H. rewrite transform_eq in *. cbv zeta in *.
  rewrite <- more_more.
  set (s := more this c1) in *.
  assert (Hs : well_formed s) by exact Hwf.
  change (isFirstChunk (more s c2)) with (isFirstChunk s).
  change (methodInfo (more s c2)) with (methodInfo s).
  pose proof (len_nonneg c2) as Hc2.
  destruct (isFirstChunk s) eqn:Hfirst.
  - destruct (Z.ltb_spec (Buffer.len (buffer s)) (saltSize (methodInfo s)))
      as [Hlt|Hge].
    + injection H as <- <- <-. rewrite transform_eq. cbv zeta.
      change (isFirstChunk (more s c2)) with (isFirstChunk s).
      change (methodInfo (more s c2)) with (methodInfo s).
      rewrite Hfirst.
      destruct (Buffer.len (buffer (more s c2))
                  <? saltSize (methodInfo s)); [reflexivity|].
      destruct (run_while crypto (after_salt crypto (more s c2)))
        as [[t o] e]. reflexivity.
    + assert (Hlen : (Buffer.len (buffer (more s c2))
                        <? saltSize (methodInfo s)) = false).
      { apply Z.ltb_ge. change (buffer (more s c2)) with (buffer s ++ c2).
        rewrite len_app. lia. }
      rewrite Hlen.
      destruct Hs as (Ht & Hsalt & Hp).
      rewrite after_salt_more by lia.
      pose proof (run_while_keeps _ _ _ _ _ (Nat.lt_succ_diag_r _)
                    (after_salt_well_formed s (conj Ht (conj Hsalt Hp))) H)
        as [Hw1 Hs1].
      rewrite (run_while_more c2 _ _ _ _ _ (Nat.lt_succ_diag_r _)
                 (after_salt_well_formed s (conj Ht (conj Hsalt Hp))) H).
      destruct r as [e|]; [reflexivity|].
      rewrite transform_eq. cbv zeta.
      change (isFirstChunk (more this1 c2)) with (isFirstChunk this1).
      destruct Hs1 as (_ & _ & _ & Hf). simpl in Hf. rewrite <- Hf.
      reflexivity.
  - pose proof (run_while_keeps _ _ _ _ _ (Nat.lt_succ_diag_r _) Hs H)
      as [Hw1 Hs1].
    rewrite (run_while_more c2 _ _ _ _ _ (Nat.lt_succ_diag_r _) Hs H).
    destruct r as [e|]; [reflexivity|].
    rewrite transform_eq. cbv zeta.
    change (isFirstChunk (more this1 c2)) with (isFirstChunk this1).
    destruct Hs1 as (_ & _ & _ & Hf). rewrite <- Hf, Hfirst. reflexivity.
Qed.

Lemma observe_write_one (this : t) (chunk : bytes) :
  observe (write_all crypto this [chunk])
  = observe (_transform crypto this chunk).
Proof.
  simpl. destruct (_transform crypto this chunk) as [[t o] [e|]];
    [reflexivity|].
  unfold observe. simpl. rewrite app_nil_r. reflexivity.
Qed.

(** A non-empty sequence of chunks is seen as their concatenation. *)
Lemma write_all_concat (chunks : list bytes) :
  forall (this : t) (chunk : bytes),
    well_formed this ->
    observe (write_all crypto this (chunk :: chunks))
    = observe (_transform crypto this (concat (chunk :: chunks))).
Proof.
  induction chunks as [|c' chunks IH]; intros this chunk Hwf.
  - rewrite observe_write_one. simpl. rewrite app_nil_r. reflexivity.
  - change (concat (chunk :: c' :: chunks))
      with (chunk ++ concat (c' :: chunks)).
    destruct (_transform crypto this chunk) as [[t1 o1] r1] eqn:H1.
    rewrite (transform_more _ _ _ _ _ _ Hwf H1).
    change (write_all crypto this (chunk :: c' :: chunks))
      with (match _transform crypto this chunk with
            | (this, out, Some e) => (this, out, Some e)
            | (this, out, None) =>
                let '(this, out', e) :=
                  write_all crypto this (c' :: chunks) in
                (this, out ++ out', e)
            end).
    rewrite H1. destruct r1 as [e|]; [reflexivity|].
    pose proof (transform_keeps _ _ _ _ _ Hwf H1) as [Hwf1 _].
    specialize (IH t1 c' Hwf1).
    destruct (write_all crypto t1 (c' :: chunks)) as [[ta oa] ea].
    destruct (_transform crypto t1 (concat (c' :: chunks))) as [[tb ob] eb].
    unfold observe in *. simpl in *. congruence.
Qed.

End DecryptorLoop.

(** ** Frames *)

Lemma slice_head (a rest : bytes) (j : Z) :
  Buffer.len a = j -> Buffer.slice (a ++ rest) 0 j = a.
Proof.
  intros <-. rewrite slice_prefix by apply len_nonneg.
  unfold Buffer.len. rewrite Nat2Z.id. apply take_app_length.
Qed.

Lemma slice_second (a b rest : bytes) (i j : Z) :
  Buffer.len a = i -> Buffer.len b = j - i ->
  Buffer.slice (a ++ b ++ rest) i j = b.
Proof.
  intros Ha Hb. pose proof (len_nonneg a). pose proof (len_nonneg b).
  rewrite slice_take_drop by lia. subst i. rewrite <- Hb.
  unfold Buffer.len. rewrite !Nat2Z.id.
  rewrite drop_app_length. apply take_app_length.
Qed.

Lemma slice_from_tail (a rest : bytes) (i : Z) :
  Buffer.len a = i -> Buffer.slice_from (a ++ rest) i = rest.
Proof.
  intros <-. rewrite slice_from_drop by apply len_nonneg.
  unfold Buffer.len. rewrite Nat2Z.id. apply drop_app_length.
Qed.

Section Rounds.
Import Methods Aead.
Context (crypto : NodeCrypto).

Lemma length_round_accepts (s : Dec.t) (k el tl rest : bytes) (l : Z) :
  well_formed s -> Dec.key s = Some k ->
  Dec.buffer s = el ++ tl ++ rest ->
  length el = 2%nat -> length tl = 16%nat ->
  decipher_final crypto (algorithm (Dec.method s)) k (Dec.nonce s) el tl
  = true ->
  Buffer.readUInt16BE
    (decipher_update crypto (algorithm (Dec.method s)) k (Dec.nonce s) el) 0
  = Some l ->
  Dec.length_round crypto s
  = (Dec.set_buffer
       (Dec.set_expectingLength
          (Dec.updateNonce (Dec.set_payloadLength s l)) false) rest,
     Dec.Next []).
Proof.
  intros (Ht & _ & _) Hk Hb Hel Htl Hfin Hread.
  unfold Dec.length_round. rewrite Ht, Hk, Hb.
  assert (Hlen : (Buffer.len (el ++ tl ++ rest) <? 2 + 16) = false).
  { apply Z.ltb_ge. rewrite !len_app. unfold Buffer.len.
    rewrite Hel, Htl. lia. }
  rewrite Hlen.
  rewrite (slice_head el) by (unfold Buffer.len; lia).
  rewrite (slice_second el tl) by (unfold Buffer.len; lia).
  rewrite Hfin, Hread. cbn [Dec.buffer Dec.set_buffer Dec.set_expectingLength
    Dec.updateNonce Dec.set_nonce Dec.set_payloadLength].
  rewrite Hb. rewrite (app_assoc el tl rest).
  rewrite (slice_from_tail (el ++ tl))
    by (rewrite len_app; unfold Buffer.len; lia).
  reflexivity.
Qed.

Lemma length_round_rejects (s : Dec.t) (k el tl rest : bytes) :
  well_formed s -> Dec.key s = Some k ->
  Dec.buffer s = el ++ tl ++ rest ->
  length el = 2%nat -> length tl = 16%nat ->
  decipher_final crypto (algorithm (Dec.method s)) k (Dec.nonce s) el tl
  = false ->
  Dec.length_round crypto s = (s, Dec.Throw AuthLength).
Proof.
  intros (Ht & _ & _) Hk Hb Hel Htl Hfin.
  unfold Dec.length_round. rewrite Ht, Hk, Hb.
  assert (Hlen : (Buffer.len (el ++ tl ++ rest) <? 2 + 16) = false).
  { apply Z.ltb_ge. rewrite !len_app. unfold Buffer.len.
    rewrite Hel, Htl. lia. }
  rewrite Hlen.
  rewrite (slice_head el) by (unfold Buffer.len; lia).
  rewrite (slice_second el tl) by (unfold Buffer.len; lia).
  rewrite Hfin. reflexivity.
Qed.

Lemma payload_round_accepts (s : Dec.t) (k ep tp rest : bytes) :
  well_formed s -> Dec.key s = Some k ->
  Dec.buffer s = ep ++ tp ++ rest ->
  Buffer.len ep = Dec.payloadLength s -> length tp = 16%nat ->
  decipher_final crypto (algorithm (Dec.method s)) k (Dec.nonce s) ep tp
  = true ->
  Dec.payload_round crypto s
  = (Dec.set_buffer (Dec.set_expectingLength (Dec.updateNonce s) true) rest,
     Dec.Next [decipher_update crypto (algorithm (Dec.method s)) k
                               (Dec.nonce s) ep]).
Proof.
  intros (Ht & _ & _) Hk Hb Hep Htp Hfin.
  unfold Dec.payload_round. rewrite Ht, Hk, Hb, <- Hep.
  assert (Hlen : (Buffer.len (ep ++ tp ++ rest) <? Buffer.len ep + 16)
                 = false).
  { apply Z.ltb_ge. rewrite !len_app. unfold Buffer.len. rewrite Htp. lia. }
  rewrite Hlen.
  rewrite (slice_head ep) by reflexivity.
  rewrite (slice_second ep tp) by (unfold Buffer.len; lia).
  rewrite Hfin. cbn [Dec.buffer Dec.set_buffer Dec.set_expectingLength
    Dec.updateNonce Dec.set_nonce].
  rewrite Hb. rewrite (app_assoc ep tp rest).
  rewrite (slice_from_tail (ep ++ tp))
    by (rewrite len_app; unfold Buffer.len; lia).
  reflexivity.
Qed.

Lemma payload_round_rejects (s : Dec.t) (k ep tp rest : bytes) :
  well_formed s -> Dec.key s = Some k ->
  Dec.buffer s = ep ++ tp ++ rest ->
  Buffer.len ep = Dec.payloadLength s -> length tp = 16%nat ->
  decipher_final crypto (algorithm (Dec.method s)) k (Dec.nonce s) ep tp
  = false ->
  Dec.payload_round crypto s = (s, Dec.Throw AuthPayload).
Proof.
  intros (Ht & _ & _) Hk Hb Hep Htp Hfin.
  unfold Dec.payload_round. rewrite Ht, Hk, Hb, <- Hep.
  assert (Hlen : (Buffer.len (ep ++ tp ++ rest) <? Buffer.len ep + 16)
                 = false).
  { apply Z.ltb_ge. rewrite !len_app. unfold Buffer.len. rewrite Htp. lia. }
  rewrite Hlen.
  rewrite (slice_head ep) by reflexivity.
  rewrite (slice_second ep tp) by (unfold Buffer.len; lia).
  rewrite Hfin. reflexivity.
Qed.

(** A decryptor at a frame boundary, written a length field that verifies
    and decrypts to [l], whatever [l] is, and [l] bytes of payload that
    verify: it pushes the deciphered payload and is at a frame boundary
    again, two nonces later. *)
Lemma dec_transform_opens (d : Dec.t) (k el tl ep tp : bytes) (l : Z) :
  well_formed d -> at_frame_boundary d k ->
  length el = 2%nat -> length tl = 16%nat ->
  decipher_final crypto (algorithm (Dec.method d)) k (Dec.nonce d) el tl
  = true ->
  Buffer.readUInt16BE
    (decipher_update crypto (algorithm (Dec.method d)) k (Dec.nonce d) el) 0
  = Some l ->
  Buffer.len ep = l -> length tp = 16%nat ->
  decipher_final crypto (algorithm (Dec.method d)) k
                 (Dec.nonce (Dec.updateNonce d)) ep tp = true ->
  exists d',
    Dec._transform crypto d (el ++ tl ++ ep ++ tp)
    = (d', [decipher_update crypto (algorithm (Dec.method d)) k
                            (Dec.nonce (Dec.updateNonce d)) ep], None)
    /\ at_frame_boundary d' k /\ well_formed d'
    /\ Dec.method d' = Dec.method d
    /\ Dec.nonce d' = Dec.nonce (Dec.updateNonce (Dec.updateNonce d))
    /\ Dec.chunkId d' = Dec.chunkId (Dec.updateNonce (Dec.updateNonce d)).
Proof.
  intros Hwf (Hfirst & Hexp & Hbuf & Hk) Hel Htl Hfin Hread Hep Htp Hfin'.
  pose proof (len_nonneg ep) as Hpos.
  rewrite transform_eq. cbv zeta.
  set (s0 := more d (el ++ tl ++ ep ++ tp)).
  change (Dec.isFirstChunk s0) with (Dec.isFirstChunk d). rewrite Hfirst.
  assert (Hb0 : Dec.buffer s0 = el ++ tl ++ ep ++ tp ++ []).
  { unfold s0, more. simpl. rewrite Hbuf, app_nil_r. reflexivity. }
  assert (Hwf0 : well_formed s0) by exact Hwf.
  (* the length round *)
  rewrite (run_while_eq crypto s0 Hwf0).
  assert (H0 : (0 <? Buffer.len (Dec.buffer s0)) = true).
  { apply Z.ltb_lt. rewrite Hb0, !len_app. unfold Buffer.len.
    rewrite Hel. lia. }
  rewrite H0. unfold Dec.round.
  change (Dec.expectingLength s0) with (Dec.expectingLength d). rewrite Hexp.
  rewrite (length_round_accepts s0 k el tl (ep ++ tp ++ []) l
             Hwf0 Hk Hb0 Hel Htl Hfin Hread).
  set (s1 := Dec.set_buffer _ (ep ++ tp ++ [])).
  assert (Hwf1 : well_formed s1).
  { destruct Hwf as (Ht & Hs & Hp). repeat split; simpl; try assumption.
    lia. }
  (* the payload round *)
  rewrite (run_while_eq crypto s1 Hwf1).
  assert (H1 : (0 <? Buffer.len (Dec.buffer s1)) = true).
  { apply Z.ltb_lt. unfold s1. simpl. rewrite !len_app. unfold Buffer.len.
    rewrite Htp. lia. }
  rewrite H1. unfold Dec.round.
  change (Dec.expectingLength s1) with false. cbv iota.
  rewrite (payload_round_accepts s1 k ep tp [] Hwf1 Hk eq_refl Hep Htp Hfin').
  set (s2 := Dec.set_buffer _ []).
  assert (Hwf2 : well_formed s2).
  { destruct Hwf1 as (Ht & Hs & Hp). repeat split; simpl; assumption. }
  rewrite (run_while_eq crypto s2 Hwf2).
  change (Dec.buffer s2) with (@nil byte). cbn [Buffer.len length].
  change (0 <? Z.of_nat 0) with false. cbv iota.
  exists s2. split; [reflexivity|].
  split; [|split; [exact Hwf2|repeat split; reflexivity]].
  unfold at_frame_boundary.
  change (Dec.isFirstChunk s2) with (Dec.isFirstChunk d).
  change (Dec.key s2) with (Dec.key d). auto.
Qed.

(** The same decryptor, written bytes the decipher refuses: it pushes
    nothing and hands an authentication error to its callback. *)
Lemma dec_transform_rejects (d : Dec.t) (k stream : bytes) :
  well_formed d -> at_frame_boundary d k ->
  open_fails crypto d k stream ->
  exists d' e,
    Dec._transform crypto d stream = (d', [], Some e)
    /\ (e = AuthLength \/ e = AuthPayload).
Proof.
  intros Hwf (Hfirst & Hexp & Hbuf & Hk) Hfails.
  rewrite transform_eq. cbv zeta.
  set (s0 := more d stream).
  change (Dec.isFirstChunk s0) with (Dec.isFirstChunk d). rewrite Hfirst.
  assert (Hb0 : Dec.buffer s0 = stream).
  { unfold s0, more. simpl. rewrite Hbuf. reflexivity. }
  assert (Hwf0 : well_formed s0) by exact Hwf.
  rewrite (run_while_eq crypto s0 Hwf0). unfold Dec.round.
  change (Dec.expectingLength s0) with (Dec.expectingLength d). rewrite Hexp.
  destruct Hfails as [el tl rest Hel Htl Hfin
                     |el tl ep tp rest l Hel Htl Hfin Hread Hep Htp Hfin'].
  - assert (H0 : (0 <? Buffer.len (Dec.buffer s0)) = true).
    { apply Z.ltb_lt. rewrite Hb0, !len_app. unfold Buffer.len.
      rewrite Hel. lia. }
    rewrite H0.
    rewrite (length_round_rejects s0 k el tl rest Hwf0 Hk Hb0 Hel Htl Hfin).
    eauto.
  - pose proof (len_nonneg ep) as Hpos.
    assert (H0 : (0 <? Buffer.len (Dec.buffer s0)) = true).
    { apply Z.ltb_lt. rewrite Hb0, !len_app. unfold Buffer.len.
      rewrite Hel. lia. }
    rewrite H0.
    rewrite (length_round_accepts s0 k el tl (ep ++ tp ++ rest) l
               Hwf0 Hk Hb0 Hel Htl Hfin Hread).
    set (s1 := Dec.set_buffer _ (ep ++ tp ++ rest)).
    assert (Hwf1 : well_formed s1).
    { destruct Hwf as (Ht & Hs & Hp). repeat split; simpl; try assumption.
      lia. }
    rewrite (run_while_eq crypto s1 Hwf1).
    assert (H1 : (0 <? Buffer.len (Dec.buffer s1)) = true).
    { apply Z.ltb_lt. unfold s1. simpl. rewrite !len_app. unfold Buffer.len.
      rewrite Htp. lia. }
    rewrite H1. unfold Dec.round.
    change (Dec.expectingLength s1) with false. cbv iota.
    rewrite (payload_round_rejects s1 k ep tp rest Hwf1 Hk eq_refl Hep Htp
               Hfin').
    eauto.
Qed.

End Rounds.

(** ** One frame through the encryptor and through the decryptor *)

Section Sessions.
Import Methods Aead.
Context (crypto : NodeCrypto).

Lemma enc_transform_running (e : Enc.t) (k random chunk : bytes) :
  Enc.isFirstChunk e = false -> Enc.key e = Some k ->
  0 < Buffer.len chunk <= 65535 ->
  Enc._transform crypto e random chunk
  = (Enc.updateNonce (Enc.updateNonce e),
     [Enc.Seal (algorithm (Enc.method e)) k (Enc.nonce e)
               (be16 (Buffer.len chunk));
      Enc.Seal (algorithm (Enc.method e)) k
               (Enc.nonce (Enc.updateNonce e)) chunk;
      Enc.Push (frame_of crypto (algorithm (Enc.method e)) k (Enc.nonce e)
                  (Enc.nonce (Enc.updateNonce e))
                  (be16 (Buffer.len chunk)) chunk)],
     None).
Proof.
  intros Hfirst Hk Hlen. unfold Enc._transform. rewrite Hfirst.
  destruct (Z.eqb_spec (Buffer.len chunk) 0); [lia|].
  rewrite writeUInt16BE_alloc by lia. rewrite Hk. reflexivity.
Qed.

Lemma enc_transform_empty (e : Enc.t) (random chunk : bytes) :
  Enc.isFirstChunk e = false -> Buffer.len chunk = 0 ->
  Enc._transform crypto e random chunk = (e, [], None).
Proof.
  intros Hfirst Hlen. unfold Enc._transform. rewrite Hfirst, Hlen.
  reflexivity.
Qed.

Lemma enc_transform_too_long (e : Enc.t) (random chunk : bytes) :
  Enc.isFirstChunk e = false -> 65535 < Buffer.len chunk ->
  Enc._transform crypto e random chunk = (e, [], Some RangeError).
Proof.
  intros Hfirst Hlen. unfold Enc._transform. rewrite Hfirst.
  destruct (Z.eqb_spec (Buffer.len chunk) 0); [lia|].
  rewrite writeUInt16BE_out_of_range by lia. reflexivity.
Qed.

(** The first write makes the salt and the key, pushes the salt, and goes
    on as any later write. *)
Lemma enc_transform_first (e : Enc.t) (random chunk : bytes) :
  Enc.isFirstChunk e = true ->
  Enc._transform crypto e random chunk
  = let '(e', evs, r) :=
      Enc._transform crypto
        (Enc.set_isFirstChunk (Enc.initializeEncryption crypto e random) false)
        random chunk in
    (e', Enc.Push random :: evs, r).
Proof.
  intros Hfirst. unfold Enc._transform. rewrite Hfirst.
  cbn [Enc.isFirstChunk Enc.set_isFirstChunk].
  destruct (Buffer.len chunk =? 0); [reflexivity|].
  destruct (Buffer.writeUInt16BE _ _ _); [|reflexivity].
  cbn [Enc.key Enc.set_isFirstChunk Enc.initializeEncryption].
  reflexivity.
Qed.

Hypothesis Hcrypto : aead_correct crypto.

(** A decryptor at a frame boundary takes a frame sealed under its key and
    its next two nonces, whatever length up to 65535 the frame announces,
    and pushes the payload. *)
Lemma dec_transform_frame (d : Dec.t) (k payload : bytes) :
  well_formed d -> at_frame_boundary d k ->
  Buffer.len payload <= 65535 ->
  exists d',
    Dec._transform crypto d
      (frame_of crypto (algorithm (Dec.method d)) k (Dec.nonce d)
         (Dec.nonce (Dec.updateNonce d)) (be16 (Buffer.len payload)) payload)
    = (d', [payload], None)
    /\ at_frame_boundary d' k /\ well_formed d'
    /\ Dec.method d' = Dec.method d
    /\ Dec.nonce d' = Dec.nonce (Dec.updateNonce (Dec.updateNonce d))
    /\ Dec.chunkId d' = Dec.chunkId (Dec.updateNonce (Dec.updateNonce d)).
Proof.
  intros Hwf Hb Hlen. pose proof (len_nonneg payload) as Hpos.
  unfold frame_of.
  destruct (dec_transform_opens crypto d k
              (cipher_update crypto (algorithm (Dec.method d)) k (Dec.nonce d)
                 (be16 (Buffer.len payload)))
              (cipher_getAuthTag crypto (algorithm (Dec.method d)) k
                 (Dec.nonce d) (be16 (Buffer.len payload)))
              (cipher_update crypto (algorithm (Dec.method d)) k
                 (Dec.nonce (Dec.updateNonce d)) payload)
              (cipher_getAuthTag crypto (algorithm (Dec.method d)) k
                 (Dec.nonce (Dec.updateNonce d)) payload)
              (Buffer.len payload) Hwf Hb) as (d' & Ht & Hrest).
  - rewrite (sealed_length _ Hcrypto). reflexivity.
  - apply (tag_length _ Hcrypto).
  - apply (verify_sealed _ Hcrypto).
  - rewrite (open_sealed _ Hcrypto). apply readUInt16BE_written. lia.
  - unfold Buffer.len. rewrite (sealed_length _ Hcrypto). reflexivity.
  - apply (tag_length _ Hcrypto).
  - apply (verify_sealed _ Hcrypto).
  - exists d'. rewrite (open_sealed _ Hcrypto) in Ht. auto.
Qed.

(** *** Encryptor and decryptor in step *)

Lemma lockstep (e : Enc.t) (d : Dec.t) (k random chunk : bytes) :
  in_step e d k -> 0 < Buffer.len chunk <= 65535 ->
  exists d',
    Dec._transform crypto d
      (frame_of crypto (algorithm (Enc.method e)) k (Enc.nonce e)
         (Enc.nonce (Enc.updateNonce e)) (be16 (Buffer.len chunk)) chunk)
    = (d', [chunk], None)
    /\ in_step (Enc.updateNonce (Enc.updateNonce e)) d' k.
Proof.
  intros (Hfirst & Hk & Hb & Hwf & Hm & Hn & Hc) Hlen.
  destruct (dec_transform_frame d k chunk Hwf Hb ltac:(lia))
    as (d' & Ht & Hb' & Hwf' & Hm' & Hn' & Hc').
  exists d'. split.
  - rewrite <- Ht. unfold Enc.updateNonce, Dec.updateNonce. simpl.
    rewrite Hm, Hn, Hc. reflexivity.
  - unfold in_step.
    split; [exact Hfirst|]. split; [exact Hk|]. split; [exact Hb'|].
    split; [exact Hwf'|]. split; [simpl; congruence|]. split.
    + rewrite Hn'. unfold Enc.updateNonce, Dec.updateNonce. simpl.
      rewrite Hn, Hc. reflexivity.
    + rewrite Hc'. unfold Enc.updateNonce, Dec.updateNonce. simpl.
      rewrite Hc. reflexivity.
Qed.

Lemma len_0_nil (b : bytes) : Buffer.len b = 0 -> b = [].
Proof. destruct b; [reflexivity|]. unfold Buffer.len. simpl. lia. Qed.

Lemma enc_write_all_cons (e : Enc.t) (random p : bytes) (P : list bytes) :
  Enc.write_all crypto e random (p :: P)
  = match Enc._transform crypto e random p with
    | (e1, evs, Some err) => (e1, evs, Some err)
    | (e1, evs, None) =>
        let '(e2, evs', r) := Enc.write_all crypto e1 random P in
        (e2, evs ++ evs', r)
    end.
Proof. reflexivity. Qed.

Lemma dec_write_all_cons (d : Dec.t) (c : bytes) (cs : list bytes) :
  Dec.write_all crypto d (c :: cs)
  = match Dec._transform crypto d c with
    | (d1, out, Some err) => (d1, out, Some err)
    | (d1, out, None) =>
        let '(d2, out', r) := Dec.write_all crypto d1 cs in
        (d2, out ++ out', r)
    end.
Proof. reflexivity. Qed.

Lemma pushes_app (evs evs' : list Enc.Event) :
  Enc.pushes (evs ++ evs') = Enc.pushes evs ++ Enc.pushes evs'.
Proof. apply omap_app. Qed.

Lemma lockstep_all (k random : bytes) (P : list bytes) :
  forall (e : Enc.t) (d : Dec.t),
    in_step e d k -> Forall (fun p => Buffer.len p <= 65535) P ->
    exists e' evs d' out,
      Enc.write_all crypto e random P = (e', evs, None)
      /\ Dec.write_all crypto d (Enc.pushes evs) = (d', out, None)
      /\ concat out = concat P
      /\ in_step e' d' k.
Proof.
  induction P as [|p P IH]; intros e d Hstep HP.
  - exists e, [], d, [].
    split; [reflexivity|]. split; [reflexivity|]. split; [reflexivity|].
    exact Hstep.
  - apply Forall_cons in HP as [Hp HP].
    pose proof (len_nonneg p) as Hp0.
    destruct (Z.eq_dec (Buffer.len p) 0) as [Hz|Hnz].
    + destruct (IH e d Hstep HP) as (e' & evs & d' & out & He & Hd & Hout & Hs).
      exists e', evs, d', out. rewrite enc_write_all_cons.
      rewrite (enc_transform_empty e random p) by (destruct Hstep; auto).
      rewrite He. rewrite (len_0_nil p Hz).
      split; [reflexivity|]. split; [exact Hd|]. split; [exact Hout|].
      exact Hs.
    + pose proof Hstep as (Hfirst & Hk & _).
      destruct (lockstep e d k random p Hstep ltac:(lia)) as (d1 & Hd1 & Hs1).
      destruct (IH _ d1 Hs1 HP) as (e' & evs & d' & out & He & Hd & Hout & Hs).
      eexists e', _, d', (p :: out). rewrite enc_write_all_cons.
      rewrite (enc_transform_running e k random p Hfirst Hk) by lia.
      rewrite He. split; [reflexivity|].
      rewrite pushes_app.
      change (Enc.pushes [?a; ?b; Enc.Push ?f]) with [f].
      change ([?f] ++ Enc.pushes evs) with (f :: Enc.pushes evs).
      rewrite dec_write_all_cons, Hd1, Hd.
      split; [reflexivity|]. split; [|exact Hs].
      change (concat (p :: out)) with (p ++ concat out).
      rewrite Hout. reflexivity.
Qed.

(** A first write of the encryptor, as the write of an encryptor that has
    its salt and key. *)
Lemma enc_write_all_first (e : Enc.t) (random p : bytes) (P : list bytes) :
  Enc.isFirstChunk e = true ->
  Enc.write_all crypto e random (p :: P)
  = let '(e', evs, r) :=
      Enc.write_all crypto
        (Enc.set_isFirstChunk (Enc.initializeEncryption crypto e random) false)
        random (p :: P) in
    (e', Enc.Push random :: evs, r).
Proof.
  intros Hfirst. simpl. rewrite enc_transform_first by assumption.
  destruct (Enc._transform crypto _ random p) as [[t ev] [err|]];
    [reflexivity|].
  destruct (Enc.write_all crypto t random P) as [[t' ev'] r']. reflexivity.
Qed.

Lemma after_salt_exact (s : Dec.t) :
  Buffer.len (Dec.buffer s) = saltSize (Dec.methodInfo s) ->
  after_salt crypto s
  = Dec.set_isFirstChunk
      (Dec.initializeDecryption crypto (Dec.set_buffer s []) (Dec.buffer s))
      false.
Proof.
  intros Hlen. unfold after_salt. cbv zeta. rewrite <- Hlen.
  rewrite slice_prefix by apply len_nonneg.
  rewrite slice_from_drop by apply len_nonneg.
  unfold Buffer.len. rewrite Nat2Z.id, firstn_all, drop_all. reflexivity.
Qed.

(** The salt alone takes a new decryptor to its first frame boundary, in
    step with an encryptor that has just made that salt. *)
Lemma fresh_in_step (m pw : string) (e : Enc.t) (d : Dec.t) (random : bytes) :
  Enc.new m pw = Some e -> Dec.new m pw = Some d ->
  Buffer.len random = saltSize (Enc.methodInfo e) ->
  exists d1 k,
    Dec._transform crypto d random = (d1, [], None)
    /\ in_step
         (Enc.set_isFirstChunk (Enc.initializeEncryption crypto e random) false)
         d1 k.
Proof.
  unfold Enc.new, Dec.new.
  destruct (AEAD_METHODS m) as [info|] eqn:Hinfo; [|discriminate].
  intros [= <-] [= <-]. simpl. intros Hlen.
  destruct (table_sizes _ _ Hinfo) as (Htag & Hnonce & Hsalt).
  rewrite transform_eq. cbv zeta.
  set (s := more _ random).
  change (Dec.isFirstChunk s) with true. cbv iota.
  change (Dec.buffer s) with random.
  change (Dec.methodInfo s) with info.
  rewrite Hlen, Z.ltb_irrefl.
  rewrite after_salt_exact by exact Hlen.
  set (d1 := Dec.set_isFirstChunk _ false).
  assert (Hwf : well_formed d1).
  { unfold well_formed. simpl. lia. }
  rewrite (run_while_eq crypto d1 Hwf).
  change (Dec.buffer d1) with (@nil byte).
  exists d1, (deriveKey crypto pw random (keySize info)).
  split; [reflexivity|].
  unfold in_step, at_frame_boundary. simpl. rewrite Hnonce.
  repeat split; try reflexivity; apply Hwf.
Qed.

End Sessions.

(** ** Where a failed write leaves the decryptor *)

Section Failure.
Import Methods Aead.
Context (crypto : NodeCrypto).

(** When the loop ends with an error, the state it returns is the one the
    failing round started from, and that round fails on it again. *)
Lemma while_throws (fuel : nat) :
  forall (s s' : Dec.t) (out : list bytes) (e : Error),
    Dec.while crypto fuel s = Some (s', out, Some e) ->
    rounds_to crypto s out s'
    /\ Dec.round crypto s' = (s', Dec.Throw e).
Proof.
  induction fuel as [|fuel IH]; intros s s' out e H; [discriminate|].
  simpl in H.
  destruct (Z.ltb_spec 0 (Buffer.len (Dec.buffer s))) as [Hlen|Hlen];
    [|discriminate].
  destruct (Dec.round crypto s) as [s1 [ |o|e1]] eqn:Hround.
  - discriminate.
  - destruct (Dec.while crypto fuel s1) as [[[t o'] r]|] eqn:Hw;
      [|discriminate].
    injection H as -> <- ->.
    destruct (IH _ _ _ _ Hw) as [Hto Hthrow].
    split; [|exact Hthrow]. eapply rounds_next; eauto.
  - injection H as <- <- <-.
    pose proof (proj2 (round_stops_unchanged crypto s s1) e1 Hround).
    subst s1. split; [constructor|exact Hround].
Qed.

Lemma run_while_throws (s s' : Dec.t) (out : list bytes) (e : Error) :
  Dec.run_while crypto s = (s', out, Some e) ->
  rounds_to crypto s out s'
  /\ Dec.round crypto s' = (s', Dec.Throw e).
Proof.
  unfold Dec.run_while. intros H.
  destruct (Dec.while crypto (Dec.rounds s) s) as [r|] eqn:Hw;
    simpl in H; [|discriminate].
  subst r. eapply while_throws. exact Hw.
Qed.

Lemma transform_throws (this this' : Dec.t) (chunk : bytes)
    (out : list bytes) (e : Error) :
  Dec._transform crypto this chunk = (this', out, Some e) ->
  rounds_to crypto (loop_entry crypto this chunk) out this'
  /\ Dec.round crypto this' = (this', Dec.Throw e).
Proof.
  rewrite transform_eq. cbv zeta. unfold loop_entry.
  change (Dec.isFirstChunk (more this chunk)) with (Dec.isFirstChunk this).
  intros H. destruct (Dec.isFirstChunk this).
  - destruct (Buffer.len (Dec.buffer (more this chunk))
                <? saltSize (Dec.methodInfo (more this chunk)));
      [discriminate|].
    eapply run_while_throws. exact H.
  - eapply run_while_throws. exact H.
Qed.

(** Only the length branch throws the length error, and only when the
    whole length field is in the buffer. *)
Lemma round_throws_length (s s' : Dec.t) :
  Dec.round crypto s = (s', Dec.Throw AuthLength) ->
  Dec.expectingLength s = true
  /\ 2 + tagSize (Dec.methodInfo s) <= Buffer.len (Dec.buffer s)
  /\ Dec.length_round crypto s = (s, Dec.Throw AuthLength).
Proof.
  unfold Dec.round. intros H.
  destruct (Dec.expectingLength s) eqn:Hexp.
  - split; [reflexivity|].
    pose proof (proj2 (round_stops_unchanged crypto s s') AuthLength) as Hs.
    unfold Dec.round in Hs. rewrite Hexp in Hs. specialize (Hs H). subst s'.
    split; [|exact H].
    unfold Dec.length_round in H.
    destruct (Z.ltb_spec (Buffer.len (Dec.buffer s))
                (2 + tagSize (Dec.methodInfo s))); [discriminate|lia].
  - unfold Dec.payload_round in H. split_round H.
Qed.

(** A decryptor that has failed fails again, on the same round, whatever
    is written to it later, and pushes nothing more. *)
Lemma transform_stays_failed (this this' : Dec.t) (chunk : bytes)
    (out : list bytes) (e : Error) :
  well_formed this ->
  Dec._transform crypto this chunk = (this', out, Some e) ->
  well_formed this'
  /\ forall later,
       Dec._transform crypto this' later = (more this' later, [], Some e).
Proof.
  intros Hwf H.
  destruct (transform_throws _ _ _ _ _ H) as [_ Hround].
  assert (Hkeep : well_formed this' /\ Dec.isFirstChunk this' = false).
  { rewrite transform_eq in H. cbv zeta in H.
    change (Dec.isFirstChunk (more this chunk))
      with (Dec.isFirstChunk this) in H.
    destruct (Dec.isFirstChunk this) eqn:Hfirst.
    - destruct (Buffer.len (Dec.buffer (more this chunk))
                  <? saltSize (Dec.methodInfo (more this chunk)));
        [discriminate|].
      eapply run_while_keeps in H;
        [|apply Nat.lt_succ_diag_r|apply after_salt_well_formed; exact Hwf].
      destruct H as [Hw (_ & _ & _ & Hf)]. split; [exact Hw|].
      rewrite <- Hf. reflexivity.
    - eapply run_while_keeps in H; [|apply Nat.lt_succ_diag_r|exact Hwf].
      destruct H as [Hw (_ & _ & _ & Hf)]. split; [exact Hw|].
      rewrite <- Hf. exact Hfirst. }
  destruct Hkeep as [Hwf' Hfirst']. split; [exact Hwf'|]. intros later.
  rewrite transform_eq. cbv zeta.
  change (Dec.isFirstChunk (more this' later)) with (Dec.isFirstChunk this').
  rewrite Hfirst'.
  rewrite (run_while_eq crypto (more this' later) Hwf').
  rewrite (round_throw_more crypto _ _ _ later Hwf' Hround).
  assert (Hlen : (0 <? Buffer.len (Dec.buffer (more this' later))) = true).
  { apply Z.ltb_lt. unfold more. simpl. rewrite len_app.
    pose proof (len_nonneg later).
    destruct (Z.ltb_spec 0 (Buffer.len (Dec.buffer this'))) as [|Hz]; [lia|].
    exfalso. revert Hround. unfold Dec.round, Dec.length_round,
      Dec.payload_round.
    destruct Hwf' as (Ht & _ & Hp). rewrite Ht.
    destruct (Dec.expectingLength this').
    - destruct (Z.ltb_spec (Buffer.len (Dec.buffer this')) (2 + 16));
        [discriminate|lia].
    - destruct (Z.ltb_spec (Buffer.len (Dec.buffer this'))
                  (Dec.payloadLength this' + 16)); [discriminate|lia]. }
  rewrite Hlen. reflexivity.
Qed.

Lemma write_all_stays_failed (chunks : list bytes) :
  forall (this this' : Dec.t) (out : list bytes) (e : Error),
    well_formed this ->
    Dec.write_all crypto this chunks = (this', out, Some e) ->
    forall later,
      Dec._transform crypto this' later = (more this' later, [], Some e).
Proof.
  induction chunks as [|c cs IH]; intros this this' out e Hwf H;
    [discriminate|].
  simpl in H.
  destruct (Dec._transform crypto this c) as [[d1 o1] [e1|]] eqn:Ht.
  - injection H as <- <- <-.
    apply (transform_stays_failed _ _ _ _ _ Hwf Ht).
  - destruct (Dec.write_all crypto d1 cs) as [[d2 o2] r2] eqn:Hw.
    injection H as <- <- ->.
    destruct (transform_keeps crypto _ _ _ _ _ Hwf Ht) as [Hwf1 _].
    eapply IH; eassumption.
Qed.

End Failure.

(** ** The tunnel *)

Section Tunnel.
Import Methods Aead ShadowsocksLocal.
Context (crypto : NodeCrypto).

Lemma server_stream_failed (chunks : list bytes) (tunnel : Tunnel) :
  decryptorFailed tunnel = true ->
  server_stream crypto tunnel chunks = (tunnel, []).
Proof.
  intros Hf. induction chunks as [|c cs IH]; [reflexivity|].
  simpl. unfold server_data. rewrite Hf, IH. reflexivity.
Qed.

Lemma piped_app (a b : list bytes) : piped (a ++ b) = piped a ++ piped b.
Proof. apply List.filter_app. Qed.

(** The buffers [pipe] leaves out carry no bytes. *)
Lemma concat_piped (out : list bytes) : concat (piped out) = concat out.
Proof.
  induction out as [|b out IH]; [reflexivity|].
  unfold piped in *. cbn [List.filter].
  destruct (Z.eqb_spec (Buffer.len b) 0) as [Hz|Hnz]; cbn [negb concat].
  - rewrite IH. destruct b; [reflexivity|].
    unfold Buffer.len in Hz. simpl in Hz. lia.
  - rewrite IH. reflexivity.
Qed.

(** What reaches the two sockets when the remote sends [chunks]: the
    buffers the decryptor pushes, those of length 0 apart, written to the
    client, and, when the decryptor fails, what its error handler does. *)
Lemma server_stream_write_all (chunks : list bytes) :
  forall (tunnel : Tunnel) (d' : Dec.t) (out : list bytes)
         (r : option Error),
    decryptorFailed tunnel = false ->
    Dec.write_all crypto (decryptor tunnel) chunks = (d', out, r) ->
    snd (server_stream crypto tunnel chunks)
    = map ClientWrite (piped out)
        ++ match r with Some _ => decryptor_on_error | None => [] end.
Proof.
  induction chunks as [|c cs IH]; intros tunnel d' out r Hf Hw.
  - injection Hw as <- <- <-. reflexivity.
  - simpl in Hw. simpl. unfold server_data. rewrite Hf.
    destruct (Dec._transform crypto (decryptor tunnel) c)
      as [[d1 o1] [e|]] eqn:Ht.
    + injection Hw as <- <- <-.
      rewrite server_stream_failed by reflexivity.
      simpl. rewrite app_nil_r. reflexivity.
    + destruct (Dec.write_all crypto d1 cs) as [[d2 o2] r2] eqn:Hw2.
      injection Hw as <- <- <-.
      specialize (IH {| encryptor := encryptor tunnel; decryptor := d1;
                        encryptorFailed := encryptorFailed tunnel;
                        decryptorFailed := false |} d2 o2 r2 eq_refl Hw2).
      destruct (server_stream crypto _ cs) as [t' acts'].
      simpl in *. rewrite IH, piped_app, map_app, app_assoc. reflexivity.
Qed.

End Tunnel.

(** ** The nonces of a session *)

Section Nonces.
Import Methods Aead.
Context (crypto : NodeCrypto).

Lemma running_updateNonce (e : Enc.t) (ops : Z) :
  0 <= ops < 2 ^ 53 ->
  Enc.updateNonce (running e ops) = running e (ops + 1).
Proof.
  intros Hops. unfold running, Enc.updateNonce. cbv zeta.
  cbn [Enc.chunkId Enc.nonce Enc.set_nonce].
  unfold JS.incr. destruct (Z.ltb_spec ops (2 ^ 53)); [|lia].
  rewrite nonce_for_overwrites by apply nonce_of_length. reflexivity.
Qed.

(** A write to a running encryptor is two AEAD operations, under the
    nonces of the counter values [ops] and [ops + 1]. *)
Lemma running_transform (e : Enc.t) (k random chunk : bytes) (ops : Z) :
  Enc.isFirstChunk e = false -> Enc.key e = Some k ->
  0 <= ops -> ops + 2 <= 2 ^ 53 ->
  0 < Buffer.len chunk <= 65535 ->
  Enc._transform crypto (running e ops) random chunk
  = (running e (ops + 2),
     [Enc.Seal (algorithm (Enc.method e)) k (nonce_of ops)
               (be16 (Buffer.len chunk));
      Enc.Seal (algorithm (Enc.method e)) k (nonce_of (ops + 1)) chunk;
      Enc.Push (frame_of crypto (algorithm (Enc.method e)) k (nonce_of ops)
                  (nonce_of (ops + 1)) (be16 (Buffer.len chunk)) chunk)],
     None).
Proof.
  intros Hfirst Hk Hops Hmax Hlen.
  rewrite (enc_transform_running crypto (running e ops) k random chunk
             Hfirst Hk Hlen).
  rewrite !running_updateNonce by lia.
  replace (ops + 1 + 1) with (ops + 2) by lia. reflexivity.
Qed.

(** The encryptor once its first write has made the salt and the key is
    running, at counter 0. *)
Lemma initialized_running (m pw : string) (e : Enc.t) (random : bytes) :
  Enc.new m pw = Some e ->
  Enc.set_isFirstChunk (Enc.initializeEncryption crypto e random) false
  = running
      (Enc.set_isFirstChunk (Enc.initializeEncryption crypto e random) false)
      0.
Proof.
  unfold Enc.new. destruct (AEAD_METHODS m) as [info|] eqn:Hinfo;
    [|discriminate].
  intros [= <-]. destruct (table_sizes _ _ Hinfo) as (_ & Hn & _).
  unfold running, Enc.set_nonce, Enc.set_isFirstChunk,
    Enc.initializeEncryption. simpl. rewrite Hn. reflexivity.
Qed.

Lemma nonces_app (evs evs' : list Enc.Event) :
  nonces (evs ++ evs') = nonces evs ++ nonces evs'.
Proof. unfold nonces, Enc.seals. rewrite omap_app, map_app. reflexivity. Qed.

Lemma nonce_seq_step (ops : Z) (n : nat) :
  [nonce_of ops; nonce_of (ops + 1)]
    ++ map (fun i => nonce_of (ops + 2 + Z.of_nat i)) (seq 0 n)
  = map (fun i => nonce_of (ops + Z.of_nat i)) (seq 0 (S (S n))).
Proof.
  cbn [seq map app]. change (Z.of_nat 0) with 0. change (Z.of_nat 1) with 1.
  rewrite Z.add_0_r. f_equal. f_equal.
  rewrite <- (seq_shift n 1), <- (seq_shift n 0), !map_map.
  apply map_ext. intros i. f_equal. lia.
Qed.

(** The nonces of a whole session: counter values 0, 1, 2, ... in order,
    two for each non-empty buffer, as long as the counter is exact. *)
Lemma session_nonces (e : Enc.t) (k random : bytes) (P : list bytes) :
  Enc.isFirstChunk e = false -> Enc.key e = Some k ->
  Forall (fun p => 0 < Buffer.len p <= 65535) P ->
  forall ops : Z,
    0 <= ops -> ops + 2 * Z.of_nat (length P) <= 2 ^ 53 ->
    exists evs,
      Enc.write_all crypto (running e ops) random P
      = (running e (ops + 2 * Z.of_nat (length P)), evs, None)
      /\ nonces evs
         = map (fun i => nonce_of (ops + Z.of_nat i))
               (seq 0 (2 * length P)).
Proof.
  intros Hfirst Hk HP.
  induction HP as [|p P Hp HP IH]; intros ops Hops Hmax.
  - exists []. simpl. rewrite Z.add_0_r. auto.
  - cbn [length] in Hmax.
    destruct (IH (ops + 2) ltac:(lia) ltac:(lia)) as (evs & Hw & Hn).
    eexists. rewrite enc_write_all_cons.
    rewrite (running_transform e k random p ops Hfirst Hk Hops) by lia.
    rewrite Hw. split.
    + f_equal. f_equal. f_equal. cbn [length]. lia.
    + rewrite nonces_app, Hn. cbn [length].
      replace (2 * S (length P))%nat with (S (S (2 * length P))) by lia.
      rewrite <- nonce_seq_step. reflexivity.
Qed.

(** The encryptor after [n >= 1] writes of one non-empty chunk is running
    at counter [2 n]. *)
Lemma writes_running (m pw : string) (e : Enc.t) (random chunk : bytes) :
  Enc.new m pw = Some e ->
  0 < Buffer.len chunk <= 65535 ->
  forall n : N,
    (0 < n)%N -> 2 * Z.of_N n <= 2 ^ 53 ->
    writes crypto random chunk n e
    = running
        (Enc.set_isFirstChunk (Enc.initializeEncryption crypto e random)
                              false)
        (2 * Z.of_N n).
Proof.
  intros Hnew Hlen.
  set (e1 := Enc.set_isFirstChunk (Enc.initializeEncryption crypto e random)
                                  false).
  assert (Hfirst : Enc.isFirstChunk e = true).
  { unfold Enc.new in Hnew. destruct (AEAD_METHODS m); [|discriminate].
    injection Hnew as <-. reflexivity. }
  induction n as [|n IH] using N.peano_ind; intros Hpos Hmax; [lia|].
  unfold writes in *. rewrite N.iter_succ.
  destruct (N.eq_dec n 0%N) as [->|Hn].
  - cbn [N.iter]. rewrite enc_transform_first by exact Hfirst.
    fold e1.
    pose proof (initialized_running m pw e random Hnew : e1 = running e1 0)
      as Hrun.
    rewrite Hrun at 1.
    rewrite (running_transform e1 _ random chunk 0 eq_refl eq_refl)
      by lia.
    reflexivity.
  - rewrite IH by lia.
    rewrite (running_transform e1 _ random chunk (2 * Z.of_N n)
               eq_refl eq_refl) by lia.
    cbn [fst]. f_equal. lia.
Qed.

Lemma le_value_le_bytes (w : nat) :
  forall c : Z, le_value (le_bytes w c) = c mod 256 ^ Z.of_nat w.
Proof.
  induction w as [|w IH]; intros c.
  - simpl. rewrite Z.mod_1_r. reflexivity.
  - cbn [le_bytes le_value]. rewrite Z_of_byte_of_Z, IH.
    rewrite Nat2Z.inj_succ, Z.pow_succ_r by lia.
    rewrite Z.rem_mul_r by lia. reflexivity.
Qed.

(** Distinct counters below 2^96 have distinct 12-byte encodings. *)
Lemma le_bytes_12_inj (c c' : Z) :
  0 <= c < 2 ^ 96 -> 0 <= c' < 2 ^ 96 ->
  le_bytes 12 c = le_bytes 12 c' -> c = c'.
Proof.
  intros Hc Hc' H. apply (f_equal le_value) in H.
  rewrite !le_value_le_bytes in H.
  change (256 ^ Z.of_nat 12) with (2 ^ 96) in H.
  rewrite !Z.mod_small in H by assumption. exact H.
Qed.

(** A session of fewer than 2^31 AEAD operations: no error, the nonces are
    the little-endian encodings of 0, 1, 2, ... in order, and no nonce is
    used twice. *)
Lemma short_session_nonces (m pw : string) (e : Enc.t) (random : bytes)
    (P : list bytes) :
  Enc.new m pw = Some e ->
  Forall (fun p => 0 < Buffer.len p <= 65535) P ->
  2 * Z.of_nat (length P) <= 2 ^ 31 ->
  exists e' evs,
    Enc.write_all crypto e random P = (e', evs, None)
    /\ nonces evs
       = map (fun i => le_bytes 12 (Z.of_nat i)) (seq 0 (2 * length P))
    /\ NoDup (nonces evs).
Proof.
  intros Hnew HP Hmax.
  assert (Hnodup : NoDup (map (fun i => le_bytes 12 (Z.of_nat i))
                              (seq 0 (2 * length P)))).
  { apply (NoDup_fmap_2_strong (fun i => le_bytes 12 (Z.of_nat i)));
      [|apply NoDup_seq].
    intros i j Hi Hj Heq. apply elem_of_seq in Hi, Hj.
    apply le_bytes_12_inj in Heq; lia. }
  destruct P as [|p P].
  - exists e, []. split; [reflexivity|]. split; [reflexivity|constructor].
  - assert (Hfirst : Enc.isFirstChunk e = true).
    { unfold Enc.new in Hnew. destruct (AEAD_METHODS m); [|discriminate].
      injection Hnew as <-. reflexivity. }
    rewrite (enc_write_all_first crypto e random p P Hfirst).
    set (e1 := Enc.set_isFirstChunk
                 (Enc.initializeEncryption crypto e random) false) in *.
    pose proof (initialized_running m pw e random Hnew : e1 = running e1 0)
      as Hrun.
    destruct (session_nonces e1 _ random (p :: P) eq_refl eq_refl HP 0
                ltac:(lia) ltac:(lia)) as (evs & Hw & Hn).
    rewrite <- Hrun in Hw. rewrite Hw.
    exists (running e1 (0 + 2 * Z.of_nat (length (p :: P)))),
           (Enc.Push random :: evs).
    split; [reflexivity|].
    change (nonces (Enc.Push random :: evs)) with (nonces evs).
    assert (Heq : nonces evs
                  = map (fun i => le_bytes 12 (Z.of_nat i))
                        (seq 0 (2 * length (p :: P)))).
    { rewrite Hn. apply map_ext_in. intros i Hi. apply in_seq in Hi.
      rewrite Z.add_0_l. apply nonce_of_le_bytes. lia. }
    rewrite Heq. split; [reflexivity|exact Hnodup].
Qed.

End Nonces.

(** ** The SOCKS5 front end *)

Lemma get_range (b : bytes) (i v : Z) :
  Buffer.get b i = Some v -> 0 <= v < 256.
Proof.
  unfold Buffer.get. destruct (i <? 0); [discriminate|].
  destruct (b !! Z.to_nat i) as [x|]; simpl; [|discriminate].
  intros [= <-]. apply Z_of_byte_range.
Qed.

Section Socks.
Import ShadowsocksLocal.

(** Once the version byte is 5 and the announced methods have all arrived,
    the reply is [05 00], whatever the methods are. *)
Lemma handshake_reply_ignores_methods (handshakeBuffer data : bytes)
    (numMethods : Z) :
  Buffer.get (handshakeBuffer ++ data) 0 = Some 5 ->
  Buffer.get (handshakeBuffer ++ data) 1 = Some numMethods ->
  2 + numMethods <= Buffer.len (handshakeBuffer ++ data) ->
  handshakeHandler handshakeBuffer data
  = (handshakeBuffer ++ data,
     [RemoveListener; ClientWrite [x05; x00]; HandleSocksRequest]).
Proof.
  intros H0 H1 Hlen. unfold handshakeHandler.
  pose proof (get_range _ _ _ H1) as Hn.
  destruct (Z.ltb_spec (Buffer.len (handshakeBuffer ++ data)) 2); [lia|].
  rewrite H0, H1. rewrite bool_decide_eq_true_2 by reflexivity. simpl.
  destruct (Z.ltb_spec (Buffer.len (handshakeBuffer ++ data))
              (2 + numMethods)); [lia|reflexivity].
Qed.

End Socks.

(* ===================================================================== *)
(** * The small instance meets the hypotheses *)
(* ===================================================================== *)

Lemma new_encryptor0 : Enc.new "aes-128-gcm" "pw" = Some encryptor0.
Proof. reflexivity. Qed.

Lemma new_decryptor0 : Dec.new "aes-128-gcm" "pw" = Some decryptor0.
Proof. reflexivity. Qed.

Lemma pad_length (n : nat) (data : bytes) : length (Toy.pad n data) = n.
Proof.
  unfold Toy.pad. rewrite length_take, length_app, length_replicate. lia.
Qed.

Lemma toy_md5_length (data : bytes) :
  length (hash_digest Toy.crypto "md5" data) = 16%nat.
Proof. apply pad_length. Qed.

Lemma bnot_involutive (b : byte) : Toy.bnot (Toy.bnot b) = b.
Proof.
  unfold Toy.bnot. rewrite Z_of_byte_of_Z.
  pose proof (Z_of_byte_range b).
  rewrite Z.mod_small by lia.
  replace (255 - (255 - Buffer.Z_of_byte b)) with (Buffer.Z_of_byte b) by lia.
  apply byte_of_Z_of_byte.
Qed.

Lemma toy_aead_correct : aead_correct Toy.crypto.
Proof.
  constructor; intros alg k n p; simpl.
  - apply length_map.
  - apply pad_length.
  - rewrite map_map. rewrite <- (map_id p) at 2.
    apply map_ext. intros b. apply bnot_involutive.
  - apply bool_decide_eq_true. reflexivity.
Qed.

(* ===================================================================== *)
(** * The claims *)
(* ===================================================================== *)

(** ** C7: the key schedule *)

(** C7. [deriveKey(password, salt, key_size)] is a function of its
    arguments, equal to HKDF with hash SHA1, input keying material the
    MD5 stretch of the password ([d_0 = MD5(password)],
    [d_i = MD5(d_(i-1) ++ password)], concatenated and truncated to
    [key_size] bytes, for any number of rounds that fills [key_size]), the
    given salt, info the nine bytes of ["ss-subkey"], and output length
    [key_size]. *)
Theorem C7_deriveKey_hkdf_sha1_of_md5_stretch
    (crypto : NodeCrypto) (password : string) (salt : bytes)
    (key_size : Z) (rounds : nat) :
  (forall data, length (hash_digest crypto "md5" data) = 16%nat) ->
  0 <= key_size -> key_size <= 16 * Z.of_nat rounds ->
  Methods.deriveKey crypto password salt key_size
  = hkdfSync crypto "sha1"
      (Methods.spec_EVP_BytesToKey crypto (Buffer.from password) rounds
                                   key_size)
      salt (Buffer.from "ss-subkey") key_size
  /\ length (Buffer.from "ss-subkey") = 9%nat.
Proof.
  intros Hmd5 Hk Hr. split; [|reflexivity].
  unfold Methods.deriveKey. f_equal.
  rewrite (EVP_BytesToKey_digests crypto Hmd5) by assumption.
  destruct (ceil_div_16 key_size Hk) as [H0 H1].
  symmetry. apply (spec_EVP_more_rounds crypto Hmd5); [lia|].
  assert (JS.ceil_div key_size 16 < Z.of_nat rounds + 1); [|lia].
  unfold JS.ceil_div. apply Z.div_lt_upper_bound; lia.
Qed.

Lemma C7_witness :
  Methods.deriveKey Toy.crypto "pass" (replicate 32 x00) 32
  = hkdfSync Toy.crypto "sha1"
      (Methods.spec_EVP_BytesToKey Toy.crypto (Buffer.from "pass") 2 32)
      (replicate 32 x00) (Buffer.from "ss-subkey") 32
  /\ length (Buffer.from "ss-subkey") = 9%nat.
Proof.
  apply (C7_deriveKey_hkdf_sha1_of_md5_stretch Toy.crypto "pass"
           (replicate 32 x00) 32 2 toy_md5_length); lia.
Defined.

(** ** C9: the decryptor does not see buffer boundaries *)

(** An empty write to a new decryptor leaves it waiting for the salt. *)
Lemma empty_write_waits_for_salt (crypto : NodeCrypto) (method password : string) (d : Dec.t) :
  Dec.new method password = Some d ->
  observe (Dec.write_all crypto d [[]]) = ([], None).
Proof.
  intros Hnew. rewrite observe_write_one. unfold Dec.new in Hnew.
  destruct (Methods.AEAD_METHODS method) as [info|] eqn:Hinfo;
    [|discriminate].
  injection Hnew as <-.
  destruct (table_sizes _ _ Hinfo) as (_ & _ & [Hs|Hs]);
    rewrite transform_eq; simpl; rewrite Hs; reflexivity.
Qed.

(** C9. For every byte stream [S] (so in particular for a salt followed by
    complete frames) and every way of cutting [S] into successive buffers,
    writing the buffers one at a time to a new [AEADDecryptor] pushes the
    same plaintext buffers, and ends with the same error or none, as
    writing [S] as a single buffer. *)
Theorem C9_partition_independence
    (crypto : NodeCrypto) (method password : string) (d : Dec.t)
    (chunks : list bytes) :
  Dec.new method password = Some d ->
  observe (Dec.write_all crypto d chunks)
  = observe (Dec.write_all crypto d [concat chunks]).
Proof.
  intros Hnew. pose proof (new_well_formed _ _ _ Hnew) as Hwf.
  destruct chunks as [|c cs].
  - symmetry. apply (empty_write_waits_for_salt crypto method password d Hnew).
  - rewrite observe_write_one. apply write_all_concat. exact Hwf.
Qed.

Lemma C9_witness :
  observe (Dec.write_all Toy.crypto decryptor0
             [[x07; x07; x07]; replicate 13 x07 ++ [xff]; []; [xfe; x02]])
  = observe (Dec.write_all Toy.crypto decryptor0
               [concat [[x07; x07; x07]; replicate 13 x07 ++ [xff]; [];
                        [xfe; x02]]]).
Proof.
  apply (C9_partition_independence Toy.crypto "aes-128-gcm" "pw").
  reflexivity.
Defined.

(** ** C1: what the encryptor writes, the decryptor reads back *)

(** C1, counterexample: a single buffer of 65536 bytes, the size of a
    full read from a socket.  The encryptor pushes the salt, then
    [writeUInt16BE] throws; decrypting what was pushed gives nothing, not the
    65536 bytes. *)
Lemma C1_counterexample :
  exists e' evs d' out,
    Enc.new "aes-128-gcm" "pw" = Some encryptor0
    /\ Dec.new "aes-128-gcm" "pw" = Some decryptor0
    /\ Enc.write_all Toy.crypto encryptor0 salt0
         [replicate (Z.to_nat 65536) x41]
       = (e', evs, Some Aead.RangeError)
    /\ Dec.write_all Toy.crypto decryptor0 [concat (Enc.pushes evs)]
       = (d', out, None)
    /\ concat out <> concat [replicate (Z.to_nat 65536) x41].
Proof.
  assert (Hlen : Buffer.len (replicate (Z.to_nat 65536) x41) = 65536).
  { unfold Buffer.len. rewrite length_replicate. lia. }
  exists (Enc.set_isFirstChunk
            (Enc.initializeEncryption Toy.crypto encryptor0 salt0) false),
         [Enc.Push salt0].
  eexists _, [].
  split; [reflexivity|]. split; [reflexivity|]. split.
  - rewrite enc_write_all_cons, enc_transform_first by reflexivity.
    rewrite enc_transform_too_long; [reflexivity|reflexivity|].
    rewrite Hlen. lia.
  - split; [vm_compute; reflexivity|].
    intros H. apply (f_equal (@length byte)) in H.
    change (concat [replicate (Z.to_nat 65536) x41])
      with (replicate (Z.to_nat 65536) x41 ++ []) in H.
    rewrite length_app, length_replicate in H.
    cbn [concat length] in H. lia.
Qed.

(** C1, as amended.  For every sequence [P] of plaintext buffers of at most
    65535 bytes each and every supported method, an [AEADEncryptor] written
    [P] raises no error, and an [AEADDecryptor] made with the same method
    and password, written the concatenation of what the encryptor pushed,
    raises no error and pushes buffers whose concatenation is that of [P]. *)
Theorem C1_round_trip
    (crypto : NodeCrypto) (method password : string)
    (e : Enc.t) (d : Dec.t) (random : bytes) (P : list bytes) :
  aead_correct crypto ->
  Enc.new method password = Some e ->
  Dec.new method password = Some d ->
  Buffer.len random = Methods.saltSize (Enc.methodInfo e) ->
  Forall (fun p => Buffer.len p <= 65535) P ->
  exists e' evs d' out,
    Enc.write_all crypto e random P = (e', evs, None)
    /\ Dec.write_all crypto d [concat (Enc.pushes evs)] = (d', out, None)
    /\ concat out = concat P.
Proof.
  intros Hc He Hd Hlen HP.
  pose proof (new_well_formed _ _ _ Hd) as Hwf.
  destruct P as [|p P].
  - exists e, [].
    pose proof (empty_write_waits_for_salt crypto method password d Hd) as Hempty.
    change (concat (Enc.pushes [])) with (@nil byte).
    destruct (Dec.write_all crypto d [[]]) as [[d' out] r].
    unfold observe in Hempty. cbn [fst snd] in Hempty.
    injection Hempty as -> ->.
    exists d', []. auto.
  - destruct (fresh_in_step crypto method password e d random He Hd Hlen)
      as (d1 & k & Hsalt & Hstep).
    destruct (lockstep_all crypto Hc k random (p :: P) _ d1 Hstep HP)
      as (e' & evs & d' & out & Henc & Hdec & Hout & _).
    assert (Hfirst : Enc.isFirstChunk e = true).
    { unfold Enc.new in He. destruct (Methods.AEAD_METHODS method);
        [|discriminate]. injection He as <-. reflexivity. }
    exists e', (Enc.Push random :: evs).
    rewrite (enc_write_all_first crypto e random p P Hfirst), Henc.
    change (Enc.pushes (Enc.Push random :: evs))
      with (random :: Enc.pushes evs).
    pose proof (write_all_concat crypto (Enc.pushes evs) d random Hwf)
      as Hcat.
    rewrite <- observe_write_one in Hcat.
    rewrite dec_write_all_cons, Hsalt, Hdec in Hcat.
    destruct (Dec.write_all crypto d [concat (random :: Enc.pushes evs)])
      as [[d'' out''] r''].
    unfold observe in Hcat. simpl in Hcat. injection Hcat as <- <-.
    exists d'', out. auto.
Qed.

Lemma C1_witness :
  exists e' evs d' out,
    Enc.write_all Toy.crypto encryptor0 salt0
      [[x68; x69]; []; [x21]] = (e', evs, None)
    /\ Dec.write_all Toy.crypto decryptor0 [concat (Enc.pushes evs)]
       = (d', out, None)
    /\ concat out = concat [[x68; x69]; []; [x21]].
Proof.
  apply (C1_round_trip Toy.crypto "aes-128-gcm" "pw" encryptor0 decryptor0
           salt0 [[x68; x69]; []; [x21]] toy_aead_correct);
    try reflexivity.
  repeat constructor; unfold Buffer.len; simpl; lia.
Defined.

(** ** Facts about the example transforms *)




(** ** C3: the decrypted length is not range-checked *)





(** ** C2: the encryptor does not split its input *)

(** C2, counterexample: one buffer of 0x4000 bytes, one more than 0x3FFF.
    The claim wants [ceil(0x4000 / 0x3FFF) = 2] sub-chunks of at most 0x3FFF
    bytes; the encryptor runs one payload operation, on all 0x4000 bytes,
    and pushes one frame, whose length field says 0x4000. *)
Lemma C2_counterexample :
  exists e' frame,
    Enc.new "aes-128-gcm" "pw" = Some encryptor0
    /\ Enc._transform Toy.crypto encryptor0 salt0
         (replicate (Z.to_nat 16384) x41)
       = (e',
          [Enc.Push salt0;
           Enc.Seal "aes-128-gcm" key0 (nonce_of 0) (be16 16384);
           Enc.Seal "aes-128-gcm" key0 (nonce_of 1)
                    (replicate (Z.to_nat 16384) x41);
           Enc.Push frame],
          None)
    /\ 16383 < Buffer.len (replicate (Z.to_nat 16384) x41)
    /\ JS.ceil_div (Buffer.len (replicate (Z.to_nat 16384) x41)) 16383 = 2.
Proof.
  assert (Hlen : Buffer.len (replicate (Z.to_nat 16384) x41) = 16384).
  { unfold Buffer.len. rewrite length_replicate. lia. }
  eexists _, _. split; [reflexivity|]. split.
  - rewrite enc_transform_first by reflexivity.
    rewrite (enc_transform_running Toy.crypto encryptor1 key0);
      [|reflexivity|reflexivity|rewrite Hlen; lia].
    rewrite Hlen. reflexivity.
  - rewrite Hlen. split; [lia|reflexivity].
Qed.

(** C2, as amended.  For every input buffer [P] with
    [0x3FFF < len(P) <= 0xFFFF], written to an encryptor that is new or has
    its key, the encryptor does not split [P]: it runs one length operation
    and one payload operation, on all of [P], and pushes one frame (after
    the salt, on a first write), whose length field is [len(P)]. *)
Theorem C2_one_frame_per_write
    (crypto : NodeCrypto) (e : Enc.t) (random P : bytes) :
  Enc.isFirstChunk e = true \/ (exists k, Enc.key e = Some k) ->
  16383 < Buffer.len P <= 65535 ->
  exists e' k n0 n1,
    Enc._transform crypto e random P
    = (e',
       (if Enc.isFirstChunk e then [Enc.Push random] else [])
         ++ [Enc.Seal (Methods.algorithm (Enc.method e)) k n0
                      (be16 (Buffer.len P));
             Enc.Seal (Methods.algorithm (Enc.method e)) k n1 P;
             Enc.Push (frame_of crypto (Methods.algorithm (Enc.method e))
                                k n0 n1 (be16 (Buffer.len P)) P)],
       None).
Proof.
  intros Hready Hlen.
  destruct (Enc.isFirstChunk e) eqn:Hfirst.
  - rewrite enc_transform_first by assumption.
    rewrite (enc_transform_running crypto
               (Enc.set_isFirstChunk
                  (Enc.initializeEncryption crypto e random) false)
               _ random P eq_refl eq_refl) by lia.
    eexists _, _, _, _. reflexivity.
  - destruct Hready as [Hf|[k Hk]]; [discriminate|].
    rewrite (enc_transform_running crypto e k random P Hfirst Hk) by lia.
    eexists _, _, _, _. reflexivity.
Qed.

Lemma C2_witness :
  exists e' k n0 n1,
    Enc._transform Toy.crypto encryptor1 salt0 (replicate (Z.to_nat 16384) x41)
    = (e',
       (if Enc.isFirstChunk encryptor1 then [Enc.Push salt0] else [])
         ++ [Enc.Seal (Methods.algorithm (Enc.method encryptor1)) k n0
                      (be16 (Buffer.len (replicate (Z.to_nat 16384) x41)));
             Enc.Seal (Methods.algorithm (Enc.method encryptor1)) k n1
                      (replicate (Z.to_nat 16384) x41);
             Enc.Push (frame_of Toy.crypto
                         (Methods.algorithm (Enc.method encryptor1))
                         k n0 n1 (be16 (Buffer.len (replicate (Z.to_nat 16384) x41)))
                         (replicate (Z.to_nat 16384) x41))],
       None).
Proof.
  apply (C2_one_frame_per_write Toy.crypto encryptor1 salt0
           (replicate (Z.to_nat 16384) x41)).
  - right. exists key0. reflexivity.
  - unfold Buffer.len. rewrite length_replicate. lia.
Defined.

(** ** C8: a failed open ends the tunnel *)

(** C8.  Let the bytes [before] take the decryptor of a tunnel to a frame
    boundary, and let what the remote sends after them start with a length
    field or a payload the decipher refuses, followed by anything.  However
    all these bytes are cut into buffers: the decryptor hands an
    authentication error to its callback; it has pushed what [before] made
    it push and nothing else, so nothing from the refused chunk and nothing
    from what follows it; were it written to again it would fail again and
    push nothing; and the tunnel, after writing to the client the buffers
    that were pushed and are not empty (a buffer of length 0 is pushed for
    a verified frame of length 0, and [pipe] writes nothing for it),
    destroys the client socket and the remote socket. *)
Theorem C8_open_failure_is_fatal
    (crypto : NodeCrypto) (tunnel : ShadowsocksLocal.Tunnel)
    (d1 : Dec.t) (k before stream : bytes) (out1 : list bytes)
    (chunks : list bytes) :
  well_formed (ShadowsocksLocal.decryptor tunnel) ->
  ShadowsocksLocal.decryptorFailed tunnel = false ->
  Dec._transform crypto (ShadowsocksLocal.decryptor tunnel) before
  = (d1, out1, None) ->
  at_frame_boundary d1 k ->
  open_fails crypto d1 k stream ->
  concat chunks = before ++ stream ->
  (exists d' e,
      Dec.write_all crypto (ShadowsocksLocal.decryptor tunnel) chunks
      = (d', out1, Some e)
      /\ (e = Aead.AuthLength \/ e = Aead.AuthPayload)
      /\ forall later,
           Dec._transform crypto d' later = (more d' later, [], Some e))
  /\ snd (ShadowsocksLocal.server_stream crypto tunnel chunks)
     = map ShadowsocksLocal.ClientWrite (ShadowsocksLocal.piped out1)
         ++ [ShadowsocksLocal.LogError; ShadowsocksLocal.ClientDestroy;
             ShadowsocksLocal.ServerDestroy].
Proof.
  intros Hwf Hf Hbefore Hb Hfails Hcat.
  destruct (transform_keeps crypto _ _ _ _ _ Hwf Hbefore) as [Hwf1 _].
  destruct (dec_transform_rejects crypto d1 k stream Hwf1 Hb Hfails)
    as (d2 & e & Ht & He).
  assert (Hne : stream <> []).
  { destruct Hfails as [el ? ? Hel|el ? ? ? ? ? Hel];
      destruct el; try discriminate Hel; discriminate. }
  destruct chunks as [|c cs].
  { simpl in Hcat. symmetry in Hcat. apply app_eq_nil in Hcat.
    destruct Hcat as [_ Hs]. contradiction. }
  pose proof (write_all_concat crypto cs _ c Hwf) as Hobs.
  rewrite Hcat, (transform_more crypto _ _ _ _ _ _ Hwf Hbefore), Ht in Hobs.
  destruct (Dec.write_all crypto (ShadowsocksLocal.decryptor tunnel) (c :: cs))
    as [[d' out] r] eqn:Hw.
  unfold observe in Hobs. cbn [fst snd] in Hobs.
  rewrite app_nil_r in Hobs. injection Hobs as -> ->.
  split.
  { exists d', e. split; [reflexivity|]. split; [exact He|].
    exact (write_all_stays_failed crypto _ _ _ _ _ Hwf Hw). }
  rewrite (server_stream_write_all crypto (c :: cs) tunnel d' out1 (Some e)
             Hf Hw).
  reflexivity.
Qed.

Lemma C8_witness :
  (exists d' e,
      Dec.write_all Toy.crypto (ShadowsocksLocal.decryptor tunnel0)
        [take 20 good_wire; drop 20 good_wire ++ [x00];
         x00 :: replicate 10 x00; replicate 6 x00 ++ [x01; x02]]
      = (d', [[x68; x69]], Some e)
      /\ (e = Aead.AuthLength \/ e = Aead.AuthPayload)
      /\ forall later,
           Dec._transform Toy.crypto d' later
           = (more d' later, [], Some e))
  /\ snd (ShadowsocksLocal.server_stream Toy.crypto tunnel0
            [take 20 good_wire; drop 20 good_wire ++ [x00];
             x00 :: replicate 10 x00; replicate 6 x00 ++ [x01; x02]])
     = map ShadowsocksLocal.ClientWrite
           (ShadowsocksLocal.piped [[x68; x69]])
         ++ [ShadowsocksLocal.LogError; ShadowsocksLocal.ClientDestroy;
             ShadowsocksLocal.ServerDestroy].
Proof.
  apply (C8_open_failure_is_fatal Toy.crypto tunnel0
           (fst (fst (Dec._transform Toy.crypto decryptor0 good_wire)))
           key0 good_wire
           ([x00; x00] ++ replicate 16 x00 ++ [x01; x02])).
  - unfold well_formed. simpl. lia.
  - reflexivity.
  - vm_compute. reflexivity.
  - vm_compute. auto.
  - apply fails_on_length; vm_compute; reflexivity.
  - vm_compute. reflexivity.
Defined.

(** ** C10: a failed length field leaves the decryptor as it was *)

(** C10.  When [_transform] ends with the length authentication error, the
    round that failed started in some state [pre] that the loop had come
    to, and the [this] it leaves is [pre] itself: still expecting a length,
    the carry buffer still holding the unconsumed bytes with the whole
    length field at their head, the nonce and the chunk counter those of
    before the attempt. *)
Theorem C10_length_failure_leaves_state
    (crypto : NodeCrypto) (this this' : Dec.t) (chunk : bytes)
    (out : list bytes) :
  Dec._transform crypto this chunk = (this', out, Some Aead.AuthLength) ->
  exists pre,
    rounds_to crypto (loop_entry crypto this chunk) out pre
    /\ Dec.length_round crypto pre = (this', Dec.Throw Aead.AuthLength)
    /\ Dec.expectingLength pre = true
    /\ 2 + Methods.tagSize (Dec.methodInfo pre) <= Buffer.len (Dec.buffer pre)
    /\ this' = pre
    /\ Dec.buffer this' = Dec.buffer pre
    /\ Dec.nonce this' = Dec.nonce pre
    /\ Dec.chunkId this' = Dec.chunkId pre.
Proof.
  intros H. destruct (transform_throws crypto _ _ _ _ _ H) as [Hto Hround].
  destruct (round_throws_length crypto _ _ Hround) as (Hexp & Hlen & Hl).
  exists this'. repeat split; assumption.
Qed.

Lemma C10_witness :
  exists pre,
    rounds_to Toy.crypto
      (loop_entry Toy.crypto decryptor0 (salt0 ++ replicate 18 x00)) [] pre
    /\ Dec.length_round Toy.crypto pre
       = (more decryptor1 (replicate 18 x00), Dec.Throw Aead.AuthLength)
    /\ Dec.expectingLength pre = true
    /\ 2 + Methods.tagSize (Dec.methodInfo pre) <= Buffer.len (Dec.buffer pre)
    /\ more decryptor1 (replicate 18 x00) = pre
    /\ Dec.buffer (more decryptor1 (replicate 18 x00)) = Dec.buffer pre
    /\ Dec.nonce (more decryptor1 (replicate 18 x00)) = Dec.nonce pre
    /\ Dec.chunkId (more decryptor1 (replicate 18 x00)) = Dec.chunkId pre.
Proof.
  apply (C10_length_failure_leaves_state Toy.crypto decryptor0).
  vm_compute. reflexivity.
Defined.

(** ** C4: the greeting *)

(** C4, the code at a greeting that does not offer 'no authentication':
    version 5, one method, 0x02 (username and password).  The methods are
    never read: the reply is [05 00] and the connection goes on to the
    request, where the claim has [05 FF] and a close. *)
Theorem C4_greeting_without_no_auth :
  ShadowsocksLocal.handshakeHandler [] [x05; x01; x02]
  = ([x05; x01; x02],
     [ShadowsocksLocal.RemoveListener;
      ShadowsocksLocal.ClientWrite [x05; x00];
      ShadowsocksLocal.HandleSocksRequest])
  /\ Buffer.slice [x05; x01; x02] 2 3 = [x02]
  /\ ~ In x00 [x02].
Proof.
  split; [reflexivity|]. split; [reflexivity|].
  intros [H|[]]. discriminate H.
Qed.

(** ** C5: IPv6 requests *)

(** C5, counterexample: a CONNECT request with ATYP 4.  The handler sends
    no reply, does not destroy the connection, and hands the 19 bytes
    from ATYP to the port to [connectToServer]. *)
Lemma C5_counterexample :
  ShadowsocksLocal.requestHandler []
    ([x05; x01; x00; x04] ++ replicate 16 x11 ++ [x00; x50])
  = ([x05; x01; x00; x04] ++ replicate 16 x11 ++ [x00; x50],
     [ShadowsocksLocal.RemoveListener; ShadowsocksLocal.LogDebug;
      ShadowsocksLocal.ConnectToServer
        (x04 :: replicate 16 x11 ++ [x00; x50])]).
Proof. reflexivity. Qed.

(** C5, as amended.  When a SOCKS5 request carries ATYP 4 and its 22 bytes
    have arrived, the client sends no reply and does not close: it hands
    the 19-byte record ATYP, address, port to [connectToServer], and once
    the remote connection is made that record is the first payload the
    encryptor seals and sends, after the salt, while the client gets the
    success reply. *)
Theorem C5_ipv6_request_is_forwarded
    (crypto : NodeCrypto) (requestBuffer data : bytes)
    (method password : string) (info : Methods.MethodInfo) (random : bytes) :
  Buffer.get (requestBuffer ++ data) 0 = Some 5 ->
  Buffer.get (requestBuffer ++ data) 1 = Some 1 ->
  Buffer.get (requestBuffer ++ data) 2 = Some 0 ->
  Buffer.get (requestBuffer ++ data) 3 = Some 4 ->
  22 <= Buffer.len (requestBuffer ++ data) ->
  Methods.AEAD_METHODS method = Some info ->
  ShadowsocksLocal.requestHandler requestBuffer data
  = (requestBuffer ++ data,
     [ShadowsocksLocal.RemoveListener; ShadowsocksLocal.LogDebug;
      ShadowsocksLocal.ConnectToServer
        (Buffer.slice (requestBuffer ++ data) 3 22)])
  /\ Buffer.len (Buffer.slice (requestBuffer ++ data) 3 22) = 19
  /\ Buffer.get (Buffer.slice (requestBuffer ++ data) 3 22) 0 = Some 4
  /\ let record := Buffer.slice (requestBuffer ++ data) 3 22 in
     let alg := Methods.algorithm method in
     let k := Methods.deriveKey crypto password random
                                (Methods.keySize info) in
     let frame :=
       frame_of crypto alg k (nonce_of 0) (nonce_of 1) (be16 19) record in
     exists tunnel,
       ShadowsocksLocal.on_connect crypto method password random record
       = Some (tunnel,
               [Enc.Push random;
                Enc.Seal alg k (nonce_of 0) (be16 19);
                Enc.Seal alg k (nonce_of 1) record;
                Enc.Push frame],
               [ShadowsocksLocal.LogDebug;
                ShadowsocksLocal.ClientWrite (ShadowsocksLocal.reply x00);
                ShadowsocksLocal.ServerWrite random;
                ShadowsocksLocal.ServerWrite frame]).
Proof.
  intros H0 H1 H2 H3 Hlen Hinfo.
  set (buf := requestBuffer ++ data) in *.
  assert (Hslice : Buffer.slice buf 3 22 = take 19 (drop 3 buf)).
  { rewrite slice_take_drop by lia. reflexivity. }
  assert (Hl19 : Buffer.len (Buffer.slice buf 3 22) = 19).
  { rewrite Hslice. unfold Buffer.len in *.
    rewrite length_take, length_drop. lia. }
  split; [|split; [exact Hl19|split]].
  - unfold ShadowsocksLocal.requestHandler. fold buf.
    destruct (Z.ltb_spec (Buffer.len buf) 4); [lia|].
    rewrite H0, H1, H2, H3.
    rewrite !bool_decide_eq_true_2 by reflexivity.
    cbn [negb orb ShadowsocksLocal.addrLength_of].
    destruct (Z.ltb_spec (Buffer.len buf) (4 + 16 + 2)); [lia|].
    reflexivity.
  - rewrite Hslice. unfold Buffer.get in *. simpl in *.
    rewrite lookup_take_lt by lia. rewrite lookup_drop. exact H3.
  - cbv zeta.
    set (e0 := {| Enc.method := method; Enc.password := password;
                  Enc.methodInfo := info; Enc.salt := None;
                  Enc.key := None;
                  Enc.nonce := Buffer.alloc (Methods.nonceSize info) x00;
                  Enc.isFirstChunk := true; Enc.chunkId := 0 |}).
    assert (Hnew : Enc.new method password = Some e0).
    { unfold Enc.new. rewrite Hinfo. reflexivity. }
    unfold ShadowsocksLocal.on_connect. rewrite Hnew.
    unfold Dec.new. rewrite Hinfo.
    rewrite (enc_transform_first crypto e0) by reflexivity.
    rewrite (initialized_running crypto method password e0 random Hnew).
    rewrite (running_transform crypto
               (Enc.set_isFirstChunk
                  (Enc.initializeEncryption crypto e0 random) false)
               (Methods.deriveKey crypto password random
                                  (Methods.keySize info))
               random _ 0 eq_refl eq_refl) by lia.
    rewrite Hl19. eexists. reflexivity.
Qed.

Lemma C5_witness :
  ShadowsocksLocal.requestHandler [x05; x01]
    ([x00; x04] ++ replicate 16 x11 ++ [x00; x50])
  = ([x05; x01] ++ [x00; x04] ++ replicate 16 x11 ++ [x00; x50],
     [ShadowsocksLocal.RemoveListener; ShadowsocksLocal.LogDebug;
      ShadowsocksLocal.ConnectToServer
        (Buffer.slice
           ([x05; x01] ++ [x00; x04] ++ replicate 16 x11 ++ [x00; x50])
           3 22)])
  /\ Buffer.len
       (Buffer.slice
          ([x05; x01] ++ [x00; x04] ++ replicate 16 x11 ++ [x00; x50]) 3 22)
     = 19
  /\ Buffer.get
       (Buffer.slice
          ([x05; x01] ++ [x00; x04] ++ replicate 16 x11 ++ [x00; x50]) 3 22)
       0 = Some 4
  /\ let record :=
       Buffer.slice
         ([x05; x01] ++ [x00; x04] ++ replicate 16 x11 ++ [x00; x50]) 3 22 in
     let alg := Methods.algorithm "aes-128-gcm" in
     let k := Methods.deriveKey Toy.crypto "pw" salt0
                                (Methods.keySize aes128) in
     let frame :=
       frame_of Toy.crypto alg k (nonce_of 0) (nonce_of 1) (be16 19)
                record in
     exists tunnel,
       ShadowsocksLocal.on_connect Toy.crypto "aes-128-gcm" "pw" salt0 record
       = Some (tunnel,
               [Enc.Push salt0;
                Enc.Seal alg k (nonce_of 0) (be16 19);
                Enc.Seal alg k (nonce_of 1) record;
                Enc.Push frame],
               [ShadowsocksLocal.LogDebug;
                ShadowsocksLocal.ClientWrite (ShadowsocksLocal.reply x00);
                ShadowsocksLocal.ServerWrite salt0;
                ShadowsocksLocal.ServerWrite frame]).
Proof.
  apply (C5_ipv6_request_is_forwarded Toy.crypto [x05; x01]
           ([x00; x04] ++ replicate 16 x11 ++ [x00; x50])
           "aes-128-gcm" "pw" aes128 salt0); try reflexivity.
Defined.

(** ** C6: the nonces of a session *)

Lemma encryptor1_running : encryptor1 = running encryptor1 0.
Proof. reflexivity. Qed.

(** C6, the code in a long session.  The first write of a session runs its
    two AEAD operations under the little-endian encodings of 0 and 1.
    After 2^30 one-byte writes the counter is 2^31, and the next two
    operations run under nonces that are not the encodings of 2^31 and
    2^31 + 1: [n >> 8] has propagated the sign bit into bytes 4 to 7.
    After 2^31 writes the counter is 2^32, and the next two operations run
    under the nonces of the first two operations of the session again. *)
Theorem C6_nonces_wrap_at_32_bits :
  nonces (snd (fst (Enc._transform Toy.crypto encryptor0 salt0 [x41])))
  = [le_bytes 12 0; le_bytes 12 1]
  /\ Enc.chunkId (writes Toy.crypto salt0 [x41] (2 ^ 30) encryptor0) = 2 ^ 31
  /\ nonces (snd (fst (Enc._transform Toy.crypto
                         (writes Toy.crypto salt0 [x41] (2 ^ 30) encryptor0)
                         salt0 [x41])))
     = [[x00; x00; x00; x80; xff; xff; xff; xff; x00; x00; x00; x00];
        [x01; x00; x00; x80; xff; xff; xff; xff; x00; x00; x00; x00]]
  /\ le_bytes 12 (2 ^ 31)
     = [x00; x00; x00; x80; x00; x00; x00; x00; x00; x00; x00; x00]
  /\ Enc.chunkId (writes Toy.crypto salt0 [x41] (2 ^ 31) encryptor0) = 2 ^ 32
  /\ nonces (snd (fst (Enc._transform Toy.crypto
                         (writes Toy.crypto salt0 [x41] (2 ^ 31) encryptor0)
                         salt0 [x41])))
     = nonces (snd (fst (Enc._transform Toy.crypto encryptor0 salt0 [x41]))).
Proof.
  assert (Hlen : 0 < Buffer.len [x41] <= 65535) by (unfold Buffer.len; simpl; lia).
  pose proof (writes_running Toy.crypto "aes-128-gcm" "pw" encryptor0 salt0
                [x41] new_encryptor0 Hlen) as Hw.
  fold encryptor1 in Hw.
  split; [vm_compute; reflexivity|].
  rewrite (Hw (2 ^ 30)%N) by (vm_compute; try reflexivity; discriminate).
  rewrite (Hw (2 ^ 31)%N) by (vm_compute; try reflexivity; discriminate).
  rewrite !(running_transform Toy.crypto encryptor1 key0 salt0 [x41] _
              eq_refl eq_refl) by (try exact Hlen; vm_compute; discriminate).
  split; [reflexivity|]. split; [vm_compute; reflexivity|].
  split; [vm_compute; reflexivity|]. split; [reflexivity|].
  vm_compute. reflexivity.
Qed.

(* ===================================================================== *)
(** * Further properties of the code *)
(* ===================================================================== *)

(** ** The master key *)

Section MasterKey.
Import Methods.
Context (crypto : NodeCrypto).
Hypothesis md5_length :
  forall data, length (hash_digest crypto "md5" data) = 16%nat.

Lemma spec_EVP_length (pw : bytes) (keyLen : Z) :
  0 <= keyLen ->
  length (spec_EVP_BytesToKey crypto pw (Z.to_nat (JS.ceil_div keyLen 16))
                              keyLen)
  = Z.to_nat keyLen.
Proof.
  intros Hk. destruct (ceil_div_16 keyLen Hk) as [H0 H1].
  unfold spec_EVP_BytesToKey.
  rewrite length_take, (spec_digests_length crypto md5_length). lia.
Qed.

(** X1. [EVP_BytesToKey(password, keyLen)] returns exactly [keyLen] bytes,
    for every [keyLen >= 0], also one that is not a multiple of 16 and
    also 0. *)
Theorem X1_EVP_BytesToKey_length (password : string) (keyLen : Z) :
  0 <= keyLen ->
  Buffer.len (EVP_BytesToKey crypto password keyLen) = keyLen.
Proof.
  intros Hk. rewrite (EVP_BytesToKey_digests crypto md5_length) by assumption.
  unfold Buffer.len. rewrite spec_EVP_length by assumption. lia.
Qed.

(** X2. The key stretched to a shorter length is a prefix of the key
    stretched to a longer one: the 16-byte master key of ['aes-128-gcm'] is
    the first half of the 32-byte master key the other two methods get from
    the same password. *)
Theorem X2_EVP_BytesToKey_prefix (password : string) (keyLen keyLen' : Z) :
  0 <= keyLen <= keyLen' ->
  EVP_BytesToKey crypto password keyLen
  = take (Z.to_nat keyLen) (EVP_BytesToKey crypto password keyLen').
Proof.
  intros Hk.
  rewrite !(EVP_BytesToKey_digests crypto md5_length) by lia.
  destruct (ceil_div_16 keyLen ltac:(lia)) as [H0 H1].
  destruct (ceil_div_16 keyLen' ltac:(lia)) as [H0' H1'].
  assert (Hr : JS.ceil_div keyLen 16 <= JS.ceil_div keyLen' 16).
  { unfold JS.ceil_div. apply Z.div_le_mono; lia. }
  rewrite <- (spec_EVP_more_rounds crypto md5_length _
                (Z.to_nat (JS.ceil_div keyLen 16))
                (Z.to_nat (JS.ceil_div keyLen' 16))) by lia.
  unfold spec_EVP_BytesToKey. rewrite take_take. f_equal. lia.
Qed.

End MasterKey.

Lemma X1_witness :
  Buffer.len (Methods.EVP_BytesToKey Toy.crypto "pass" 24) = 24.
Proof.
  apply (X1_EVP_BytesToKey_length Toy.crypto toy_md5_length "pass" 24). lia.
Defined.

Lemma X2_witness :
  Methods.EVP_BytesToKey Toy.crypto "pass" 16
  = take (Z.to_nat 16) (Methods.EVP_BytesToKey Toy.crypto "pass" 32).
Proof.
  apply (X2_EVP_BytesToKey_prefix Toy.crypto toy_md5_length "pass" 16 32).
  lia.
Defined.

(** ** [encryptAEAD] and [decryptAEAD] *)

(** X3. For a supported method, [encryptAEAD] returns two zero bytes, the
    ciphertext and the tag, [len(data) + 2 + tagSize] bytes in all, and
    [decryptAEAD], with a decipher made from the same method, key and
    nonce, gives [data] back from that output without its first two bytes. *)
Theorem X3_encryptAEAD_decryptAEAD
    (crypto : NodeCrypto) (method : string) (key nonce data : bytes)
    (c d : Cipher.t) :
  aead_correct crypto ->
  Cipher.createAEADCipher method key nonce true = Some c ->
  Cipher.createAEADCipher method key nonce false = Some d ->
  Buffer.slice (Cipher.encryptAEAD crypto data c) 0 2 = [x00; x00]
  /\ Buffer.len (Cipher.encryptAEAD crypto data c)
     = Buffer.len data + 2 + Cipher.authTagLength c
  /\ Cipher.decryptAEAD crypto
       (Buffer.slice_from (Cipher.encryptAEAD crypto data c) 2) d
       (Cipher.authTagLength d)
     = Some data.
Proof.
  intros Hc Hmk Hmk'. unfold Cipher.createAEADCipher in *.
  destruct (Methods.AEAD_METHODS method) as [info|] eqn:Hinfo;
    [|discriminate].
  destruct (table_sizes _ _ Hinfo) as (Htag & _ & _).
  injection Hmk as <-. injection Hmk' as <-.
  cbv zeta. unfold Cipher.encryptAEAD. cbn [Cipher.alg Cipher.key Cipher.iv
    Cipher.authTagLength]. rewrite Htag.
  set (alg := Methods.algorithm method).
  set (ct := cipher_update crypto alg key nonce data).
  set (tg := cipher_getAuthTag crypto alg key nonce data).
  assert (Hct : Buffer.len ct = Buffer.len data).
  { unfold Buffer.len, ct. rewrite (sealed_length _ Hc). reflexivity. }
  assert (Htg : Buffer.len tg = 16).
  { unfold Buffer.len, tg. rewrite (tag_length _ Hc). reflexivity. }
  change (Buffer.alloc 2 x00) with [x00; x00]. cbn [app].
  change (x00 :: x00 :: ct ++ tg) with ([x00; x00] ++ ct ++ tg).
  split; [apply slice_head; reflexivity|]. split.
  - rewrite !len_app, Hct, Htg. unfold Buffer.len. simpl. lia.
  - rewrite (slice_from_tail [x00; x00]) by reflexivity.
    unfold Cipher.decryptAEAD.
    cbn [Cipher.alg Cipher.key Cipher.iv Cipher.authTagLength].
    rewrite len_app, Htg.
    replace (Buffer.len ct + 16 - 16) with (Buffer.len ct) by lia.
    rewrite (slice_head ct tg) by reflexivity.
    rewrite (slice_from_tail ct tg) by reflexivity.
    subst ct tg alg.
    rewrite (verify_sealed _ Hc), (open_sealed _ Hc), app_nil_r.
    reflexivity.
Qed.

Lemma X3_witness :
  Buffer.slice
    (Cipher.encryptAEAD Toy.crypto [x68; x69]
       {| Cipher.alg := "aes-128-gcm"; Cipher.key := key0;
          Cipher.iv := nonce_of 0; Cipher.authTagLength := 16 |}) 0 2
  = [x00; x00]
  /\ Buffer.len
       (Cipher.encryptAEAD Toy.crypto [x68; x69]
          {| Cipher.alg := "aes-128-gcm"; Cipher.key := key0;
             Cipher.iv := nonce_of 0; Cipher.authTagLength := 16 |})
     = Buffer.len [x68; x69] + 2
       + Cipher.authTagLength
           {| Cipher.alg := "aes-128-gcm"; Cipher.key := key0;
              Cipher.iv := nonce_of 0; Cipher.authTagLength := 16 |}
  /\ Cipher.decryptAEAD Toy.crypto
       (Buffer.slice_from
          (Cipher.encryptAEAD Toy.crypto [x68; x69]
             {| Cipher.alg := "aes-128-gcm"; Cipher.key := key0;
                Cipher.iv := nonce_of 0; Cipher.authTagLength := 16 |}) 2)
       {| Cipher.alg := "aes-128-gcm"; Cipher.key := key0;
          Cipher.iv := nonce_of 0; Cipher.authTagLength := 16 |}
       (Cipher.authTagLength
          {| Cipher.alg := "aes-128-gcm"; Cipher.key := key0;
             Cipher.iv := nonce_of 0; Cipher.authTagLength := 16 |})
     = Some [x68; x69].
Proof.
  apply (X3_encryptAEAD_decryptAEAD Toy.crypto "aes-128-gcm" key0
           (nonce_of 0) [x68; x69] _ _ toy_aead_correct); reflexivity.
Defined.

(** ** The nonce, for every value of the counter *)

Lemma ToInt32_range (z : Z) : - 2 ^ 31 <= JS.ToInt32 z < 2 ^ 31.
Proof.
  unfold JS.ToInt32.
  pose proof (Z.mod_pos_bound (z + 2 ^ 31) (2 ^ 32) ltac:(lia)). lia.
Qed.

Lemma band_255_int32 (z : Z) :
  - 2 ^ 31 <= z < 2 ^ 31 -> JS.band z 255 = z mod 256.
Proof.
  intros Hz. unfold JS.band. rewrite (ToInt32_small z) by lia.
  rewrite (ToInt32_small 255) by lia.
  change 255 with (Z.ones 8). rewrite Z.land_ones by lia. reflexivity.
Qed.

Lemma sar_8_int32 (z : Z) :
  - 2 ^ 31 <= z < 2 ^ 31 -> JS.sar z 8 = z / 256.
Proof.
  intros Hz. unfold JS.sar. rewrite ToInt32_small by lia.
  change (8 mod 32) with 8. rewrite Z.shiftr_div_pow2 by lia. reflexivity.
Qed.

Lemma div_256_int32 (z : Z) :
  - 2 ^ 31 <= z < 2 ^ 31 -> - 2 ^ 31 <= z / 256 < 2 ^ 31.
Proof.
  intros Hz. split.
  - apply Z.div_le_lower_bound; lia.
  - apply Z.div_lt_upper_bound; lia.
Qed.

Lemma band_ToInt32 (c : Z) : JS.band c 255 = JS.band (JS.ToInt32 c) 255.
Proof.
  unfold JS.band. rewrite (ToInt32_small (JS.ToInt32 c)); [reflexivity|].
  apply ToInt32_range.
Qed.

Lemma sar_ToInt32 (c : Z) : JS.sar c 8 = JS.sar (JS.ToInt32 c) 8.
Proof.
  unfold JS.sar. rewrite (ToInt32_small (JS.ToInt32 c)); [reflexivity|].
  apply ToInt32_range.
Qed.

(** The nonce for any counter: the counter taken as a signed 32-bit
    integer, sign-extended to eight little-endian bytes, then four zeros. *)
Lemma nonce_of_signed (c : Z) :
  nonce_of c = le_bytes 8 (JS.ToInt32 c) ++ replicate 4 x00.
Proof.
  unfold nonce_of. cbn [Aead.nonce_for Nat.ltb Nat.leb].
  rewrite (band_ToInt32 c), (sar_ToInt32 c).
  pose proof (ToInt32_range c) as H0. set (s := JS.ToInt32 c) in *.
  pose proof (div_256_int32 s H0) as H1.
  pose proof (div_256_int32 _ H1) as H2.
  pose proof (div_256_int32 _ H2) as H3.
  pose proof (div_256_int32 _ H3) as H4.
  pose proof (div_256_int32 _ H4) as H5.
  pose proof (div_256_int32 _ H5) as H6.
  pose proof (div_256_int32 _ H6) as H7.
  rewrite (sar_8_int32 s) by assumption.
  rewrite (sar_8_int32 (s / 256)) by assumption.
  rewrite (sar_8_int32 (s / 256 / 256)) by assumption.
  rewrite (sar_8_int32 (s / 256 / 256 / 256)) by assumption.
  rewrite (sar_8_int32 (s / 256 / 256 / 256 / 256)) by assumption.
  rewrite (sar_8_int32 (s / 256 / 256 / 256 / 256 / 256)) by assumption.
  rewrite (sar_8_int32 (s / 256 / 256 / 256 / 256 / 256 / 256))
    by assumption.
  rewrite !band_255_int32 by assumption.
  unfold Buffer.set. cbn [list_insert replicate le_bytes app].
  rewrite !byte_of_Z_mod. reflexivity.
Qed.

Lemma ToInt32_period (c : Z) : JS.ToInt32 (c + 2 ^ 32) = JS.ToInt32 c.
Proof.
  unfold JS.ToInt32.
  replace (c + 2 ^ 32 + 2 ^ 31) with (c + 2 ^ 31 + 1 * 2 ^ 32) by lia.
  rewrite Z.mod_add by lia. reflexivity.
Qed.

Lemma ToInt32_inj (c c' : Z) :
  0 <= c < 2 ^ 32 -> 0 <= c' < 2 ^ 32 ->
  JS.ToInt32 c = JS.ToInt32 c' -> c = c'.
Proof.
  unfold JS.ToInt32. intros Hc Hc' H.
  assert (Hm : (c + 2 ^ 31) mod 2 ^ 32 = (c' + 2 ^ 31) mod 2 ^ 32) by lia.
  destruct (Z.lt_ge_cases c (2 ^ 31)); destruct (Z.lt_ge_cases c' (2 ^ 31)).
  - rewrite !Z.mod_small in Hm by lia. lia.
  - rewrite (Z.mod_small (c + 2 ^ 31)) in Hm by lia.
    replace (c' + 2 ^ 31) with (c' - 2 ^ 31 + 1 * 2 ^ 32) in Hm by lia.
    rewrite Z.mod_add, Z.mod_small in Hm by lia. lia.
  - rewrite (Z.mod_small (c' + 2 ^ 31)) in Hm by lia.
    replace (c + 2 ^ 31) with (c - 2 ^ 31 + 1 * 2 ^ 32) in Hm by lia.
    rewrite Z.mod_add, Z.mod_small in Hm by lia. lia.
  - replace (c + 2 ^ 31) with (c - 2 ^ 31 + 1 * 2 ^ 32) in Hm by lia.
    replace (c' + 2 ^ 31) with (c' - 2 ^ 31 + 1 * 2 ^ 32) in Hm by lia.
    rewrite !Z.mod_add, !Z.mod_small in Hm by lia. lia.
Qed.

(** Counters in one window of 2^32 values have distinct nonces. *)
Lemma nonce_of_inj (c c' : Z) :
  0 <= c < 2 ^ 32 -> 0 <= c' < 2 ^ 32 ->
  nonce_of c = nonce_of c' -> c = c'.
Proof.
  intros Hc Hc' H. rewrite !nonce_of_signed in H.
  apply app_inv_tail in H. apply (f_equal le_value) in H.
  rewrite !le_value_le_bytes in H.
  change (256 ^ Z.of_nat 8) with (2 ^ 64) in H.
  pose proof (ToInt32_range c) as Hs. pose proof (ToInt32_range c') as Hs'.
  apply ToInt32_inj; try assumption.
  set (s := JS.ToInt32 c) in *. set (s' := JS.ToInt32 c') in *.
  assert (Hmod : forall z, - 2 ^ 31 <= z < 2 ^ 31 ->
                   z mod 2 ^ 64 = if z <? 0 then z + 2 ^ 64 else z).
  { intros z Hz. destruct (Z.ltb_spec z 0).
    - replace z with (z + 2 ^ 64 + (-1) * 2 ^ 64) at 1 by lia.
      rewrite Z.mod_add, Z.mod_small by lia. reflexivity.
    - apply Z.mod_small. lia. }
  rewrite (Hmod s Hs), (Hmod s' Hs') in H.
  destruct (Z.ltb_spec s 0); destruct (Z.ltb_spec s' 0); lia.
Qed.

(** X4. [updateNonce], of the encryptor and of the decryptor alike, on a
    12-byte nonce buffer: the new nonce is the new counter reduced to a
    signed 32-bit integer, written as eight little-endian bytes with the
    sign extended, followed by four zero bytes, whatever the buffer held
    before. *)
Theorem X4_updateNonce_closed_form (e : Enc.t) (d : Dec.t) :
  length (Enc.nonce e) = 12%nat -> length (Dec.nonce d) = 12%nat ->
  Enc.nonce (Enc.updateNonce e)
  = le_bytes 8 (JS.ToInt32 (JS.incr (Enc.chunkId e))) ++ replicate 4 x00
  /\ Dec.nonce (Dec.updateNonce d)
     = le_bytes 8 (JS.ToInt32 (JS.incr (Dec.chunkId d))) ++ replicate 4 x00.
Proof.
  intros He Hd. unfold Enc.updateNonce, Dec.updateNonce. cbv zeta.
  cbn [Enc.nonce Enc.set_nonce Dec.nonce Dec.set_nonce].
  rewrite !nonce_for_overwrites by assumption.
  rewrite !nonce_of_signed. auto.
Qed.

Lemma X4_witness :
  Enc.nonce (Enc.updateNonce (running encryptor1 (2 ^ 31 + 4)))
  = le_bytes 8 (JS.ToInt32
                  (JS.incr (Enc.chunkId (running encryptor1 (2 ^ 31 + 4)))))
      ++ replicate 4 x00
  /\ Dec.nonce (Dec.updateNonce decryptor1)
     = le_bytes 8 (JS.ToInt32 (JS.incr (Dec.chunkId decryptor1)))
         ++ replicate 4 x00.
Proof.
  apply (X4_updateNonce_closed_form (running encryptor1 (2 ^ 31 + 4))
           decryptor1); reflexivity.
Defined.

Section NonceReuse.
Import Methods Aead.
Context (crypto : NodeCrypto).

(** X5. In a session of the encryptor, the write that comes 2^32 AEAD
    operations after another runs its two operations under the same two
    nonces, the key being that of the session: every nonce is used again
    2^32 operations later, for as long as the counter stays exact.  A
    buffer written again then goes out as the very same frame. *)
Theorem X5_nonces_repeat_every_2_32
    (e : Enc.t) (k random chunk chunk' : bytes) (ops : Z) :
  Enc.isFirstChunk e = false -> Enc.key e = Some k ->
  0 <= ops -> ops + 2 ^ 32 + 2 <= 2 ^ 53 ->
  0 < Buffer.len chunk <= 65535 -> 0 < Buffer.len chunk' <= 65535 ->
  nonces (snd (fst (Enc._transform crypto (running e (ops + 2 ^ 32))
                                   random chunk')))
  = nonces (snd (fst (Enc._transform crypto (running e ops) random chunk)))
  /\ snd (fst (Enc._transform crypto (running e (ops + 2 ^ 32))
                              random chunk))
     = snd (fst (Enc._transform crypto (running e ops) random chunk)).
Proof.
  intros Hfirst Hk Hops Hmax Hlen Hlen'.
  rewrite (running_transform crypto e k random chunk ops Hfirst Hk Hops)
    by lia.
  rewrite (running_transform crypto e k random chunk' (ops + 2 ^ 32)
             Hfirst Hk) by lia.
  rewrite (running_transform crypto e k random chunk (ops + 2 ^ 32)
             Hfirst Hk) by lia.
  unfold nonces, Enc.seals. cbn [omap map fst snd].
  replace (ops + 2 ^ 32 + 1) with (ops + 1 + 2 ^ 32) by lia.
  rewrite !nonce_of_signed, !ToInt32_period. split; reflexivity.
Qed.

(** X6. A session of at most 2^31 non-empty buffers of at most 65535
    bytes, that is of at most 2^32 AEAD operations: the encryptor raises no
    error and no two operations of the session run under the same nonce. *)
Theorem X6_nonces_distinct_within_2_32
    (m pw : string) (e : Enc.t) (random : bytes) (P : list bytes) :
  Enc.new m pw = Some e ->
  Forall (fun p => 0 < Buffer.len p <= 65535) P ->
  2 * Z.of_nat (length P) <= 2 ^ 32 ->
  exists e' evs,
    Enc.write_all crypto e random P = (e', evs, None)
    /\ length (nonces evs) = (2 * length P)%nat
    /\ NoDup (nonces evs).
Proof.
  intros Hnew HP Hmax.
  assert (Hnodup : NoDup (map (fun i => nonce_of (0 + Z.of_nat i))
                              (seq 0 (2 * length P)))).
  { apply (NoDup_fmap_2_strong (fun i => nonce_of (0 + Z.of_nat i)));
      [|apply NoDup_seq].
    intros i j Hi Hj Heq. apply elem_of_seq in Hi, Hj.
    apply nonce_of_inj in Heq; lia. }
  destruct P as [|p P].
  - exists e, []. split; [reflexivity|]. split; [reflexivity|constructor].
  - assert (Hfirst : Enc.isFirstChunk e = true).
    { unfold Enc.new in Hnew. destruct (AEAD_METHODS m); [|discriminate].
      injection Hnew as <-. reflexivity. }
    rewrite (enc_write_all_first crypto e random p P Hfirst).
    set (e1 := Enc.set_isFirstChunk
                 (Enc.initializeEncryption crypto e random) false) in *.
    pose proof (initialized_running crypto m pw e random Hnew
                : e1 = running e1 0) as Hrun.
    destruct (session_nonces crypto e1 _ random (p :: P) eq_refl eq_refl HP 0
                ltac:(lia) ltac:(lia)) as (evs & Hw & Hn).
    rewrite <- Hrun in Hw. rewrite Hw.
    exists (running e1 (0 + 2 * Z.of_nat (length (p :: P)))),
           (Enc.Push random :: evs).
    split; [reflexivity|].
    change (nonces (Enc.Push random :: evs)) with (nonces evs).
    rewrite Hn. split; [|exact Hnodup].
    rewrite length_map, length_seq. reflexivity.
Qed.

End NonceReuse.

Lemma X5_witness :
  nonces (snd (fst (Enc._transform Toy.crypto
                      (running encryptor1 (6 + 2 ^ 32)) salt0 [x01; x02])))
  = nonces (snd (fst (Enc._transform Toy.crypto (running encryptor1 6)
                                     salt0 [x03])))
  /\ snd (fst (Enc._transform Toy.crypto (running encryptor1 (6 + 2 ^ 32))
                              salt0 [x03]))
     = snd (fst (Enc._transform Toy.crypto (running encryptor1 6)
                                salt0 [x03])).
Proof.
  apply (X5_nonces_repeat_every_2_32 Toy.crypto encryptor1 key0 salt0
           [x03] [x01; x02] 6); try reflexivity; unfold Buffer.len;
    simpl; lia.
Defined.

Lemma X6_witness :
  exists e' evs,
    Enc.write_all Toy.crypto encryptor0 salt0 [[x01]; [x02; x03]]
    = (e', evs, None)
    /\ length (nonces evs) = (2 * length [[x01]; [x02; x03]])%nat
    /\ NoDup (nonces evs).
Proof.
  apply (X6_nonces_distinct_within_2_32 Toy.crypto "aes-128-gcm" "pw"
           encryptor0 salt0 [[x01]; [x02; x03]]).
  - reflexivity.
  - repeat constructor; unfold Buffer.len; simpl; lia.
  - simpl. lia.
Defined.

(** ** The decryptor between writes *)

Section DecryptorState.
Import Methods Aead.
Context (crypto : NodeCrypto).

Lemma round_keeps_salt (s s' : Dec.t) (st : Dec.Step) :
  Dec.round crypto s = (s', st) ->
  Dec.salt s' = Dec.salt s /\ Dec.password s' = Dec.password s.
Proof.
  unfold Dec.round, Dec.length_round, Dec.payload_round.
  intros H; split_round H; simpl; auto.
Qed.

Lemma round_bounded (s s' : Dec.t) (st : Dec.Step) :
  Dec.payloadLength s <= 65535 -> Dec.round crypto s = (s', st) ->
  Dec.payloadLength s' <= 65535.
Proof.
  unfold Dec.round, Dec.length_round, Dec.payload_round.
  intros Hb H; split_round H; simpl; try assumption.
  eapply readUInt16BE_nonneg; eassumption.
Qed.

Lemma round_break_starved (s s' : Dec.t) :
  Dec.isFirstChunk s = false -> Dec.round crypto s = (s', Dec.Break) ->
  starved s'.
Proof.
  unfold Dec.round, Dec.length_round, Dec.payload_round, starved.
  intros Hf H. destruct (Dec.expectingLength s) eqn:He.
  - destruct (Z.ltb_spec (Buffer.len (Dec.buffer s))
                (2 + tagSize (Dec.methodInfo s))) as [Hlt|Hge].
    + injection H as <-. rewrite Hf, He. exact Hlt.
    + split_round H.
  - destruct (Z.ltb_spec (Buffer.len (Dec.buffer s))
                (Dec.payloadLength s + tagSize (Dec.methodInfo s)))
      as [Hlt|Hge].
    + injection H as <-. rewrite Hf, He. exact Hlt.
    + split_round H.
Qed.

(** What the loop leaves when it ends. *)
Lemma run_while_leaves (n : nat) :
  forall (s s' : Dec.t) (out : list bytes) (r : option Error),
    (measure s < n)%nat -> well_formed s ->
    Dec.isFirstChunk s = false -> Dec.payloadLength s <= 65535 ->
    Dec.run_while crypto s = (s', out, r) ->
    Dec.salt s' = Dec.salt s /\ Dec.password s' = Dec.password s
    /\ Dec.payloadLength s' <= 65535
    /\ (r = None -> starved s').
Proof.
  induction n as [|n IH]; intros s s' out r Hm Hwf Hf Hb H; [lia|].
  rewrite run_while_eq in H by assumption.
  destruct (Z.ltb_spec 0 (Buffer.len (Dec.buffer s))) as [Hlen|Hlen].
  - destruct (Dec.round crypto s) as [s1 [ |o|e]] eqn:Hround.
    + injection H as <- <- <-.
      pose proof (round_break_starved _ _ Hf Hround) as Hst.
      apply (proj1 (round_stops_unchanged crypto s s1)) in Hround. subst s1.
      auto.
    + destruct (Dec.run_while crypto s1) as [[t o'] r'] eqn:Hrun.
      injection H as <- <- <-.
      pose proof (round_next_measure crypto _ _ _ Hwf Hround).
      pose proof (round_next_well_formed crypto _ _ _ Hwf Hround) as Hwf1.
      pose proof (round_same_session crypto _ _ _ Hround)
        as (_ & _ & _ & Hf1).
      pose proof (round_keeps_salt _ _ _ Hround) as [Hs1 Hp1].
      pose proof (round_bounded _ _ _ Hb Hround) as Hb1.
      destruct (IH s1 t o' r' ltac:(lia) Hwf1 ltac:(congruence) Hb1 Hrun)
        as (Hs & Hp & Hbt & Hst).
      repeat split; try congruence; assumption.
    + injection H as <- <- <-.
      pose proof (proj2 (round_stops_unchanged crypto s s1) e Hround).
      subst s1. repeat split; try assumption. discriminate.
  - injection H as <- <- <-. repeat split; try assumption. intros _.
    unfold starved. rewrite Hf. destruct Hwf as (Ht & _ & Hp).
    rewrite Ht. destruct (Dec.expectingLength s); lia.
Qed.

Lemma transform_leaves (info : MethodInfo) (this this' : Dec.t)
    (chunk : bytes) (out : list bytes) (r : option Error) :
  between_writes info this ->
  Dec._transform crypto this chunk = (this', out, r) ->
  between_writes info this' /\ (r = None -> starved this').
Proof.
  intros (Hi & Hwf & Hb) H.
  pose proof (transform_keeps crypto _ _ _ _ _ Hwf H) as [Hwf' Hsame].
  rewrite transform_eq in H. cbv zeta in H.
  change (Dec.isFirstChunk (more this chunk))
    with (Dec.isFirstChunk this) in H.
  destruct (Dec.isFirstChunk this) eqn:Hfirst.
  - destruct (Z.ltb_spec (Buffer.len (Dec.buffer (more this chunk)))
                (saltSize (Dec.methodInfo (more this chunk)))) as [Hlt|Hge].
    + injection H as <- <- <-.
      repeat split; try assumption; try apply Hwf.
      intros _. unfold starved.
      change (Dec.isFirstChunk (more this chunk))
        with (Dec.isFirstChunk this).
      rewrite Hfirst. exact Hlt.
    + assert (Hwfa : well_formed (after_salt crypto (more this chunk)))
        by exact Hwf.
      destruct (run_while_leaves _ _ _ _ _ (Nat.lt_succ_diag_r _)
                  Hwfa eq_refl Hb H) as (_ & _ & Hb' & Hst).
      destruct (run_while_keeps crypto _ _ _ _ _ (Nat.lt_succ_diag_r _)
                  Hwfa H) as (_ & _ & Hi' & _).
      repeat split; try assumption; try apply Hwf'.
      rewrite <- Hi'. exact Hi.
  - assert (Hwfm : well_formed (more this chunk)) by exact Hwf.
    destruct (run_while_leaves _ _ _ _ _ (Nat.lt_succ_diag_r _)
                Hwfm Hfirst Hb H) as (_ & _ & Hb' & Hst).
    destruct (Hsame eq_refl) as (_ & Hi' & _).
    repeat split; try assumption; try apply Hwf'.
    rewrite <- Hi'. exact Hi.
Qed.

Lemma write_all_leaves (info : MethodInfo) (chunks : list bytes) :
  forall (s s' : Dec.t) (out : list bytes),
    between_writes info s -> starved s ->
    Dec.write_all crypto s chunks = (s', out, None) ->
    between_writes info s' /\ starved s'.
Proof.
  induction chunks as [|c cs IH]; intros s s' o Hbw Hst H.
  - injection H as <- <-. auto.
  - rewrite dec_write_all_cons in H.
    destruct (Dec._transform crypto s c) as [[s1 o1] [e|]] eqn:Ht;
      [discriminate|].
    destruct (Dec.write_all crypto s1 cs) as [[s2 o2] r2] eqn:Hw2.
    injection H as <- <- ->.
    destruct (transform_leaves _ _ _ _ _ _ Hbw Ht) as (Hbw1 & Hst1).
    eapply IH; eauto.
Qed.

Lemma new_decryptor_fields (m pw : string) (d : Dec.t) :
  Dec.new m pw = Some d ->
  exists info,
    AEAD_METHODS m = Some info
    /\ Dec.methodInfo d = info /\ Dec.password d = pw
    /\ Dec.isFirstChunk d = true /\ Dec.buffer d = []
    /\ Dec.key d = None /\ Dec.salt d = None
    /\ Dec.payloadLength d = 0.
Proof.
  unfold Dec.new. destruct (AEAD_METHODS m) as [info|]; [|discriminate].
  intros [= <-]. exists info. repeat split.
Qed.

(** X8. After any sequence of writes to a new decryptor that ended without
    an error, the decryptor is starved: what it waits for next (the salt,
    a length field with its tag, or the announced payload with its tag) is
    not whole in the carry buffer; so the buffer holds at most 65550
    bytes between writes. *)
Theorem X8_carry_buffer_is_starved
    (m pw : string) (d d' : Dec.t) (chunks : list bytes)
    (out : list bytes) :
  Dec.new m pw = Some d ->
  Dec.write_all crypto d chunks = (d', out, None) ->
  starved d' /\ Buffer.len (Dec.buffer d') <= 65550.
Proof.
  intros Hnew Hw.
  destruct (new_decryptor_fields _ _ _ Hnew)
    as (info & Hinfo & Hi & _ & Hf & Hbuf & _ & _ & Hp).
  destruct (table_sizes _ _ Hinfo) as (Htag & _ & Hsalt).
  pose proof (new_well_formed m pw _ Hnew) as Hwf.
  assert (Hst : starved d).
  { unfold starved. rewrite Hf, Hbuf, Hi. unfold Buffer.len. simpl.
    destruct Hsalt; lia. }
  destruct (write_all_leaves info chunks d d' out
              ltac:(repeat split; [exact Hi|apply Hwf..|rewrite Hp; lia]) Hst Hw)
    as ((Hi' & Hwf' & Hb') & Hst').
  split; [exact Hst'|].
  unfold starved in Hst'. rewrite Hi', Htag in Hst'.
  destruct (Dec.isFirstChunk d'); [lia|].
  destruct (Dec.expectingLength d'); lia.
Qed.

Lemma up_to_buffer_fields (t t' : Dec.t) :
  up_to_buffer t t' ->
  Dec.salt t' = Dec.salt t /\ Dec.key t' = Dec.key t
  /\ Dec.isFirstChunk t' = Dec.isFirstChunk t.
Proof. intros [->|[x ->]]; auto. Qed.

(** The state after a sequence of writes is the state after the one write
    of the concatenation; after an error, up to the bytes that were never
    written. *)
Lemma write_all_state (chunks : list bytes) :
  forall (this t : Dec.t) (chunk : bytes) (o : list bytes)
         (r : option Error),
    well_formed this ->
    Dec.write_all crypto this (chunk :: chunks) = (t, o, r) ->
    exists t',
      Dec._transform crypto this (concat (chunk :: chunks)) = (t', o, r)
      /\ (r = None -> t' = t) /\ up_to_buffer t t'.
Proof.
  induction chunks as [|c' chunks IH]; intros this t chunk o r Hwf H.
  - rewrite dec_write_all_cons in H. simpl concat. rewrite app_nil_r.
    destruct (Dec._transform crypto this chunk) as [[t1 o1] [e|]] eqn:Ht.
    + injection H as <- <- <-. exists t1.
      split; [reflexivity|]. split; [discriminate|]. left; reflexivity.
    + simpl in H. injection H as <- <- <-. exists t1. rewrite app_nil_r.
      split; [reflexivity|]. split; [reflexivity|]. left; reflexivity.
  - rewrite dec_write_all_cons in H.
    change (concat (chunk :: c' :: chunks))
      with (chunk ++ concat (c' :: chunks)).
    destruct (Dec._transform crypto this chunk) as [[t1 o1] r1] eqn:Ht.
    rewrite (transform_more crypto _ _ _ _ _ _ Hwf Ht).
    destruct r1 as [e|].
    + injection H as <- <- <-. eexists.
      split; [reflexivity|]. split; [discriminate|]. right; eauto.
    + destruct (Dec.write_all crypto t1 (c' :: chunks)) as [[t2 o2] r2]
        eqn:Hw.
      injection H as <- <- <-.
      pose proof (transform_keeps crypto _ _ _ _ _ Hwf Ht) as [Hwf1 _].
      destruct (IH _ _ _ _ _ Hwf1 Hw) as (t' & Ht' & Hnone & Hup).
      exists t'. rewrite Ht'. auto.
Qed.

(** X7. However the bytes from the server are cut into buffers, a new
    decryptor takes exactly the first [saltSize] bytes of the stream as the
    salt and derives its key from them and the password.  Until that many
    bytes have arrived it has no salt and no key, pushes nothing, reports
    no error and keeps all the bytes. *)
Theorem X7_salt_is_the_head_of_the_stream
    (m pw : string) (d d' : Dec.t) (chunks : list bytes)
    (out : list bytes) (r : option Error) :
  Dec.new m pw = Some d ->
  Dec.write_all crypto d chunks = (d', out, r) ->
  let stream := concat chunks in
  let info := Dec.methodInfo d in
  (Buffer.len stream < saltSize info ->
   out = [] /\ r = None /\ Dec.salt d' = None /\ Dec.key d' = None
   /\ Dec.isFirstChunk d' = true /\ Dec.buffer d' = stream)
  /\ (saltSize info <= Buffer.len stream ->
      let salt := Buffer.slice stream 0 (saltSize info) in
      Dec.salt d' = Some salt
      /\ Dec.key d' = Some (deriveKey crypto pw salt (keySize info))
      /\ Dec.isFirstChunk d' = false).
Proof.
  intros Hnew Hw stream info.
  pose proof (new_well_formed m pw _ Hnew) as Hwf.
  unfold Dec.new in Hnew.
  destruct (AEAD_METHODS m) as [i|] eqn:Hinfo; [|discriminate].
  destruct (table_sizes _ _ Hinfo) as (Htag & _ & Hsalt).
  injection Hnew as <-. simpl in info. subst info.
  destruct chunks as [|c cs].
  - injection Hw as <- <- <-. subst stream. unfold Buffer.len. simpl.
    split; [intros _; repeat split|]. intros; lia.
  - destruct (write_all_state _ _ _ _ _ _ Hwf Hw) as (t' & Ht & Hnone & Hup).
    fold stream in Ht. rewrite transform_eq in Ht. cbv zeta in Ht.
    cbn [more Dec.isFirstChunk Dec.set_buffer Dec.buffer Dec.methodInfo] in Ht.
    change (Buffer.alloc 0 x00 ++ stream) with stream in Ht.
    destruct (up_to_buffer_fields _ _ Hup) as (Hs & Hk & Hf).
    destruct (Z.ltb_spec (Buffer.len stream) (saltSize i)) as [Hlt|Hge].
    + split; [intros _|intros; lia].
      injection Ht as <- <- <-. rewrite <- (Hnone eq_refl).
      repeat split.
    + split; [intros; lia|intros _ salt].
      match type of Ht with
      | Dec.run_while _ ?a = _ =>
          assert (Hwfa : well_formed a) by exact Hwf;
          destruct (run_while_leaves _ _ _ _ _ (Nat.lt_succ_diag_r _)
                      Hwfa eq_refl ltac:(simpl; lia) Ht) as (Hs' & _);
          destruct (run_while_keeps crypto _ _ _ _ _ (Nat.lt_succ_diag_r _)
                      Hwfa Ht) as (_ & _ & _ & Hk' & Hf')
      end.
      rewrite <- Hs, <- Hk, <- Hf, Hs', <- Hk', <- Hf'.
      repeat split.
Qed.

End DecryptorState.

Lemma X7_witness :
  let d' := fst (fst (Dec.write_all Toy.crypto decryptor0
                        [replicate 10 x07; replicate 6 x07 ++ [x01]])) in
  Dec.salt d' = Some salt0 /\ Dec.key d' = Some key0
  /\ Dec.isFirstChunk d' = false.
Proof.
  refine (proj2 (X7_salt_is_the_head_of_the_stream Toy.crypto
                   "aes-128-gcm" "pw" decryptor0 _
                   [replicate 10 x07; replicate 6 x07 ++ [x01]] [] None
                   eq_refl eq_refl) _).
  vm_compute. discriminate.
Defined.

Lemma X8_witness :
  let d' := fst (fst (Dec.write_all Toy.crypto decryptor0
                        [[x01]; [x02; x03]])) in
  starved d' /\ Buffer.len (Dec.buffer d') <= 65550.
Proof.
  exact (X8_carry_buffer_is_starved Toy.crypto "aes-128-gcm" "pw"
           decryptor0 _ [[x01]; [x02; x03]] [] eq_refl eq_refl).
Defined.

(** ** Only verified plaintext leaves the decryptor *)

Section Authenticity.
Import Methods Aead.
Context (crypto : NodeCrypto).

(** A buffer that is long enough, cut as a round of the loop cuts it. *)
Lemma cut_buffer (b : bytes) (a t : Z) :
  0 <= a -> 0 <= t -> a + t <= Buffer.len b ->
  b = Buffer.slice b 0 a ++ Buffer.slice b a (a + t)
        ++ Buffer.slice_from b (a + t)
  /\ Buffer.len (Buffer.slice b 0 a) = a
  /\ Buffer.len (Buffer.slice b a (a + t)) = t.
Proof.
  intros Ha Ht Hlen.
  rewrite slice_prefix, slice_take_drop, slice_from_drop by lia.
  replace (Z.to_nat (a + t - a)) with (Z.to_nat t) by lia.
  replace (Z.to_nat (a + t)) with (Z.to_nat a + Z.to_nat t)%nat by lia.
  unfold Buffer.len in *. split; [|split].
  - rewrite <- drop_drop, take_drop, take_drop. reflexivity.
  - rewrite length_take. lia.
  - rewrite length_take, length_drop. lia.
Qed.

Lemma length_round_next (s s' : Dec.t) (o : list bytes) :
  tagSize (Dec.methodInfo s) = 16 ->
  Dec.length_round crypto s = (s', Dec.Next o) ->
  exists k l,
    Dec.key s = Some k /\ o = []
    /\ 2 + 16 <= Buffer.len (Dec.buffer s)
    /\ decipher_final crypto (algorithm (Dec.method s)) k (Dec.nonce s)
         (Buffer.slice (Dec.buffer s) 0 2)
         (Buffer.slice (Dec.buffer s) 2 (2 + 16)) = true
    /\ Buffer.readUInt16BE
         (decipher_update crypto (algorithm (Dec.method s)) k (Dec.nonce s)
            (Buffer.slice (Dec.buffer s) 0 2)) 0 = Some l
    /\ s' = Dec.set_buffer
              (Dec.set_expectingLength
                 (Dec.updateNonce (Dec.set_payloadLength s l)) false)
              (Buffer.slice_from (Dec.buffer s) (2 + 16)).
Proof.
  intros Htag. unfold Dec.length_round. cbv zeta. rewrite Htag.
  destruct (Z.ltb_spec (Buffer.len (Dec.buffer s)) (2 + 16));
    [discriminate|].
  destruct (Dec.key s) as [k|]; [|discriminate].
  destruct (decipher_final crypto _ k _ _ _) eqn:Hfinal; [|discriminate].
  destruct (Buffer.readUInt16BE _ 0) as [l|] eqn:Hread; [|discriminate].
  intros [= <- <-]. exists k, l. repeat split; assumption.
Qed.

Lemma payload_round_next (s s' : Dec.t) (o : list bytes) :
  tagSize (Dec.methodInfo s) = 16 ->
  Dec.payload_round crypto s = (s', Dec.Next o) ->
  exists k,
    Dec.key s = Some k
    /\ Dec.payloadLength s + 16 <= Buffer.len (Dec.buffer s)
    /\ decipher_final crypto (algorithm (Dec.method s)) k (Dec.nonce s)
         (Buffer.slice (Dec.buffer s) 0 (Dec.payloadLength s))
         (Buffer.slice (Dec.buffer s) (Dec.payloadLength s)
            (Dec.payloadLength s + 16)) = true
    /\ o = [decipher_update crypto (algorithm (Dec.method s)) k (Dec.nonce s)
              (Buffer.slice (Dec.buffer s) 0 (Dec.payloadLength s))]
    /\ s' = Dec.set_buffer
              (Dec.set_expectingLength (Dec.updateNonce s) true)
              (Buffer.slice_from (Dec.buffer s) (Dec.payloadLength s + 16)).
Proof.
  intros Htag. unfold Dec.payload_round. cbv zeta. rewrite Htag.
  destruct (Z.ltb_spec (Buffer.len (Dec.buffer s))
              (Dec.payloadLength s + 16)); [discriminate|].
  destruct (Dec.key s) as [k|]; [|discriminate].
  destruct (decipher_final crypto _ k _ _ _) eqn:Hfinal; [|discriminate].
  intros [= <- <-]. exists k. repeat split; assumption.
Qed.

(** What the loop pushes is what the head of its buffer opens to. *)
Lemma run_while_opened (n : nat) :
  forall (s s' : Dec.t) (k : bytes) (out : list bytes) (r : option Error),
    (measure s < n)%nat -> well_formed s -> Dec.key s = Some k ->
    Dec.run_while crypto s = (s', out, r) ->
    opened crypto (algorithm (Dec.method s)) k (Dec.expectingLength s)
           (Dec.payloadLength s) (Dec.chunkId s, Dec.nonce s)
           (Dec.buffer s) out.
Proof.
  induction n as [|n IH]; intros s s' k out r Hm Hwf Hk H; [lia|].
  rewrite run_while_eq in H by assumption.
  destruct (0 <? Buffer.len (Dec.buffer s));
    [|injection H as _ <- _; constructor].
  destruct (Dec.round crypto s) as [s1 [ |o|e]] eqn:Hround;
    [injection H as _ <- _; constructor| |injection H as _ <- _; constructor].
  destruct (Dec.run_while crypto s1) as [[t o'] r'] eqn:Hrun.
  injection H as _ <- _.
  pose proof (round_next_measure crypto _ _ _ Hwf Hround) as Hm1.
  pose proof (round_next_well_formed crypto _ _ _ Hwf Hround) as Hwf1.
  pose proof Hwf as (Htag & _ & Hpl).
  unfold Dec.round in Hround.
  destruct (Dec.expectingLength s) eqn:Hexp.
  - destruct (length_round_next _ _ _ Htag Hround)
      as (k' & l & Hk' & -> & Hlen & Hfinal & Hread & ->).
    rewrite Hk in Hk'. injection Hk' as <-.
    destruct (cut_buffer (Dec.buffer s) 2 16 ltac:(lia) ltac:(lia) Hlen)
      as (Hcut & Hel & Hlt).
    eapply opened_length; [exact Hcut|exact Hel|exact Hlt|exact Hfinal
                          |exact Hread|].
    match type of Hrun with
    | Dec.run_while _ ?s1 = _ =>
        exact (IH s1 _ k _ _ ltac:(lia) Hwf1 Hk Hrun)
    end.
  - destruct (payload_round_next _ _ _ Htag Hround)
      as (k' & Hk' & Hlen & Hfinal & -> & ->).
    rewrite Hk in Hk'. injection Hk' as <-.
    destruct (cut_buffer (Dec.buffer s) (Dec.payloadLength s) 16 Hpl
                ltac:(lia) Hlen) as (Hcut & Hct & Htg).
    cbn [app].
    eapply opened_payload; [exact Hcut|exact Hct|exact Htg|exact Hfinal|].
    match type of Hrun with
    | Dec.run_while _ ?s1 = _ =>
        exact (IH s1 _ k _ _ ltac:(lia) Hwf1 Hk Hrun)
    end.
Qed.

(** X9. Only verified plaintext leaves the decryptor.  Whatever bytes a
    new decryptor is given, in whatever buffers, and whether or not the
    writes end in an error, the buffers it has pushed are, in order, the
    payloads of the first frames of the stream it was written, behind the
    salt: each is the decipher's output for the bytes at its place in the
    stream, the 16 bytes behind them are the tag [final()] accepted for
    them, under the key derived from the salt at the head of the stream and
    the nonce of their place, and the length field before them was
    accepted likewise. *)
Theorem X9_only_verified_plaintext_is_pushed
    (m pw : string) (info : MethodInfo) (d d' : Dec.t)
    (chunks : list bytes) (out : list bytes) (r : option Error) :
  Dec.new m pw = Some d -> AEAD_METHODS m = Some info ->
  Dec.write_all crypto d chunks = (d', out, r) ->
  let stream := concat chunks in
  let salt := Buffer.slice stream 0 (saltSize info) in
  opened crypto (algorithm m) (deriveKey crypto pw salt (keySize info))
         true 0 (0, replicate 12 x00)
         (Buffer.slice_from stream (saltSize info)) out.
Proof.
  intros Hnew Hinfo Hw stream salt.
  pose proof (new_well_formed m pw _ Hnew) as Hwf.
  unfold Dec.new in Hnew. rewrite Hinfo in Hnew. injection Hnew as <-.
  destruct (table_sizes _ _ Hinfo) as (_ & Hnonce & _).
  destruct chunks as [|c cs]; [injection Hw as _ <- _; constructor|].
  destruct (write_all_state crypto _ _ _ _ _ _ Hwf Hw) as (t' & Ht & _).
  fold stream in Ht. rewrite transform_eq in Ht. cbv zeta in Ht.
  cbn [more Dec.isFirstChunk Dec.set_buffer Dec.buffer Dec.methodInfo] in Ht.
  change (Buffer.alloc 0 x00 ++ stream) with stream in Ht.
  destruct (Buffer.len stream <? saltSize info);
    [injection Ht as _ <- _; constructor|].
  match type of Ht with
  | Dec.run_while _ ?a = _ =>
      assert (Hwfa : well_formed a) by exact Hwf;
      pose proof (run_while_opened _ a t' _ out r (Nat.lt_succ_diag_r _)
                    Hwfa eq_refl Ht) as Hopened
  end.
  cbn [after_salt more Dec.set_isFirstChunk Dec.initializeDecryption
       Dec.set_buffer Dec.method Dec.expectingLength Dec.payloadLength
       Dec.chunkId Dec.nonce Dec.buffer Dec.methodInfo Dec.password]
    in Hopened.
  change (Buffer.alloc 0 x00 ++ stream) with stream in Hopened.
  unfold fill0, Buffer.alloc in Hopened.
  rewrite length_replicate, Hnonce in Hopened.
  exact Hopened.
Qed.

End Authenticity.

Lemma X9_witness :
  opened Toy.crypto (Methods.algorithm "aes-128-gcm")
    (Methods.deriveKey Toy.crypto "pw"
       (Buffer.slice (concat [take 20 good_wire; drop 20 good_wire])
                     0 (Methods.saltSize aes128))
       (Methods.keySize aes128))
    true 0 (0, replicate 12 x00)
    (Buffer.slice_from (concat [take 20 good_wire; drop 20 good_wire])
                       (Methods.saltSize aes128))
    [[x68; x69]].
Proof.
  apply (X9_only_verified_plaintext_is_pushed Toy.crypto "aes-128-gcm" "pw"
           aes128 decryptor0
           (fst (fst (Dec.write_all Toy.crypto decryptor0
                        [take 20 good_wire; drop 20 good_wire])))
           [take 20 good_wire; drop 20 good_wire] [[x68; x69]] None).
  - reflexivity.
  - reflexivity.
  - vm_compute. reflexivity.
Defined.

(** ** The loop of the decryptor ends *)

Section Termination.
Import Methods Aead.
Context (crypto : NodeCrypto).

Lemma write_all_well_formed (chunks : list bytes) :
  forall (s s' : Dec.t) (out : list bytes) (r : option Error),
    well_formed s -> Dec.write_all crypto s chunks = (s', out, r) ->
    well_formed s'.
Proof.
  induction chunks as [|c cs IH]; intros s s' out r Hwf H.
  - injection H as <- _ _. exact Hwf.
  - rewrite dec_write_all_cons in H.
    destruct (Dec._transform crypto s c) as [[s1 o1] r1] eqn:Ht.
    pose proof (transform_keeps crypto _ _ _ _ _ Hwf Ht) as [Hwf1 _].
    destruct r1 as [e|]; [injection H as <- _ _; exact Hwf1|].
    destruct (Dec.write_all crypto s1 cs) as [[s2 o2] r2] eqn:Hw.
    injection H as <- _ _. eapply IH; eassumption.
Qed.

(** X17. In every state a new decryptor can come to, and for every buffer
    written next, the [while] loop of [_transform] ends: it leaves within
    twice the length of the carry buffer plus two rounds, whatever the
    bytes are.  (A length round removes 18 bytes and a payload round at
    least the 16 bytes of its tag, or the loop breaks or throws.) *)
Theorem X17_decryption_loop_ends
    (m pw : string) (d d' : Dec.t) (chunks : list bytes)
    (out : list bytes) (r : option Error) (chunk : bytes) :
  Dec.new m pw = Some d ->
  Dec.write_all crypto d chunks = (d', out, r) ->
  let s := loop_entry crypto d' chunk in
  exists res,
    Dec.while crypto (2 * length (Dec.buffer s) + 2) s = Some res
    /\ forall fuel, (2 * length (Dec.buffer s) + 2 <= fuel)%nat ->
         Dec.while crypto fuel s = Some res.
Proof.
  intros Hnew Hw s.
  pose proof (write_all_well_formed _ _ _ _ _
                (new_well_formed m pw _ Hnew) Hw) as Hwf.
  assert (Hwfs : well_formed s).
  { unfold s, loop_entry. destruct (Dec.isFirstChunk d'); exact Hwf. }
  exists (Dec.run_while crypto s).
  pose proof (loop_ends crypto s Hwfs) as Hends.
  split; [exact Hends|].
  intros fuel Hfuel. eapply while_more_fuel; [exact Hends|exact Hfuel].
Qed.

End Termination.

Lemma X17_witness :
  let s := loop_entry Toy.crypto
             (fst (fst (Dec.write_all Toy.crypto decryptor0
                          [replicate 10 x07])))
             (replicate 6 x07 ++ [x01; x02; x03]) in
  exists res,
    Dec.while Toy.crypto (2 * length (Dec.buffer s) + 2) s = Some res
    /\ forall fuel, (2 * length (Dec.buffer s) + 2 <= fuel)%nat ->
         Dec.while Toy.crypto fuel s = Some res.
Proof.
  exact (X17_decryption_loop_ends Toy.crypto "aes-128-gcm" "pw" decryptor0 _
           [replicate 10 x07] [] None (replicate 6 x07 ++ [x01; x02; x03])
           eq_refl eq_refl).
Defined.

(** ** What the encryptor sends *)

Section WireSize.
Import Methods Aead.
Context (crypto : NodeCrypto).
Hypothesis Hcrypto : aead_correct crypto.

Lemma frame_of_length (alg : string) (k n0 n1 p : bytes) :
  Buffer.len (frame_of crypto alg k n0 n1 (be16 (Buffer.len p)) p)
  = Buffer.len p + 34.
Proof.
  unfold frame_of. rewrite !len_app. unfold Buffer.len.
  rewrite !(sealed_length _ Hcrypto), !(tag_length _ Hcrypto). simpl. lia.
Qed.

Lemma enc_running_size (random : bytes) (P : list bytes) :
  forall (e : Enc.t) (k : bytes),
    Enc.isFirstChunk e = false -> Enc.key e = Some k ->
    Forall (fun p => Buffer.len p <= 65535) P ->
    exists e' evs,
      Enc.write_all crypto e random P = (e', evs, None)
      /\ Buffer.len (concat (Enc.pushes evs)) = wire_size P.
Proof.
  induction P as [|p P IH]; intros e k Hf Hk HP.
  - exists e, []. split; reflexivity.
  - apply Forall_cons in HP as [Hp HP].
    pose proof (len_nonneg p) as Hp0.
    rewrite enc_write_all_cons. cbn [wire_size].
    destruct (Z.eqb_spec (Buffer.len p) 0) as [Hz|Hnz].
    + rewrite (enc_transform_empty crypto e random p Hf Hz).
      destruct (IH e k Hf Hk HP) as (e' & evs & He & Hlen).
      exists e', evs. rewrite He. split; [reflexivity|]. rewrite Hlen. lia.
    + rewrite (enc_transform_running crypto e k random p Hf Hk) by lia.
      destruct (IH (Enc.updateNonce (Enc.updateNonce e)) k Hf Hk HP)
        as (e' & evs & He & Hlen).
      eexists e', _. rewrite He. split; [reflexivity|].
      rewrite pushes_app.
      change (Enc.pushes [?a; ?b; Enc.Push ?f]) with [f].
      change (concat ([?f] ++ ?l)) with (f ++ concat l).
      rewrite len_app, frame_of_length, Hlen. reflexivity.
Qed.

(** X10. A new encryptor given one or more buffers of at most 65535 bytes
    each raises no error, pushes the salt first, and after it sends, for
    every buffer that is not empty, the buffer's length plus 34 bytes (two
    bytes of length and two 16-byte tags); an empty buffer sends nothing. *)
Theorem X10_encryptor_overhead
    (m pw : string) (e : Enc.t) (random p : bytes) (P : list bytes) :
  Enc.new m pw = Some e ->
  Forall (fun p => Buffer.len p <= 65535) (p :: P) ->
  exists e' evs wire,
    Enc.write_all crypto e random (p :: P) = (e', evs, None)
    /\ Enc.pushes evs = random :: wire
    /\ Buffer.len (concat wire) = wire_size (p :: P).
Proof.
  intros Hnew HP. unfold Enc.new in Hnew.
  destruct (AEAD_METHODS m) as [info|]; [|discriminate].
  injection Hnew as <-.
  rewrite enc_write_all_first by reflexivity.
  match goal with
  | |- context [Enc.write_all crypto ?e1 random (p :: P)] =>
      destruct (enc_running_size random (p :: P) e1 _ eq_refl eq_refl HP)
        as (e' & evs & He & Hlen)
  end.
  rewrite He. exists e', (Enc.Push random :: evs), (Enc.pushes evs).
  split; [reflexivity|]. split; [reflexivity|]. exact Hlen.
Qed.

End WireSize.

Lemma X10_witness :
  exists e' evs wire,
    Enc.write_all Toy.crypto encryptor0 salt0 [[x68; x69]; []; [x21]]
    = (e', evs, None)
    /\ Enc.pushes evs = salt0 :: wire
    /\ Buffer.len (concat wire) = wire_size [[x68; x69]; []; [x21]].
Proof.
  apply (X10_encryptor_overhead Toy.crypto toy_aead_correct
           "aes-128-gcm" "pw" encryptor0 salt0 [x68; x69] [[]; [x21]]).
  - reflexivity.
  - repeat constructor; unfold Buffer.len; simpl; lia.
Defined.

(** ** The SOCKS5 negotiation *)

Section Negotiation.
Import ShadowsocksLocal.

Lemma Z_of_byte_eq (b : byte) (z : Z) :
  Buffer.Z_of_byte b = z -> b = Buffer.byte_of_Z z.
Proof. intros <-. symmetry. apply byte_of_Z_of_byte. Qed.

Lemma addrLength_of_other (b : bytes) (z : Z) :
  z <> 1 -> z <> 3 -> z <> 4 -> addrLength_of b (Some z) = NotSupported.
Proof.
  intros H1 H3 H4. unfold addrLength_of.
  destruct z as [|[[p|p|]|[p|[p|p|]|]|]|p]; try reflexivity; contradiction.
Qed.

(** A list that is long enough, cut into an address, a port and the rest. *)
Lemma cut_address (tl : bytes) (a : nat) :
  (a + 2 <= length tl)%nat ->
  exists addr port rest,
    tl = addr ++ port ++ rest /\ length addr = a /\ length port = 2%nat
    /\ take (a + 2) tl = addr ++ port.
Proof.
  intros Hlen.
  exists (take a tl), (take 2 (drop a tl)), (drop (a + 2) tl).
  split.
  - rewrite app_assoc, take_take_drop. symmetry. apply take_drop.
  - rewrite take_take_drop, !length_take, length_drop. repeat split; lia.
Qed.

Lemma slice_request (b0 b1 b2 b3 : byte) (tl : bytes) (L : Z) :
  0 <= L ->
  Buffer.slice (b0 :: b1 :: b2 :: b3 :: tl) 3 (4 + L + 2)
  = b3 :: take (Z.to_nat L + 2) tl.
Proof.
  intros HL. rewrite slice_take_drop by lia.
  replace (Z.to_nat (4 + L + 2 - 3)) with (S (Z.to_nat L + 2)) by lia.
  reflexivity.
Qed.

(** The request handler, once a whole CONNECT request is in its buffer. *)
Lemma requestHandler_accepts (rb data : bytes) (atyp : byte)
    (addr port rest : bytes) :
  address_ok atyp addr -> Buffer.len port = 2 ->
  rb ++ data = connect_request atyp addr port ++ rest ->
  requestHandler rb data
  = (rb ++ data,
     [RemoveListener; LogDebug; ConnectToServer (atyp :: addr ++ port)]).
Proof.
  intros Hok Hport Hb. unfold requestHandler. cbv zeta. rewrite Hb.
  unfold connect_request.
  set (b := ([x05; x01; x00; atyp] ++ addr ++ port) ++ rest).
  assert (Hlen : Buffer.len b
                 = 4 + Buffer.len addr + 2 + Buffer.len rest).
  { unfold b. rewrite !len_app, Hport. unfold Buffer.len. simpl. lia. }
  pose proof (len_nonneg addr). pose proof (len_nonneg rest).
  destruct (Z.ltb_spec (Buffer.len b) 4); [lia|].
  change (Buffer.get b 0) with (Some 5).
  change (Buffer.get b 2) with (Some 0).
  change (Buffer.get b 1) with (Some 1).
  rewrite !bool_decide_eq_true_2 by reflexivity. cbn [negb orb].
  change (Buffer.get b 3) with (Some (Buffer.Z_of_byte atyp)).
  assert (Hslice : forall L, L = Buffer.len addr ->
             Buffer.slice b 3 (4 + L + 2) = atyp :: addr ++ port).
  { intros L ->. unfold b.
    change (([x05; x01; x00; atyp] ++ addr ++ port) ++ rest)
      with ([x05; x01; x00] ++ (atyp :: addr ++ port) ++ rest).
    apply slice_second; [reflexivity|].
    change (atyp :: addr ++ port) with ([atyp] ++ addr ++ port).
    rewrite !len_app, Hport. unfold Buffer.len. simpl. lia. }
  destruct Hok as [[-> Ha]|[[-> Ha]|(-> & n & name & -> & Hn)]].
  - change (addrLength_of b (Some (Buffer.Z_of_byte x01))) with (Known 4).
    cbv iota. destruct (Z.ltb_spec (Buffer.len b) (4 + 4 + 2)); [lia|].
    rewrite Hslice by (symmetry; exact Ha). reflexivity.
  - change (addrLength_of b (Some (Buffer.Z_of_byte x04))) with (Known 16).
    cbv iota. destruct (Z.ltb_spec (Buffer.len b) (4 + 16 + 2)); [lia|].
    rewrite Hslice by (symmetry; exact Ha). reflexivity.
  - assert (Ha : Buffer.len (n :: name) = Buffer.Z_of_byte n + 1).
    { rewrite <- Hn. unfold Buffer.len. simpl. lia. }
    assert (Hal : addrLength_of b (Some (Buffer.Z_of_byte x03))
                  = Known (Buffer.Z_of_byte n + 1)).
    { change (Buffer.Z_of_byte x03) with 3. unfold addrLength_of.
      destruct (Z.ltb_spec (Buffer.len b) 5); [lia|]. reflexivity. }
    rewrite Hal. cbv iota.
    destruct (Z.ltb_spec (Buffer.len b) (4 + (Buffer.Z_of_byte n + 1) + 2));
      [lia|].
    rewrite Hslice by (symmetry; exact Ha). reflexivity.
Qed.

(** The request handler, as long as the CONNECT request is not whole. *)
Lemma requestHandler_waits (rb data : bytes) (atyp : byte)
    (addr port more : bytes) :
  address_ok atyp addr -> Buffer.len port = 2 -> more <> [] ->
  (rb ++ data) ++ more = connect_request atyp addr port ->
  requestHandler rb data = (rb ++ data, []).
Proof.
  intros Hok Hport Hmore Hb. unfold requestHandler. cbv zeta.
  revert Hb. generalize (rb ++ data). intros b Hb.
  assert (Hml : 0 < Buffer.len more).
  { unfold Buffer.len. destruct more; [contradiction|simpl; lia]. }
  destruct (Z.ltb_spec (Buffer.len b) 4) as [|Hlen]; [reflexivity|].
  unfold connect_request in Hb.
  destruct b as [|c0 [|c1 [|c2 [|c3 b']]]];
    try (unfold Buffer.len in Hlen; simpl in Hlen; lia).
  injection Hb as -> -> -> -> Hb.
  pose proof (f_equal Buffer.len Hb) as Hbl.
  rewrite !len_app, Hport in Hbl.
  pose proof (len_nonneg b') as Hb0.
  change (Buffer.get (x05 :: x01 :: x00 :: atyp :: b') 0) with (Some 5).
  change (Buffer.get (x05 :: x01 :: x00 :: atyp :: b') 2) with (Some 0).
  change (Buffer.get (x05 :: x01 :: x00 :: atyp :: b') 1) with (Some 1).
  rewrite !bool_decide_eq_true_2 by reflexivity. cbn [negb orb].
  change (Buffer.get (x05 :: x01 :: x00 :: atyp :: b') 3)
    with (Some (Buffer.Z_of_byte atyp)).
  assert (Hl : Buffer.len (x05 :: x01 :: x00 :: atyp :: b')
               = 4 + Buffer.len b').
  { unfold Buffer.len. simpl. lia. }
  destruct Hok as [[-> Ha]|[[-> Ha]|(-> & n & name & -> & Hn)]].
  - change (addrLength_of _ (Some (Buffer.Z_of_byte x01))) with (Known 4).
    cbv iota. rewrite Hl.
    destruct (Z.ltb_spec (4 + Buffer.len b') (4 + 4 + 2)); [reflexivity|lia].
  - change (addrLength_of _ (Some (Buffer.Z_of_byte x04))) with (Known 16).
    cbv iota. rewrite Hl.
    destruct (Z.ltb_spec (4 + Buffer.len b') (4 + 16 + 2)); [reflexivity|lia].
  - change (Buffer.Z_of_byte x03) with 3. unfold addrLength_of.
    rewrite Hl.
    destruct (Z.ltb_spec (4 + Buffer.len b') 5) as [|H5]; [reflexivity|].
    cbv iota.
    assert (Hname : Buffer.len (n :: name) = Buffer.Z_of_byte n + 1).
    { rewrite <- Hn. unfold Buffer.len. simpl. lia. }
    rewrite Hname in Hbl.
    destruct b' as [|n' b'']; [unfold Buffer.len in H5; simpl in H5; lia|].
    injection Hb as -> Hb.
    change (Buffer.get (x05 :: x01 :: x00 :: x03 :: n :: b'') 4)
      with (Some (Buffer.Z_of_byte n)).
    cbn [default from_option id].
    assert (Hl' : Buffer.len (n :: b'') = 1 + Buffer.len b'').
    { unfold Buffer.len. simpl. lia. }
    rewrite Hl' in *.
    destruct (Z.ltb_spec (4 + (1 + Buffer.len b''))
                (4 + (Buffer.Z_of_byte n + 1) + 2)); [reflexivity|lia].
Qed.

Lemma requestHandler_dials (rb data t : bytes) :
  In (ConnectToServer t) (snd (requestHandler rb data)) ->
  exists atyp addr port rest,
    rb ++ data = connect_request atyp addr port ++ rest
    /\ address_ok atyp addr /\ Buffer.len port = 2
    /\ t = atyp :: addr ++ port.
Proof.
  unfold requestHandler. cbv zeta. generalize (rb ++ data). intros b.
  destruct (Z.ltb_spec (Buffer.len b) 4) as [|Hlen]; [intros []|].
  destruct b as [|b0 [|b1 [|b2 [|b3 tl]]]];
    try (unfold Buffer.len in Hlen; simpl in Hlen; lia).
  set (b := b0 :: b1 :: b2 :: b3 :: tl).
  assert (Hl : Buffer.len b = 4 + Buffer.len tl).
  { unfold Buffer.len. simpl. lia. }
  change (Buffer.get b 0) with (Some (Buffer.Z_of_byte b0)).
  change (Buffer.get b 1) with (Some (Buffer.Z_of_byte b1)).
  change (Buffer.get b 2) with (Some (Buffer.Z_of_byte b2)).
  change (Buffer.get b 3) with (Some (Buffer.Z_of_byte b3)).
  destruct (bool_decide_reflect (Some (Buffer.Z_of_byte b0) = Some 5))
    as [H0|]; cbn [negb orb];
    [|intros [|[|[]]]; discriminate].
  destruct (bool_decide_reflect (Some (Buffer.Z_of_byte b2) = Some 0))
    as [H2|]; cbn [negb orb];
    [|intros [|[|[]]]; discriminate].
  destruct (bool_decide_reflect (Some (Buffer.Z_of_byte b1) = Some 1))
    as [H1|]; cbn [negb orb];
    [|intros [|[|[|[]]]]; discriminate].
  injection H0 as H0. injection H1 as H1. injection H2 as H2.
  apply Z_of_byte_eq in H0, H1, H2.
  change (Buffer.byte_of_Z 5) with x05 in H0.
  change (Buffer.byte_of_Z 1) with x01 in H1.
  change (Buffer.byte_of_Z 0) with x00 in H2.
  assert (Hcut : forall L, 0 <= L -> 4 + L + 2 <= Buffer.len b ->
             exists addr port rest,
               b = connect_request b3 addr port ++ rest
               /\ Buffer.len addr = L /\ Buffer.len port = 2
               /\ Buffer.slice b 3 (4 + L + 2) = b3 :: addr ++ port
               /\ tl = addr ++ port ++ rest).
  { intros L HL Hge.
    destruct (cut_address tl (Z.to_nat L)) as (addr & port & rest & Htl
                                                 & Ha & Hp & Htake).
    { unfold Buffer.len in Hl, Hge. lia. }
    exists addr, port, rest. unfold b at 2. rewrite slice_request by lia.
    rewrite Htake. unfold Buffer.len. rewrite Ha, Hp.
    repeat split; try lia; try assumption.
    unfold b, connect_request. rewrite H0, H1, H2, Htl.
    simpl. rewrite <- app_assoc. reflexivity. }
  destruct (Z.eq_dec (Buffer.Z_of_byte b3) 1) as [E1|N1];
    [|destruct (Z.eq_dec (Buffer.Z_of_byte b3) 4) as [E4|N4];
      [|destruct (Z.eq_dec (Buffer.Z_of_byte b3) 3) as [E3|N3]]].
  - rewrite E1. change (addrLength_of b (Some 1)) with (Known 4). cbv iota.
    destruct (Z.ltb_spec (Buffer.len b) (4 + 4 + 2)); [intros []|].
    intros [|[|[Hin|[]]]]; try discriminate. injection Hin as <-.
    destruct (Hcut 4 ltac:(lia) ltac:(lia))
      as (addr & port & rest & Hb & Ha & Hp & Hs & _).
    exists b3, addr, port, rest. repeat split; try assumption.
    left. split; [|exact Ha]. apply Z_of_byte_eq in E1. exact E1.
  - rewrite E4. change (addrLength_of b (Some 4)) with (Known 16). cbv iota.
    destruct (Z.ltb_spec (Buffer.len b) (4 + 16 + 2)); [intros []|].
    intros [|[|[Hin|[]]]]; try discriminate. injection Hin as <-.
    destruct (Hcut 16 ltac:(lia) ltac:(lia))
      as (addr & port & rest & Hb & Ha & Hp & Hs & _).
    exists b3, addr, port, rest. repeat split; try assumption.
    right. left. split; [|exact Ha]. apply Z_of_byte_eq in E4. exact E4.
  - rewrite E3. unfold addrLength_of.
    destruct (Z.ltb_spec (Buffer.len b) 5) as [|H5]; [intros []|].
    cbv iota.
    destruct tl as [|n name];
      [unfold Buffer.len in H5; simpl in H5; lia|].
    change (Buffer.get b 4) with (Some (Buffer.Z_of_byte n)).
    cbn [default from_option id].
    pose proof (Z_of_byte_range n) as Hn.
    destruct (Z.ltb_spec (Buffer.len b) (4 + (Buffer.Z_of_byte n + 1) + 2));
      [intros []|].
    intros [|[|[Hin|[]]]]; try discriminate. injection Hin as <-.
    destruct (Hcut (Buffer.Z_of_byte n + 1) ltac:(lia) ltac:(lia))
      as (addr & port & rest & Hb & Ha & Hp & Hs & Htl).
    exists b3, addr, port, rest. repeat split; try assumption.
    right. right. split; [apply Z_of_byte_eq in E3; exact E3|].
    destruct addr as [|n' name'];
      [unfold Buffer.len in Ha; simpl in Ha; lia|].
    injection Htl as <- _. exists n, name'. split; [reflexivity|].
    unfold Buffer.len in *. simpl in Ha. lia.
  - rewrite addrLength_of_other by assumption.
    intros [|[|[|[]]]]; discriminate.
Qed.

(** X11. The request handler hands a target to [connectToServer] exactly
    when its buffer starts with a whole SOCKS5 CONNECT request (version 5,
    command 1, reserved 0) for an IPv4 address, an IPv6 address, or a
    domain name of the announced length; the target handed over is the
    address type, the address and the port of that request.  Bytes behind
    the request are not part of it. *)
Theorem X11_dials_exactly_well_formed_requests (rb data t : bytes) :
  In (ConnectToServer t) (snd (requestHandler rb data))
  <-> exists atyp addr port rest,
        rb ++ data = connect_request atyp addr port ++ rest
        /\ address_ok atyp addr /\ Buffer.len port = 2
        /\ t = atyp :: addr ++ port.
Proof.
  split; [apply requestHandler_dials|].
  intros (atyp & addr & port & rest & Hb & Hok & Hp & ->).
  rewrite (requestHandler_accepts _ _ _ _ _ _ Hok Hp Hb).
  simpl. auto.
Qed.

(** The handshake handler, as long as the greeting is not whole. *)
Lemma handshakeHandler_waits (hb data : bytes) (n : byte)
    (methods more : bytes) :
  Buffer.len methods = Buffer.Z_of_byte n -> more <> [] ->
  (hb ++ data) ++ more = greeting n methods ->
  handshakeHandler hb data = (hb ++ data, []).
Proof.
  intros Hn Hmore Hb. unfold handshakeHandler. cbv zeta.
  revert Hb. generalize (hb ++ data). intros b Hb.
  assert (Hml : 0 < Buffer.len more).
  { unfold Buffer.len. destruct more; [contradiction|simpl; lia]. }
  destruct (Z.ltb_spec (Buffer.len b) 2) as [|Hlen]; [reflexivity|].
  destruct b as [|c0 [|c1 b']];
    try (unfold Buffer.len in Hlen; simpl in Hlen; lia).
  unfold greeting in Hb. injection Hb as -> -> Hb.
  apply (f_equal Buffer.len) in Hb. rewrite len_app, Hn in Hb.
  change (Buffer.get (x05 :: n :: b') 0) with (Some 5).
  change (Buffer.get (x05 :: n :: b') 1) with (Some (Buffer.Z_of_byte n)).
  rewrite bool_decide_eq_true_2 by reflexivity.
  cbn [negb default from_option id].
  assert (Hl : Buffer.len (x05 :: n :: b') = 2 + Buffer.len b').
  { unfold Buffer.len. simpl. lia. }
  rewrite Hl.
  destruct (Z.ltb_spec (2 + Buffer.len b') (2 + Buffer.Z_of_byte n));
    [reflexivity|lia].
Qed.

(** The handshake handler, once the whole greeting is in its buffer. *)
Lemma handshakeHandler_accepts (hb data : bytes) (n : byte)
    (methods extra : bytes) :
  Buffer.len methods = Buffer.Z_of_byte n ->
  hb ++ data = greeting n methods ++ extra ->
  handshakeHandler hb data
  = (hb ++ data, [RemoveListener; ClientWrite [x05; x00]; HandleSocksRequest]).
Proof.
  intros Hn Hb.
  apply (handshake_reply_ignores_methods hb data (Buffer.Z_of_byte n));
    rewrite Hb; try reflexivity.
  rewrite len_app. unfold greeting.
  change (x05 :: n :: methods) with ([x05; n] ++ methods).
  rewrite len_app, Hn. pose proof (len_nonneg extra).
  unfold Buffer.len at 1. simpl. lia.
Qed.

(** What has arrived so far ends inside [whole]. *)
Lemma strict_prefix (pre last whole extra : bytes) :
  pre ++ last = whole ++ extra -> Buffer.len pre < Buffer.len whole ->
  exists more, more <> [] /\ pre ++ more = whole.
Proof.
  intros Heq Hlen. apply app_eq_inv in Heq as [(k & -> & _)|(k & -> & _)].
  - rewrite len_app in Hlen. pose proof (len_nonneg k). lia.
  - exists k. split; [|reflexivity]. intros ->.
    rewrite app_nil_r in Hlen. lia.
Qed.

Lemma on_data_all_app (es es' : list bytes) :
  forall c,
    Local.on_data_all c (es ++ es')
    = let '(c1, a1) := Local.on_data_all c es in
      let '(c2, a2) := Local.on_data_all c1 es' in
      (c2, a1 ++ a2).
Proof.
  induction es as [|e es IH]; intros c; simpl.
  - destruct (Local.on_data_all c es'). reflexivity.
  - destruct (Local.on_data c e) as [c1 a1]. rewrite IH.
    destruct (Local.on_data_all c1 es) as [c2 a2].
    destruct (Local.on_data_all c2 es') as [c3 a3].
    rewrite app_assoc. reflexivity.
Qed.

Lemma handshake_segments (n : byte) (methods : bytes) (pre : list bytes) :
  forall (hb more : bytes) (dl : list bytes),
    Buffer.len methods = Buffer.Z_of_byte n -> more <> [] ->
    (hb ++ concat pre) ++ more = greeting n methods ->
    Local.on_data_all
      {| Local.listener := Local.OnHandshake hb; Local.destroyed := false;
         Local.dialed := dl |} pre
    = ({| Local.listener := Local.OnHandshake (hb ++ concat pre);
          Local.destroyed := false; Local.dialed := dl |}, []).
Proof.
  induction pre as [|d pre IH]; intros hb more dl Hn Hmore Hb.
  - simpl. rewrite app_nil_r. reflexivity.
  - change (concat (d :: pre)) with (d ++ concat pre) in *.
    cbn [Local.on_data_all]. unfold Local.on_data.
    cbn [Local.destroyed Local.listener Local.dialed].
    rewrite (handshakeHandler_waits hb d n methods (concat pre ++ more) Hn).
    + cbn [fold_left].
      rewrite (IH (hb ++ d) more dl Hn Hmore).
      * rewrite <- app_assoc. reflexivity.
      * rewrite <- Hb, <- !app_assoc. reflexivity.
    + intros Hnil. apply app_eq_nil in Hnil as [_ ?]. contradiction.
    + rewrite <- Hb, <- !app_assoc. reflexivity.
Qed.

Lemma request_segments (atyp : byte) (addr port : bytes)
    (pre : list bytes) :
  forall (rb more : bytes) (dl : list bytes),
    address_ok atyp addr -> Buffer.len port = 2 -> more <> [] ->
    (rb ++ concat pre) ++ more = connect_request atyp addr port ->
    Local.on_data_all
      {| Local.listener := Local.OnRequest rb; Local.destroyed := false;
         Local.dialed := dl |} pre
    = ({| Local.listener := Local.OnRequest (rb ++ concat pre);
          Local.destroyed := false; Local.dialed := dl |}, []).
Proof.
  induction pre as [|d pre IH]; intros rb more dl Hok Hp Hmore Hb.
  - simpl. rewrite app_nil_r. reflexivity.
  - change (concat (d :: pre)) with (d ++ concat pre) in *.
    cbn [Local.on_data_all]. unfold Local.on_data.
    cbn [Local.destroyed Local.listener Local.dialed].
    rewrite (requestHandler_waits rb d atyp addr port (concat pre ++ more)
               Hok Hp).
    + cbn [fold_left].
      rewrite (IH (rb ++ d) more dl Hok Hp Hmore).
      * rewrite <- app_assoc. reflexivity.
      * rewrite <- Hb, <- !app_assoc. reflexivity.
    + intros Hnil. apply app_eq_nil in Hnil as [_ ?]. contradiction.
    + rewrite <- Hb, <- !app_assoc. reflexivity.
Qed.

(** X12. However the greeting and the CONNECT request are cut into 'data'
    events, as long as the request starts in a later event than the one
    that ends the greeting, the client is answered [05 00] once and the
    target of the request is handed to [connectToServer] once.  Bytes that
    arrive behind the greeting in the event that ends it, and bytes behind
    the request in the event that ends it, are dropped: no handler sees
    them again. *)
Theorem X12_negotiation_under_any_segmentation
    (n : byte) (methods : bytes) (atyp : byte) (addr port : bytes)
    (gpre : list bytes) (glast gextra : bytes)
    (rpre : list bytes) (rlast rextra : bytes) :
  Buffer.len methods = Buffer.Z_of_byte n ->
  address_ok atyp addr -> Buffer.len port = 2 ->
  concat gpre ++ glast = greeting n methods ++ gextra ->
  Buffer.len (concat gpre) < Buffer.len (greeting n methods) ->
  concat rpre ++ rlast = connect_request atyp addr port ++ rextra ->
  Buffer.len (concat rpre) < Buffer.len (connect_request atyp addr port) ->
  Local.on_data_all Local.handleSocksClient
    (gpre ++ [glast] ++ rpre ++ [rlast])
  = (negotiated (atyp :: addr ++ port),
     [RemoveListener; ClientWrite [x05; x00]; HandleSocksRequest;
      RemoveListener; LogDebug; ConnectToServer (atyp :: addr ++ port)]).
Proof.
  intros Hn Hok Hp Hg Hgl Hr Hrl.
  destruct (strict_prefix _ _ _ _ Hg Hgl) as (gmore & Hgmore & Hgpre).
  destruct (strict_prefix _ _ _ _ Hr Hrl) as (rmore & Hrmore & Hrpre).
  unfold Local.handleSocksClient.
  change (Buffer.alloc 0 x00) with (@nil byte).
  rewrite on_data_all_app.
  rewrite (handshake_segments n methods gpre [] gmore [] Hn Hgmore Hgpre).
  change ([] ++ concat gpre) with (concat gpre).
  rewrite on_data_all_app.
  cbn [Local.on_data_all]. unfold Local.on_data at 1.
  cbn [Local.destroyed Local.listener Local.dialed].
  rewrite (handshakeHandler_accepts _ _ n methods gextra Hn Hg).
  cbn [fold_left Local.perform Local.destroyed Local.listener Local.dialed].
  change (Buffer.alloc 0 x00) with (@nil byte).
  rewrite on_data_all_app.
  rewrite (request_segments atyp addr port rpre [] rmore [] Hok Hp Hrmore
             Hrpre).
  change ([] ++ concat rpre) with (concat rpre).
  cbn [Local.on_data_all]. unfold Local.on_data.
  cbn [Local.destroyed Local.listener Local.dialed].
  rewrite (requestHandler_accepts _ _ atyp addr port rextra Hok Hp Hr).
  reflexivity.
Qed.




End Negotiation.

Lemma X11_witness :
  In (ShadowsocksLocal.ConnectToServer
        [x03; x02; x68; x69; x01; xbb])
     (snd (ShadowsocksLocal.requestHandler
             [x05; x01; x00] [x03; x02; x68; x69; x01; xbb; x47; x45])).
Proof.
  apply (proj2 (X11_dials_exactly_well_formed_requests
                  [x05; x01; x00] [x03; x02; x68; x69; x01; xbb; x47; x45]
                  [x03; x02; x68; x69; x01; xbb])).
  exists x03, [x02; x68; x69], [x01; xbb], [x47; x45].
  split; [reflexivity|]. split; [|split; reflexivity].
  right. right. split; [reflexivity|].
  exists x02, [x68; x69]. split; reflexivity.
Defined.

Lemma X12_witness :
  Local.on_data_all Local.handleSocksClient
    ([[x05]] ++ [[x02; x00; x02; xff]]
       ++ [[x05; x01]; [x00; x01; x7f; x00]] ++ [[x00; x01; x00; x50; x47]])
  = (negotiated [x01; x7f; x00; x00; x01; x00; x50],
     [ShadowsocksLocal.RemoveListener;
      ShadowsocksLocal.ClientWrite [x05; x00];
      ShadowsocksLocal.HandleSocksRequest;
      ShadowsocksLocal.RemoveListener; ShadowsocksLocal.LogDebug;
      ShadowsocksLocal.ConnectToServer
        [x01; x7f; x00; x00; x01; x00; x50]]).
Proof.
  apply (X12_negotiation_under_any_segmentation
           x02 [x00; x02] x01 [x7f; x00; x00; x01] [x00; x50]
           [[x05]] [x02; x00; x02; xff] [xff]
           [[x05; x01]; [x00; x01; x7f; x00]] [x00; x01; x00; x50; x47]
           [x47]).
  - reflexivity.
  - left. split; reflexivity.
  - reflexivity.
  - reflexivity.
  - reflexivity.
  - reflexivity.
  - reflexivity.
Defined.


(** ** The relay *)

Section Relay.
Import Methods Aead ShadowsocksLocal.
Context (crypto : NodeCrypto).

Lemma client_stream_failed (random : bytes) (chunks : list bytes)
    (tunnel : Tunnel) :
  encryptorFailed tunnel = true ->
  Local.client_stream crypto tunnel random chunks = (tunnel, []).
Proof.
  intros Hf. induction chunks as [|c cs IH]; [reflexivity|].
  simpl. unfold Local.client_data. rewrite Hf, IH. reflexivity.
Qed.

(** What reaches the server socket when the client sends [chunks] and the
    encryptor takes them all. *)
Lemma client_stream_write_all (random : bytes) (chunks : list bytes) :
  forall (tunnel : Tunnel) (e' : Enc.t) (evs : list Enc.Event),
    encryptorFailed tunnel = false ->
    Enc.write_all crypto (encryptor tunnel) random chunks = (e', evs, None) ->
    Local.client_stream crypto tunnel random chunks
    = ({| encryptor := e'; decryptor := decryptor tunnel;
          encryptorFailed := false;
          decryptorFailed := decryptorFailed tunnel |},
       map ServerWrite (Enc.pushes evs)).
Proof.
  induction chunks as [|c cs IH]; intros tunnel e' evs Hf Hw.
  - injection Hw as <- <-. destruct tunnel. simpl in Hf. subst.
    reflexivity.
  - rewrite enc_write_all_cons in Hw. cbn [Local.client_stream].
    unfold Local.client_data. rewrite Hf.
    destruct (Enc._transform crypto (encryptor tunnel) random c)
      as [[e1 ev1] [err|]]; [discriminate|].
    destruct (Enc.write_all crypto e1 random cs) as [[e2 ev2] r2] eqn:Hw2.
    injection Hw as <- <- ->.
    rewrite (IH {| encryptor := e1; decryptor := decryptor tunnel;
                   encryptorFailed := false;
                   decryptorFailed := decryptorFailed tunnel |}
                e2 ev2 eq_refl Hw2).
    cbn [decryptor decryptorFailed].
    rewrite pushes_app, map_app. reflexivity.
Qed.

Lemma enc_transform_not_first (e : Enc.t) (random chunk : bytes) :
  Enc.isFirstChunk (fst (fst (Enc._transform crypto e random chunk)))
  = false.
Proof.
  unfold Enc._transform.
  destruct (Enc.isFirstChunk e) eqn:Hf;
    destruct (Buffer.len chunk =? 0);
    try destruct (Buffer.writeUInt16BE _ _ _);
    cbn [Enc.key Enc.set_isFirstChunk Enc.initializeEncryption];
    try destruct (Enc.key e); simpl; try reflexivity; exact Hf.
Qed.

(** X15. Once the relay is set up, a 'data' event of the client socket
    with more than 65535 bytes ends the tunnel: nothing is sent to the
    server for it, the encryptor's error handler destroys both sockets,
    and nothing the client sends later is sent on. *)
Theorem X15_oversized_client_data_ends_the_tunnel
    (method password : string) (random target : bytes)
    (tunnel : Tunnel) (evs : list Enc.Event) (acts : list Action)
    (random' chunk : bytes) (later : list bytes) :
  on_connect crypto method password random target
  = Some (tunnel, evs, acts) ->
  encryptorFailed tunnel = false ->
  65535 < Buffer.len chunk ->
  Local.client_stream crypto tunnel random' (chunk :: later)
  = ({| encryptor := encryptor tunnel; decryptor := decryptor tunnel;
        encryptorFailed := true;
        decryptorFailed := decryptorFailed tunnel |},
     [LogError; ClientDestroy; ServerDestroy]).
Proof.
  intros Hc Hf Hlen.
  assert (Hfirst : Enc.isFirstChunk (encryptor tunnel) = false).
  { unfold on_connect in Hc.
    destruct (Enc.new method password) as [e0|]; [|discriminate].
    destruct (Dec.new method password) as [d0|]; [|discriminate].
    pose proof (enc_transform_not_first e0 random target) as Hnf.
    destruct (Enc._transform crypto e0 random target) as [[e1 ev1] r1].
    injection Hc as <- _ _. exact Hnf. }
  cbn [Local.client_stream]. unfold Local.client_data. rewrite Hf.
  rewrite (enc_transform_too_long crypto _ random' chunk Hfirst Hlen).
  rewrite client_stream_failed by reflexivity.
  reflexivity.
Qed.

Hypothesis Hcrypto : aead_correct crypto.

(** X14. The constructor accepts a configuration whose method is one of
    the table, and for the client it makes the 'connect' handler makes
    both transforms, answers the SOCKS5 client with success, and what then
    goes to the server socket, for the target and for any buffers of at
    most 65535 bytes the client sends afterwards, is a stream that a
    decryptor with the same method and password opens without error to
    the target record followed by the client's bytes. *)
Theorem X14_relay_carries_target_then_client_bytes
    (config : Local.Config) (info : MethodInfo)
    (random target : bytes) (P : list bytes) :
  AEAD_METHODS (Local.c_method config) = Some info ->
  Buffer.len random = saltSize info ->
  0 < Buffer.len target <= 65535 ->
  Forall (fun p => Buffer.len p <= 65535) P ->
  exists this tunnel evs tunnel' wire d d' out,
    Local.new config = Some this
    /\ Local.method this = Local.c_method config
    /\ Local.password this = Local.c_password config
    /\ on_connect crypto (Local.method this) (Local.password this)
         random target
       = Some (tunnel, evs,
               [LogDebug; ClientWrite (reply x00)]
                 ++ map ServerWrite (Enc.pushes evs))
    /\ Local.client_stream crypto tunnel random P
       = (tunnel', map ServerWrite wire)
    /\ Dec.new (Local.method this) (Local.password this) = Some d
    /\ Dec.write_all crypto d (Enc.pushes evs ++ wire) = (d', out, None)
    /\ concat out = target ++ concat P.
Proof.
  intros Hinfo Hsalt Htarget HP.
  assert (Hnew : exists this,
             Local.new config = Some this
             /\ Local.method this = Local.c_method config
             /\ Local.password this = Local.c_password config).
  { unfold Local.new, Local.truthy_method. cbn [Local.method].
    rewrite Hinfo. cbn [negb]. eexists. repeat split. }
  destruct Hnew as (this & Hnew & Hm & Hpw).
  exists this. rewrite Hnew, Hm, Hpw.
  set (m := Local.c_method config) in *.
  set (pw := Local.c_password config).
  destruct (Enc.new m pw) as [e0|] eqn:He0;
    [|unfold Enc.new in He0; rewrite Hinfo in He0; discriminate].
  destruct (Dec.new m pw) as [d0|] eqn:Hd0;
    [|unfold Dec.new in Hd0; rewrite Hinfo in Hd0; discriminate].
  assert (Hi0 : Enc.methodInfo e0 = info /\ Enc.isFirstChunk e0 = true).
  { unfold Enc.new in He0. rewrite Hinfo in He0. injection He0 as <-.
    split; reflexivity. }
  destruct Hi0 as [Hi0 Hfirst0].
  destruct (fresh_in_step crypto m pw e0 d0 random He0 Hd0)
    as (d1 & k & Hd1 & Hstep); [rewrite Hi0; exact Hsalt|].
  assert (HtP : Forall (fun p => Buffer.len p <= 65535) (target :: P)).
  { constructor; [lia|exact HP]. }
  destruct (lockstep_all crypto Hcrypto k random (target :: P) _ d1 Hstep HtP)
    as (e' & evsAll & d' & out & Henc & Hdec & Hout & _).
  pose proof Hstep as (Hf1 & Hk1 & _).
  rewrite enc_write_all_cons in Henc.
  rewrite (enc_transform_running crypto _ k random target Hf1 Hk1 Htarget)
    in Henc.
  match type of Henc with
  | context [Enc.write_all crypto ?e2 random P] =>
      destruct (Enc.write_all crypto e2 random P) as [[e'' evsP] rP] eqn:HwP;
      set (e2' := e2) in *
  end.
  pose proof (f_equal (fun x => fst (fst x)) Henc) as He'.
  pose proof (f_equal (fun x => snd (fst x)) Henc) as Hevs.
  pose proof (f_equal snd Henc) as HrP.
  cbn [fst snd] in He', Hevs, HrP. clear Henc. subst e'' evsAll rP.
  unfold on_connect. rewrite He0, Hd0.
  rewrite (enc_transform_first crypto e0 random target Hfirst0).
  rewrite (enc_transform_running crypto _ k random target Hf1 Hk1 Htarget).
  rewrite bool_decide_eq_false_2 by (intros Hne; apply Hne; reflexivity).
  rewrite app_nil_r.
  exists {| encryptor := e2'; decryptor := d0;
            encryptorFailed := false; decryptorFailed := false |}.
  eexists _, _, (Enc.pushes evsP), d0, d', out.
  split; [reflexivity|]. split; [reflexivity|]. split; [reflexivity|].
  split; [reflexivity|].
  split.
  { apply (client_stream_write_all random P
             {| encryptor := e2'; decryptor := d0;
                encryptorFailed := false; decryptorFailed := false |}
             e' evsP eq_refl HwP). }
  split; [reflexivity|].
  split; [|exact Hout].
  rewrite pushes_app in Hdec.
  change (Enc.pushes (Enc.Push random :: ?l)) with (random :: Enc.pushes l).
  cbn [app]. rewrite dec_write_all_cons, Hd1.
  change (Enc.pushes [?a; ?b; Enc.Push ?f]) with [f] in *.
  rewrite Hdec. reflexivity.
Qed.

End Relay.

Lemma X14_witness :
  exists this tunnel evs tunnel' wire d d' out,
    Local.new config0 = Some this
    /\ Local.method this = Local.c_method config0
    /\ Local.password this = Local.c_password config0
    /\ ShadowsocksLocal.on_connect Toy.crypto (Local.method this)
         (Local.password this) salt0 target0
       = Some (tunnel, evs,
               [ShadowsocksLocal.LogDebug;
                ShadowsocksLocal.ClientWrite (ShadowsocksLocal.reply x00)]
                 ++ map ShadowsocksLocal.ServerWrite (Enc.pushes evs))
    /\ Local.client_stream Toy.crypto tunnel salt0 [[x47; x45]; []; [x54]]
       = (tunnel', map ShadowsocksLocal.ServerWrite wire)
    /\ Dec.new (Local.method this) (Local.password this) = Some d
    /\ Dec.write_all Toy.crypto d (Enc.pushes evs ++ wire) = (d', out, None)
    /\ concat out = target0 ++ concat [[x47; x45]; []; [x54]].
Proof.
  refine (X14_relay_carries_target_then_client_bytes Toy.crypto
            toy_aead_correct config0 aes128 salt0 target0
            [[x47; x45]; []; [x54]] _ _ _ _).
  - reflexivity.
  - reflexivity.
  - unfold Buffer.len. simpl. lia.
  - repeat constructor; unfold Buffer.len; simpl; lia.
Defined.

Lemma X15_witness :
  match ShadowsocksLocal.on_connect Toy.crypto "aes-128-gcm" "pw" salt0
          target0 with
  | Some (tunnel, _, _) =>
      Local.client_stream Toy.crypto tunnel salt0
        [replicate (Z.to_nat 65536) x41; [x47; x45]]
      = ({| ShadowsocksLocal.encryptor := ShadowsocksLocal.encryptor tunnel;
            ShadowsocksLocal.decryptor := ShadowsocksLocal.decryptor tunnel;
            ShadowsocksLocal.encryptorFailed := true;
            ShadowsocksLocal.decryptorFailed :=
              ShadowsocksLocal.decryptorFailed tunnel |},
         [ShadowsocksLocal.LogError; ShadowsocksLocal.ClientDestroy;
          ShadowsocksLocal.ServerDestroy])
  | None => False
  end.
Proof.
  destruct (ShadowsocksLocal.on_connect Toy.crypto "aes-128-gcm" "pw" salt0
              target0) as [[[tunnel evs] acts]|] eqn:E.
  - apply (X15_oversized_client_data_ends_the_tunnel Toy.crypto
             "aes-128-gcm" "pw" salt0 target0 tunnel evs acts salt0
             (replicate (Z.to_nat 65536) x41) [[x47; x45]] E).
    + vm_compute in E. injection E as <- _ _. reflexivity.
    + unfold Buffer.len. rewrite length_replicate. lia.
  - vm_compute in E. discriminate.
Defined.

Section Downstream.
Import Methods Aead ShadowsocksLocal.
Context (crypto : NodeCrypto).
Hypothesis Hcrypto : aead_correct crypto.

(** X16. Once the relay is set up, what a peer's encryptor with the same
    method and password produced for buffers of at most 65535 bytes
    reaches the SOCKS5 client as exactly those bytes, however the
    connection from the server cuts it into 'data' events, and no socket
    is destroyed. *)
Theorem X16_server_bytes_reach_the_client
    (method password : string) (e : Enc.t) (random p : bytes)
    (P : list bytes) (random' target : bytes) (tunnel : Tunnel)
    (evs0 : list Enc.Event) (acts0 : list Action) (chunks : list bytes) :
  Enc.new method password = Some e ->
  Buffer.len random = saltSize (Enc.methodInfo e) ->
  Forall (fun p => Buffer.len p <= 65535) (p :: P) ->
  on_connect crypto method password random' target
  = Some (tunnel, evs0, acts0) ->
  concat chunks
  = concat (Enc.pushes
              (snd (fst (Enc.write_all crypto e random (p :: P))))) ->
  exists out,
    snd (server_stream crypto tunnel chunks) = map ClientWrite out
    /\ concat out = concat (p :: P).
Proof.
  intros He Hlen HP Hc Hchunks.
  unfold on_connect in Hc. rewrite He in Hc.
  destruct (Dec.new method password) as [d0|] eqn:Hd0; [|discriminate].
  destruct (Enc._transform crypto e random' target) as [[e1 ev1] r1].
  assert (Hdec0 : decryptor tunnel = d0 /\ decryptorFailed tunnel = false).
  { injection Hc as <- _ _. split; reflexivity. }
  destruct Hdec0 as [Hdec0 Hfailed]. clear Hc.
  pose proof (new_well_formed _ _ _ Hd0) as Hwf.
  destruct (fresh_in_step crypto method password e d0 random He Hd0 Hlen)
    as (d1 & k & Hd1 & Hstep).
  destruct (lockstep_all crypto Hcrypto k random (p :: P) _ d1 Hstep HP)
    as (e' & evs & d' & out & Henc & Hdec & Hout & _).
  assert (Hfirst : Enc.isFirstChunk e = true).
  { unfold Enc.new in He. destruct (AEAD_METHODS method); [|discriminate].
    injection He as <-. reflexivity. }
  rewrite (enc_write_all_first crypto e random p P Hfirst), Henc in Hchunks.
  cbn [fst snd] in Hchunks.
  change (Enc.pushes (Enc.Push random :: evs))
    with (random :: Enc.pushes evs) in Hchunks.
  assert (Hall : observe (Dec.write_all crypto d0 (random :: Enc.pushes evs))
                 = (out, None)).
  { rewrite dec_write_all_cons, Hd1, Hdec. reflexivity. }
  rewrite write_all_concat in Hall by exact Hwf.
  destruct chunks as [|c cs].
  { exfalso. apply (f_equal Buffer.len) in Hchunks.
    change (concat (random :: Enc.pushes evs))
      with (random ++ concat (Enc.pushes evs)) in Hchunks.
    rewrite len_app, Hlen in Hchunks.
    pose proof (len_nonneg (concat (Enc.pushes evs))).
    unfold Enc.new in He.
    destruct (AEAD_METHODS method) as [info|] eqn:Hinfo; [|discriminate].
    injection He as <-. cbn [Enc.methodInfo] in Hchunks.
    destruct (table_sizes _ _ Hinfo) as (_ & _ & [Hs|Hs]);
      rewrite Hs in Hchunks; unfold Buffer.len in Hchunks at 1;
      simpl in Hchunks; lia. }
  rewrite <- Hchunks in Hall.
  rewrite <- (write_all_concat crypto cs d0 c Hwf) in Hall.
  destruct (Dec.write_all crypto d0 (c :: cs)) as [[d'' out''] r''] eqn:Hw.
  unfold observe in Hall. cbn [fst snd] in Hall. injection Hall as -> ->.
  exists (piped out). split; [|rewrite concat_piped; exact Hout].
  rewrite <- Hdec0 in Hw.
  rewrite (server_stream_write_all crypto (c :: cs) tunnel d'' out None
             Hfailed Hw).
  apply app_nil_r.
Qed.

End Downstream.

Lemma X16_witness :
  match ShadowsocksLocal.on_connect Toy.crypto "aes-128-gcm" "pw" salt0
          target0 with
  | Some (tunnel, _, _) =>
      exists out,
        snd (ShadowsocksLocal.server_stream Toy.crypto tunnel
               [take 5 good_wire; drop 5 good_wire])
        = map ShadowsocksLocal.ClientWrite out
        /\ concat out = concat [[x68; x69]]
  | None => False
  end.
Proof.
  destruct (ShadowsocksLocal.on_connect Toy.crypto "aes-128-gcm" "pw" salt0
              target0) as [[[tunnel evs] acts]|] eqn:E.
  - apply (X16_server_bytes_reach_the_client Toy.crypto toy_aead_correct
             "aes-128-gcm" "pw" encryptor0 salt0 [x68; x69] []
             salt0 target0 tunnel evs acts
             [take 5 good_wire; drop 5 good_wire]).
    + reflexivity.
    + reflexivity.
    + repeat constructor; unfold Buffer.len; simpl; lia.
    + exact E.
    + vm_compute. reflexivity.
  - vm_compute in E. discriminate.
Defined.

(** ** Method names the table inherits *)


